(** * golf-stats: scoring and standings engine

    A shallow embedding of the scoring code of the golf-stats application
    ([app/golf_calc.py], the card, round and league functions of
    [app/crud.py] and the fairway part of the card form reader of
    [app/main.py]) together with the properties its specification states
    about it, followed by further code (deleting a round, the last steps of
    the card handler, the loop body of the round summary) and further
    properties of the code.

    Conventions of the embedding:
    - Python [int] is [Z]; [//] and [%] by the positive constant 18 are
      [Z.div] and [Z.modulo] (both floor towards minus infinity).
    - Python [float] is IEEE-754 binary64, modelled by the standard library's
      [spec_float] with [prec = 53] and [emax = 1024].
    - [dict] is [gmap] where only lookups matter, and an association list
      where iteration order matters; a nullable column or [None] is [option].
    - An exception is a value of [PyErr]; code that can raise lives in the
      monad [py].
    - Integers read from the database are 64-bit columns and sums of them, so
      the [OverflowError] of int-to-float conversion (beyond [2^1024]) is
      out of reach and conversions are total. An int written to a column
      has to fit the same 64 bits: the commit of a card that carries one
      that does not raises [OverflowError]. *)

From Stdlib Require Import ZArith QArith Qround Qabs Lia List Bool.
From Stdlib Require Import Strings.String Strings.Ascii.
From Stdlib Require Import Numbers.DecimalString.
From Stdlib Require Import Floats.SpecFloat.
From Stdlib Require Import Sorting.Sorted Sorting.Permutation.
From Stdlib Require Import Structures.OrdersEx.
From stdpp Require Import base option list sorting gmap strings fin_maps.

Open Scope Z_scope.

(* ===================================================================== *)
(** * Python runtime: exceptions and the error monad                      *)
(* ===================================================================== *)

Inductive PyErr : Type :=
  | IndexError
  | KeyError
  | ValueError
  | OverflowError
  | ZeroDivisionError
  | AttributeError.

Inductive py (A : Type) : Type :=
  | Ok (a : A)
  | Err (e : PyErr).
Arguments Ok {A} a.
Arguments Err {A} e.

#[global] Instance py_ret : MRet py := fun A a => Ok a.
#[global] Instance py_bind : MBind py := fun A B k m =>
  match m with
  | Ok a => k a
  | Err e => Err e
  end.

(** [d[k]]: subscript of a dict, [KeyError] when the key is absent. *)
Definition subscript {V : Type} (d : gmap Z V) (k : Z) : py V :=
  match d !! k with
  | Some v => Ok v
  | None => Err KeyError
  end.

(** [l[i]] for a non-negative index, [IndexError] out of range. *)
Definition index {A : Type} (l : list A) (i : nat) : py A :=
  match l !! i with
  | Some x => Ok x
  | None => Err IndexError
  end.

(** [o.attr] where [o] may be [None]. *)
Definition attr {A B : Type} (o : option A) (f : A -> B) : py B :=
  match o with
  | Some a => Ok (f a)
  | None => Err AttributeError
  end.

(** [for x in xs: body], threading the loop state; the body may raise. *)
Fixpoint for_each {A S : Type} (body : S -> A -> py S) (xs : list A)
    (s : S) : py S :=
  match xs with
  | [] => Ok s
  | x :: xs' => s' ← body s x; for_each body xs' s'
  end.

(** [[f(x) for x in xs]] where [f] may raise. *)
Fixpoint map_py {A B : Type} (f : A -> py B) (xs : list A) : py (list B) :=
  match xs with
  | [] => Ok []
  | x :: xs' => y ← f x; ys ← map_py f xs'; Ok (y :: ys)
  end.

(** [range(n)]: empty for [n <= 0]. *)
Definition range (n : Z) : list nat := seq 0 (Z.to_nat n).

(** [len(xs)]. *)
Definition len {A : Type} (xs : list A) : Z := Z.of_nat (length xs).

(** [max(xs)] on ints, [ValueError] on an empty sequence. *)
Definition py_max (xs : list Z) : py Z :=
  match xs with
  | [] => Err ValueError
  | x :: xs' => Ok (fold_left Z.max xs' x)
  end.

(** [str(z)] for an int. *)
Definition py_str (z : Z) : string := NilZero.string_of_int (Z.to_int z).

(** [sep.join(parts)]. *)
Fixpoint join (sep : string) (parts : list string) : string :=
  match parts with
  | [] => EmptyString
  | [p] => p
  | p :: rest => (p ++ sep ++ join sep rest)%string
  end.

(* ===================================================================== *)
(** * Python runtime: [sorted]                                            *)
(* ===================================================================== *)

(** [sorted(xs, key=...)] is a stable sort that only uses [<] on keys.
    [lt a b] is [key(a) < key(b)]. An element is placed after every
    earlier element that is not greater, which keeps equal keys in input
    order. *)
Section PySorted.
Context {A : Type} (lt : A -> A -> bool).

Fixpoint sorted_insert (x : A) (l : list A) : list A :=
  match l with
  | [] => [x]
  | y :: l' => if lt x y then x :: y :: l' else y :: sorted_insert x l'
  end.

Definition sorted (l : list A) : list A :=
  fold_left (fun acc x => sorted_insert x acc) l [].
End PySorted.

(** [le_of lt a b] is "not [b < a]", the order that [sorted] establishes. *)
Definition le_of {A : Type} (lt : A -> A -> bool) : relation A :=
  fun a b => lt b a = false.

(** [sorted(rows, key=f)] where computing a key may raise: all keys are
    computed first, then the rows are sorted on them. *)
Definition sorted_by_key {A K : Type} (key : A -> py K)
    (lt : K -> K -> bool) (rows : list A) : py (list A) :=
  keys ← map_py key rows;
  Ok (map snd (sorted (fun a b => lt (fst a) (fst b)) (zip keys rows))).

(* ===================================================================== *)
(** * Python runtime: binary64 floats                                     *)
(* ===================================================================== *)

Definition float : Type := spec_float.

Definition prec : Z := 53.
Definition emax : Z := 1024.

Definition fmul : float -> float -> float := SFmul prec emax.
Definition fadd : float -> float -> float := SFadd prec emax.
Definition fsub : float -> float -> float := SFsub prec emax.
Definition fdiv : float -> float -> float := SFdiv prec emax.
Definition feqb : float -> float -> bool := SFeqb.
Definition fltb : float -> float -> bool := SFltb.
Definition fneg : float -> float := SFopp.

Definition is_nan (x : float) : bool :=
  match x with
  | S754_nan => true
  | _ => false
  end.

Definition is_finite (x : float) : bool :=
  match x with
  | S754_zero _ | S754_finite _ _ _ => true
  | _ => false
  end.

(** [float(z)]: the nearest binary64, ties to even. *)
Definition float_of_int (z : Z) : float := binary_normalize prec emax z 0 false.

(** An integer as an unrounded float (a mantissa of any width). *)
Definition exact_of_int (z : Z) : float :=
  match z with
  | Z0 => S754_zero false
  | Zpos p => S754_finite false p 0
  | Zneg p => S754_finite true p 0
  end.

(** [a / b] on two ints: the correctly rounded quotient. *)
Definition int_truediv (a b : Z) : py float :=
  if b =? 0 then Err ZeroDivisionError
  else Ok (fdiv (exact_of_int a) (exact_of_int b)).

(** [x / n] for a float and an int: the int is converted first. The
    converted divisor is zero exactly when [n] is. *)
Definition float_div_int (x : float) (n : Z) : py float :=
  if n =? 0 then Err ZeroDivisionError
  else Ok (fdiv x (float_of_int n)).

(** The decimal literals of the source. *)
Definition lit_113 : float := Eval vm_compute in float_of_int 113.
Definition lit_0 : float := S754_zero false.

(** The rational value of a finite float. *)
Definition float_val (x : float) : Q :=
  match x with
  | S754_finite s m e =>
      let n := if s then Zneg m else Zpos m in
      if 0 <=? e then inject_Z (n * 2 ^ e)
      else Qmake n (Z.to_pos (2 ^ (- e)))
  | _ => 0%Q
  end.

(** Nearest integer to [n / d] for [d > 0], ties to the even neighbour. *)
Definition round_half_even (n d : Z) : Z :=
  let q := n / d in
  let r := n mod d in
  match 2 * r ?= d with
  | Lt => q
  | Gt => q + 1
  | Eq => if Z.even q then q else q + 1
  end.

(** [round(x)] with one argument: the nearest int, ties to even;
    [ValueError] on NaN and [OverflowError] on an infinity. *)
Definition py_round (x : float) : py Z :=
  match x with
  | S754_nan => Err ValueError
  | S754_infinity _ => Err OverflowError
  | S754_zero _ => Ok 0
  | S754_finite s m e =>
      let n := if s then Zneg m else Zpos m in
      if 0 <=? e then Ok (n * 2 ^ e)
      else Ok (round_half_even n (2 ^ (- e)))
  end.

(* ===================================================================== *)
(** * Data model ([app/models.py])                                        *)
(* ===================================================================== *)

Record Player : Type := mkPlayer {
  p_id : Z;
  p_name : string;
  hcp_exact : float
}.

Record Course : Type := mkCourse {
  c_id : Z;
  c_name : string;
  par_total : Z;
  slope_yellow : Z;
  rating_yellow : option float
}.

Record Hole : Type := mkHole {
  h_id : Z;
  h_course_id : Z;
  number : Z;
  par : Z;
  stroke_index : Z;
  meters_yellow : option Z
}.

Record Round : Type := mkRound {
  r_id : Z;
  r_course_id : Z;
  r_league_id : option Z;
  winner_type : option string;
  winner_player_ids : option string
}.

Record RoundPlayer : Type := mkRoundPlayer {
  rp_id : Z;
  round_id : Z;
  player_id : Z;
  hcp_exact_day : float;
  rp_course_handicap : Z;
  gross_total : option Z;
  net_total : option Z;
  stableford_hcp_total : option Z;
  stableford_scratch_total : option Z;
  putts_total : option Z;
  result : option string
}.

Record HoleScore : Type := mkHoleScore {
  hs_round_player_id : Z;
  hole_number : Z;
  gross_strokes : Z;
  putts : option Z;
  fir : option bool;
  gir : option bool;
  net_strokes : option Z;
  hs_stableford_points : option Z
}.

Record League : Type := mkLeague {
  l_id : Z;
  l_name : string;
  is_closed : option bool
}.

(** The tables of the database, rows in storage order. *)
Record DB : Type := mkDB {
  db_players : list Player;
  db_courses : list Course;
  db_rounds : list Round;
  db_round_players : list RoundPlayer;
  db_hole_scores : list HoleScore
}.

(* ===================================================================== *)
(** * [app/golf_calc.py]                                                  *)
(* ===================================================================== *)

(** [int(round(hcp_exact * (slope / 113.0)))] *)
Definition course_handicap (hcp_exact : float) (slope : Z) : py Z :=
  py_round (fmul hcp_exact (fdiv (float_of_int slope) lit_113)).

(** [{h.number: base for h in holes}] *)
Definition received_init (base : Z) (holes : list Hole) : gmap Z Z :=
  fold_left (fun d h => <[number h := base]> d) holes ∅.

(** [received[ordered[i].number] += 1] *)
Definition received_bump (ordered : list Hole) (received : gmap Z Z)
    (i : nat) : py (gmap Z Z) :=
  h ← index ordered i;
  v ← subscript received (number h);
  Ok (<[number h := v + 1]> received).

(** [key=lambda h: h.stroke_index], compared with [<]. *)
Definition by_stroke_index (a b : Hole) : bool :=
  stroke_index a <? stroke_index b.

Definition strokes_received_per_hole (ch : Z) (holes : list Hole)
    : py (gmap Z Z) :=
  let base := ch / 18 in
  let extra := ch mod 18 in
  let ordered := sorted by_stroke_index holes in
  let received := received_init base holes in
  for_each (received_bump ordered) (range extra) received.

Definition stableford_points (net_strokes par : Z) : Z :=
  let diff := net_strokes - par in
  if 2 <=? diff then 0
  else if diff =? 1 then 1
  else if diff =? 0 then 2
  else if diff =? -1 then 3
  else if diff =? -2 then 4
  else if diff =? -3 then 5
  else 6.

(** [sum(d.values())] *)
Definition sum_values (d : gmap Z Z) : Z :=
  map_fold (fun _ v acc => v + acc) 0 d.

(** A sample par-72 course used to exercise the definitions. *)
Definition sample_holes : list Hole :=
  zip_with (fun n '(p, si) => mkHole n 1 n p si None)
    (seqZ 1 18)
    [(4, 7); (3, 15); (5, 1); (4, 11); (4, 5); (3, 17); (4, 3); (5, 13);
     (4, 9); (4, 8); (3, 16); (5, 2); (4, 12); (4, 6); (3, 18); (4, 4);
     (5, 14); (4, 10)].

(* ===================================================================== *)
(** * [app/crud.py]: saving a card                                        *)
(* ===================================================================== *)

(** [x += 1] under a condition. *)
Definition incr_if (b : bool) (x : Z) : Z := if b then x + 1 else x.

(** [bool(x)] for a value that is [None], [True] or [False]. *)
Definition py_bool (x : option bool) : bool :=
  match x with
  | Some b => b
  | None => false
  end.

(** The running totals of the card loop together with the rows handed to
    [db.add], in order. *)
Record CardAcc : Type := mkCardAcc {
  a_gross_total : Z;
  a_net_total : Z;
  a_points_total : Z;
  a_scratch_points_total : Z;
  a_putts_total : Z;
  a_birdies : Z;
  a_eagles : Z;
  a_pars : Z;
  a_bogeys : Z;
  a_dbl : Z;
  a_overdbl : Z;
  a_hio : Z;
  a_albatros : Z;
  a_par3_sum : Z;
  a_par4_sum : Z;
  a_par5_sum : Z;
  a_par3_n : Z;
  a_par4_n : Z;
  a_par5_n : Z;
  a_fir_total : Z;
  a_fir_possible : Z;
  a_gir_total : Z;
  a_gir_possible : Z;
  a_added : list HoleScore
}.

Definition card_acc_init : CardAcc :=
  mkCardAcc 0 0 0 0 0 0 0 0 0 0 0 0 0 0 0 0 0 0 0 0 0 0 0 [].

(** The dict returned by [save_card_for_round_player]. *)
Record CardSummary : Type := mkCardSummary {
  cs_gross_total : Z;
  cs_net_total : Z;
  cs_points_total : Z;
  cs_fir_total : Z;
  cs_fir_possible : Z;
  cs_gir_total : Z;
  cs_gir_possible : Z;
  cs_hio : Z;
  cs_albatros : Z;
  cs_eagles : Z;
  cs_birdies : Z;
  cs_pars : Z;
  cs_bogeys : Z;
  cs_dbl : Z;
  cs_overdbl : Z
}.

(** [fir_val]: [None] on a par 3, else [bool(fir_by_hole.get(n, False))]. *)
Definition fir_value (fir_by_hole : gmap Z (option bool)) (h : Hole)
    : option bool :=
  if par h =? 3 then None
  else Some (py_bool (default (Some false) (fir_by_hole !! number h))).

(** [gir_val]: [None] without putts, else [(g - p) <= (h.par - 2)]. *)
Definition gir_value (g : Z) (p : option Z) (h : Hole) : option bool :=
  match p with
  | Some p => Some (g - p <=? par h - 2)
  | None => None
  end.

(** [p]: the putts of the hole; [putts_by_hole.get] gives [None] for an
    absent key, and a stored [None] stays [None]. *)
Definition putts_value (putts_by_hole : gmap Z (option Z)) (h : Hole)
    : option Z :=
  default None (putts_by_hole !! number h).

(** [models.HoleScore(...)] for hole [h], with gross strokes [g] and [r]
    strokes received. *)
Definition stored_row (rp : RoundPlayer) (gross_by_hole : gmap Z Z)
    (putts_by_hole : gmap Z (option Z)) (fir_by_hole : gmap Z (option bool))
    (received : gmap Z Z) (h : Hole) (g r : Z) : HoleScore :=
  let p := putts_value putts_by_hole h in
  {| hs_round_player_id := rp_id rp;
     hole_number := number h;
     gross_strokes := g;
     putts := p;
     fir := fir_value fir_by_hole h;
     gir := gir_value g p h;
     net_strokes := Some (g - r);
     hs_stableford_points := Some (stableford_points (g - r) (par h)) |}.

(** The body of [for h in holes]. *)
Definition card_hole (rp : RoundPlayer) (received : gmap Z Z)
    (gross_by_hole : gmap Z Z) (putts_by_hole : gmap Z (option Z))
    (fir_by_hole : gmap Z (option bool))
    (acc : CardAcc) (h : Hole) : py CardAcc :=
  g ← subscript gross_by_hole (number h);
  let p := putts_value putts_by_hole h in
  r ← subscript received (number h);
  let net := g - r in
  let pts := stableford_points net (par h) in
  let scratch_pts := stableford_points g (par h) in
  let fir_val := fir_value fir_by_hole h in
  let gir_val := gir_value g p h in
  let d := g - par h in
  let other := negb (g =? 1) in
  Ok {|
    a_gross_total := a_gross_total acc + g;
    a_net_total := a_net_total acc + net;
    a_points_total := a_points_total acc + pts;
    a_scratch_points_total := a_scratch_points_total acc + scratch_pts;
    a_putts_total := a_putts_total acc + default 0 p;
    a_birdies := incr_if (other && (d =? -1)) (a_birdies acc);
    a_eagles := incr_if (other && (d =? -2)) (a_eagles acc);
    a_pars := incr_if (other && (d =? 0)) (a_pars acc);
    a_bogeys := incr_if (other && (d =? 1)) (a_bogeys acc);
    a_dbl := incr_if (other && (d =? 2)) (a_dbl acc);
    a_overdbl := incr_if (other && (3 <=? d)) (a_overdbl acc);
    a_hio := incr_if (g =? 1) (a_hio acc);
    a_albatros := incr_if (other && (d <=? -3)) (a_albatros acc);
    a_par3_sum := if par h =? 3 then a_par3_sum acc + g else a_par3_sum acc;
    a_par4_sum := if par h =? 4 then a_par4_sum acc + g else a_par4_sum acc;
    a_par5_sum := if par h =? 5 then a_par5_sum acc + g else a_par5_sum acc;
    a_par3_n := incr_if (par h =? 3) (a_par3_n acc);
    a_par4_n := incr_if (par h =? 4) (a_par4_n acc);
    a_par5_n := incr_if (par h =? 5) (a_par5_n acc);
    a_fir_total := incr_if (py_bool fir_val) (a_fir_total acc);
    a_fir_possible := incr_if (negb (par h =? 3)) (a_fir_possible acc);
    a_gir_total := incr_if (py_bool gir_val) (a_gir_total acc);
    a_gir_possible := incr_if (bool_decide (is_Some p)) (a_gir_possible acc);
    a_added := a_added acc ++
      [stored_row rp gross_by_hole putts_by_hole fir_by_hole received h g r]
  |}.

Definition card_summary (acc : CardAcc) : CardSummary :=
  {| cs_gross_total := a_gross_total acc;
     cs_net_total := a_net_total acc;
     cs_points_total := a_points_total acc;
     cs_fir_total := a_fir_total acc;
     cs_fir_possible := a_fir_possible acc;
     cs_gir_total := a_gir_total acc;
     cs_gir_possible := a_gir_possible acc;
     cs_hio := a_hio acc;
     cs_albatros := a_albatros acc;
     cs_eagles := a_eagles acc;
     cs_birdies := a_birdies acc;
     cs_pars := a_pars acc;
     cs_bogeys := a_bogeys acc;
     cs_dbl := a_dbl acc;
     cs_overdbl := a_overdbl acc |}.

(** [DELETE FROM hole_scores WHERE round_player_id = rp.id], committed. *)
Definition delete_card (db : DB) (rp : RoundPlayer) : DB :=
  {| db_players := db_players db;
     db_courses := db_courses db;
     db_rounds := db_rounds db;
     db_round_players := db_round_players db;
     db_hole_scores :=
       filter (fun hs => hs_round_player_id hs <> rp_id rp) (db_hole_scores db) |}.

(** The totals written on the round player. *)
Definition with_totals (rp : RoundPlayer) (acc : CardAcc) : RoundPlayer :=
  {| rp_id := rp_id rp;
     round_id := round_id rp;
     player_id := player_id rp;
     hcp_exact_day := hcp_exact_day rp;
     rp_course_handicap := rp_course_handicap rp;
     gross_total := Some (a_gross_total acc);
     net_total := Some (a_net_total acc);
     stableford_hcp_total := Some (a_points_total acc);
     stableford_scratch_total := Some (a_scratch_points_total acc);
     putts_total := Some (a_putts_total acc);
     result := result rp |}.

(** An [INTEGER] column holds a signed 64-bit value (SQLite, the engine of
    the database file [golf_stats.db] that [backup_db.py] copies). The
    driver refuses any other int with [OverflowError] when the statement
    that carries it is executed. *)
Definition fits_integer (z : Z) : bool := (- 2 ^ 63 <=? z) && (z <? 2 ^ 63).

(** Whether every int of a new [hole_scores] row can be stored. *)
Definition row_fits (hs : HoleScore) : bool :=
  fits_integer (hs_round_player_id hs) &&
  fits_integer (hole_number hs) &&
  fits_integer (gross_strokes hs) &&
  fits_integer (default 0 (putts hs)) &&
  fits_integer (default 0 (net_strokes hs)) &&
  fits_integer (default 0 (hs_stableford_points hs)).

(** Whether the final commit can store what the card loop produced: the
    rows handed to [db.add] and the five totals set on the round player. *)
Definition card_fits (acc : CardAcc) : bool :=
  forallb row_fits (a_added acc) &&
  fits_integer (a_gross_total acc) &&
  fits_integer (a_net_total acc) &&
  fits_integer (a_points_total acc) &&
  fits_integer (a_scratch_points_total acc) &&
  fits_integer (a_putts_total acc).

(** The final commit when it succeeds: the new rows are inserted and the
    totals are written on the row of [rp], found by primary key. *)
Definition commit_card (db : DB) (rp : RoundPlayer) (acc : CardAcc) : DB :=
  {| db_players := db_players db;
     db_courses := db_courses db;
     db_rounds := db_rounds db;
     db_round_players :=
       map (fun x => if rp_id x =? rp_id rp then with_totals x acc else x)
         (db_round_players db);
     db_hole_scores := db_hole_scores db ++ a_added acc |}.

(** [save_card_for_round_player]: the returned summary or the exception,
    and the committed state of the database. The old card is deleted and
    committed before anything can raise. The final commit flushes the new
    rows and the totals in one transaction: when a value does not fit its
    column the flush raises [OverflowError] and the transaction is rolled
    back, which leaves the state of the first commit. *)
Definition save_card_for_round_player (db : DB) (rp : RoundPlayer)
    (holes : list Hole) (gross_by_hole : gmap Z Z)
    (putts_by_hole : gmap Z (option Z)) (fir_by_hole : gmap Z (option bool))
    : py CardSummary * DB :=
  let db1 := delete_card db rp in
  let run :=
    received ← strokes_received_per_hole (rp_course_handicap rp) holes;
    for_each (card_hole rp received gross_by_hole putts_by_hole fir_by_hole)
      holes card_acc_init in
  match run with
  | Ok acc =>
      if card_fits acc
      then (Ok (card_summary acc), commit_card db1 rp acc)
      else (Err OverflowError, db1)
  | Err e => (Err e, db1)
  end.

(* ===================================================================== *)
(** * [app/main.py]: the fairway flags read from the card form            *)
(* ===================================================================== *)

(** The [fir_by_hole] dict built by [round_card_player_save]: [None] on a
    hole of par 3 or less, else whether the checkbox [fir_<number>] was
    sent with the form. *)
Definition round_card_fir_by_hole (form : gmap string string)
    (holes : list Hole) : gmap Z (option bool) :=
  fold_left
    (fun d h =>
       let fir_val := form !! ("fir_" ++ py_str (number h))%string in
       if par h <=? 3 then <[number h := None]> d
       else <[number h := Some (bool_decide (is_Some fir_val))]> d)
    holes ∅.

(* ===================================================================== *)
(** * [app/crud.py]: closing a round                                      *)
(* ===================================================================== *)

(** [db.query(Round).filter(Round.id == round_id).first()] *)
Definition get_round (db : DB) (rid : Z) : option Round :=
  head (filter (fun r => r_id r = rid) (db_rounds db)).

(** [db.query(RoundPlayer).filter(RoundPlayer.round_id == round_id).all()] *)
Definition get_round_players (db : DB) (rid : Z) : list RoundPlayer :=
  filter (fun rp => round_id rp = rid) (db_round_players db).

Definition set_winner (r : Round) (wt ids : string) : Round :=
  {| r_id := r_id r;
     r_course_id := r_course_id r;
     r_league_id := r_league_id r;
     winner_type := Some wt;
     winner_player_ids := Some ids |}.

Definition set_result (rp : RoundPlayer) (res : string) : RoundPlayer :=
  {| rp_id := rp_id rp;
     round_id := round_id rp;
     player_id := player_id rp;
     hcp_exact_day := hcp_exact_day rp;
     rp_course_handicap := rp_course_handicap rp;
     gross_total := gross_total rp;
     net_total := net_total rp;
     stableford_hcp_total := stableford_hcp_total rp;
     stableford_scratch_total := stableford_scratch_total rp;
     putts_total := putts_total rp;
     result := Some res |}.

(** [rp in winners]: mapped rows are compared by identity, and the session
    holds one object per primary key. *)
Definition rp_in (rp : RoundPlayer) (winners : list RoundPlayer) : bool :=
  existsb (fun w => rp_id w =? rp_id rp) winners.

(** The commit: the round and the round players that were loaded are
    updated by primary key. *)
Definition commit_round (db : DB) (rid : Z) (r' : Round)
    (res : RoundPlayer -> string) : DB :=
  {| db_players := db_players db;
     db_courses := db_courses db;
     db_rounds := map (fun x => if r_id x =? r_id r' then r' else x) (db_rounds db);
     db_round_players :=
       map (fun x => if round_id x =? rid then set_result x (res x) else x)
         (db_round_players db);
     db_hole_scores := db_hole_scores db |}.

(** [close_round_and_set_winner]: the exception if one is raised, and the
    state of the database afterwards. *)
Definition close_round_and_set_winner (db : DB) (rid : Z) : py unit * DB :=
  let r := get_round db rid in
  let rps := get_round_players db rid in
  match py_max (omap stableford_hcp_total rps) with
  | Err e => (Err e, db)
  | Ok max_pts =>
      let winners :=
        filter (fun rp => stableford_hcp_total rp = Some max_pts) rps in
      match r with
      | None => (Err AttributeError, db)
      | Some r =>
          match winners with
          | [w] =>
              (Ok tt,
               commit_round db rid
                 (set_winner r "single" (py_str (player_id w)))
                 (fun rp => if rp_id rp =? rp_id w then "win" else "loss"))
          | _ =>
              (Ok tt,
               commit_round db rid
                 (set_winner r "tie" (join "," (py_str <$> (player_id <$> winners))))
                 (fun rp => if rp_in rp winners then "tie" else "loss"))
          end
      end
  end.

(* ===================================================================== *)
(** * [app/crud.py]: league standings                                     *)
(* ===================================================================== *)

(** The relationships of the mapped classes, loaded through the session. *)

(** [r.round_players] *)
Definition round_players_of (db : DB) (r : Round) : list RoundPlayer :=
  filter (fun rp => round_id rp = r_id r) (db_round_players db).

(** [r.course] *)
Definition course_of (db : DB) (r : Round) : option Course :=
  head (filter (fun c => c_id c = r_course_id r) (db_courses db)).

(** [rp.player] *)
Definition player_of (db : DB) (rp : RoundPlayer) : option Player :=
  head (filter (fun p => p_id p = player_id rp) (db_players db)).

(** The per-player dict of [stats]. *)
Record Stats : Type := mkStats {
  s_player : option Player;
  s_rounds : Z;
  s_wins : Z;
  s_ties : Z;
  s_f1_points : float;
  s_gross_sum : Z;
  s_gross_count : Z;
  s_best_gross : option Z;
  s_net_sum : Z;
  s_net_count : Z;
  s_scratch_sum : Z;
  s_stableford_sum : Z;
  s_level_hcp_sum : float;
  s_level_hcp_count : Z
}.

(** The default value of the [defaultdict]. *)
Definition stats_default : Stats :=
  mkStats None 0 0 0 lit_0 0 0 None 0 0 0 0 lit_0 0.

(** [stats] keeps its keys in insertion order, which is the order of
    [stats.items()]. *)
Definition stats_lookup (st : list (Z * Stats)) (pid : Z) : option Stats :=
  snd <$> head (filter (fun e => fst e = pid) st).

(** [stats[pid]], the default when the key is new. *)
Definition stats_get (st : list (Z * Stats)) (pid : Z) : Stats :=
  default stats_default (stats_lookup st pid).

(** The entry of [pid] after its dict was mutated: in place when the key
    exists, else appended. *)
Fixpoint stats_set (st : list (Z * Stats)) (pid : Z) (s : Stats)
    : list (Z * Stats) :=
  match st with
  | [] => [(pid, s)]
  | (k, v) :: st' =>
      if k =? pid then (k, s) :: st' else (k, v) :: stats_set st' pid s
  end.

(** [((rp.gross_total - course.rating_yellow) * 113) / course.slope_yellow]
    when the course, a non-zero slope and a rating are there. The guard
    makes the divisor non-zero. *)
Definition level_hcp_of (course : option Course) (g : Z) : option float :=
  match course with
  | Some c =>
      if slope_yellow c =? 0 then None
      else match rating_yellow c with
           | Some rating =>
               Some (fdiv (fmul (fsub (float_of_int g) rating)
                                (float_of_int 113))
                          (float_of_int (slope_yellow c)))
           | None => None
           end
  | None => None
  end.

(** The first inner loop body: the base statistics of one round player. *)
Definition stats_add_round (db : DB) (r : Round) (s : Stats)
    (rp : RoundPlayer) : Stats :=
  let level :=
    match gross_total rp with
    | Some g => level_hcp_of (course_of db r) g
    | None => None
    end in
  {| s_player :=
       match s_player s with
       | None => player_of db rp
       | Some p => Some p
       end;
     s_rounds := s_rounds s + 1;
     s_wins := incr_if (bool_decide (result rp = Some "win")) (s_wins s);
     s_ties := incr_if (bool_decide (result rp = Some "tie")) (s_ties s);
     s_f1_points := s_f1_points s;
     s_gross_sum := s_gross_sum s + default 0 (gross_total rp);
     s_gross_count := incr_if (bool_decide (is_Some (gross_total rp))) (s_gross_count s);
     s_best_gross :=
       match gross_total rp, s_best_gross s with
       | Some g, None => Some g
       | Some g, Some b => if g <? b then Some g else Some b
       | None, b => b
       end;
     s_net_sum := s_net_sum s + default 0 (net_total rp);
     s_net_count := incr_if (bool_decide (is_Some (net_total rp))) (s_net_count s);
     s_scratch_sum := s_scratch_sum s + default 0 (stableford_scratch_total rp);
     s_stableford_sum := s_stableford_sum s + default 0 (stableford_hcp_total rp);
     s_level_hcp_sum :=
       match level with
       | Some l => fadd (s_level_hcp_sum s) l
       | None => s_level_hcp_sum s
       end;
     s_level_hcp_count := incr_if (bool_decide (is_Some level)) (s_level_hcp_count s)
  |}.

(** [stats[pid]["f1_points"] += points_per_winner] *)
Definition stats_add_f1 (s : Stats) (points : float) : Stats :=
  {| s_player := s_player s;
     s_rounds := s_rounds s;
     s_wins := s_wins s;
     s_ties := s_ties s;
     s_f1_points := fadd (s_f1_points s) points;
     s_gross_sum := s_gross_sum s;
     s_gross_count := s_gross_count s;
     s_best_gross := s_best_gross s;
     s_net_sum := s_net_sum s;
     s_net_count := s_net_count s;
     s_scratch_sum := s_scratch_sum s;
     s_stableford_sum := s_stableford_sum s;
     s_level_hcp_sum := s_level_hcp_sum s;
     s_level_hcp_count := s_level_hcp_count s |}.

(** The sort key [(total is None, -(total or 0))], compared as a tuple:
    [False < True], then the ints. *)
Definition f1_key (rp : RoundPlayer) : bool * Z :=
  (bool_decide (stableford_hcp_total rp = None),
   - default 0 (stableford_hcp_total rp)).

Definition f1_key_lt (a b : bool * Z) : bool :=
  if eqb (fst a) (fst b) then snd a <? snd b
  else negb (fst a) && fst b.

(** The round players with a card: [rp.gross_total is not None]. *)
Definition scored_players (db : DB) (r : Round) : list RoundPlayer :=
  filter (fun rp => is_Some (gross_total rp)) (round_players_of db r).

(** [valid_rps]: the scored players with a handicap-Stableford total, best
    total first. *)
Definition valid_players (db : DB) (r : Round) : list RoundPlayer :=
  filter (fun rp => is_Some (stableford_hcp_total rp))
    (sorted (fun a b => f1_key_lt (f1_key a) (f1_key b)) (scored_players db r)).

(** The league points of one round: the joint winners and the points each
    of them gets; [None] when the round gives no points. *)
Definition round_f1 (db : DB) (r : Round) : option (list RoundPlayer * float) :=
  let valid_rps := valid_players db r in
  match valid_rps with
  | [] => None
  | first :: _ =>
      let best_points := stableford_hcp_total first in
      let winners :=
        filter (fun rp => stableford_hcp_total rp = best_points) valid_rps in
      let n_valid := len valid_rps in
      let total := float_of_int (n_valid - 1) in
      let total_points_round := if fltb total lit_0 then lit_0 else total in
      let points_per_winner :=
        match winners with
        | [] => lit_0
        | _ => fdiv total_points_round (float_of_int (len winners))
        end in
      Some (winners, points_per_winner)
  end.

(** The body of [for r in rounds]. *)
Definition league_round (db : DB) (st : list (Z * Stats)) (r : Round)
    : list (Z * Stats) :=
  let rps := scored_players db r in
  match rps with
  | [] => st
  | _ =>
      let st1 :=
        fold_left
          (fun st rp =>
             stats_set st (player_id rp)
               (stats_add_round db r (stats_get st (player_id rp)) rp))
          rps st in
      match round_f1 db r with
      | None => st1
      | Some (winners, points_per_winner) =>
          fold_left
            (fun st rp =>
               stats_set st (player_id rp)
                 (stats_add_f1 (stats_get st (player_id rp)) points_per_winner))
            winners st1
      end
  end.

(** [stats] after the loop over the rounds of the league. *)
Definition league_stats (db : DB) (rounds : list Round) : list (Z * Stats) :=
  fold_left (league_round db) rounds [].

(** The rows of the tables. *)
Record MainRow : Type := mkMainRow {
  mr_player : option Player;
  mr_points : float;
  mr_rounds : Z
}.

Record NetRow : Type := mkNetRow {
  nr_player : option Player;
  nr_avg_net : float;
  nr_rounds : Z
}.

Record ScratchRow : Type := mkScratchRow {
  sr_player : option Player;
  sr_total_scratch : Z;
  sr_rounds : Z
}.

Record PlayerRow : Type := mkPlayerRow {
  pr_player : option Player;
  pr_rounds : Z;
  pr_wins : Z;
  pr_ties : Z;
  pr_gross_total : Z;
  pr_net_total : Z;
  pr_stableford_total : Z;
  pr_scratch_total : Z;
  pr_avg_gross : option float;
  pr_level_hcp : option float;
  pr_best_gross : option Z;
  pr_f1_points : float
}.

Definition main_row (s : Stats) : MainRow :=
  mkMainRow (s_player s) (s_f1_points s) (s_rounds s).

(** The net row of a player, for [net_count > 0]. *)
Definition net_row (s : Stats) : py (option NetRow) :=
  if 0 <? s_net_count s then
    avg_net ← int_truediv (s_net_sum s) (s_net_count s);
    Ok (Some (mkNetRow (s_player s) avg_net (s_rounds s)))
  else Ok None.

(** The scratch row of a player, for [scratch_sum > 0]. *)
Definition scratch_row (s : Stats) : option ScratchRow :=
  if 0 <? s_scratch_sum s then
    Some (mkScratchRow (s_player s) (s_scratch_sum s) (s_rounds s))
  else None.

Definition player_row (s : Stats) : py PlayerRow :=
  avg_gross ←
    (if 0 <? s_gross_count s
     then v ← int_truediv (s_gross_sum s) (s_gross_count s); Ok (Some v)
     else Ok None);
  level_hcp ←
    (if 0 <? s_level_hcp_count s
     then v ← float_div_int (s_level_hcp_sum s) (s_level_hcp_count s);
          Ok (Some v)
     else Ok None);
  Ok {| pr_player := s_player s;
        pr_rounds := s_rounds s;
        pr_wins := s_wins s;
        pr_ties := s_ties s;
        pr_gross_total := s_gross_sum s;
        pr_net_total := s_net_sum s;
        pr_stableford_total := s_stableford_sum s;
        pr_scratch_total := s_scratch_sum s;
        pr_avg_gross := avg_gross;
        pr_level_hcp := level_hcp;
        pr_best_gross := s_best_gross s;
        pr_f1_points := s_f1_points s |}.

(** Tuple comparison: the first components that differ under [==] decide,
    with [<]. *)
Definition str_lt (a b : string) : bool :=
  match String_as_OT.compare a b with
  | Lt => true
  | _ => false
  end.

Definition key_fzs_lt (a b : float * Z * string) : bool :=
  let '(f1, z1, s1) := a in
  let '(f2, z2, s2) := b in
  if negb (feqb f1 f2) then fltb f1 f2
  else if negb (z1 =? z2) then z1 <? z2
  else str_lt s1 s2.

Definition key_zzs_lt (a b : Z * Z * string) : bool :=
  let '(x1, z1, s1) := a in
  let '(x2, z2, s2) := b in
  if negb (x1 =? x2) then x1 <? x2
  else if negb (z1 =? z2) then z1 <? z2
  else str_lt s1 s2.

Definition key_fs_lt (a b : float * string) : bool :=
  let '(f1, s1) := a in
  let '(f2, s2) := b in
  if negb (feqb f1 f2) then fltb f1 f2
  else str_lt s1 s2.

(** The sort keys; [row["player"].name] raises when the player is gone. *)
Definition main_key (row : MainRow) : py (float * Z * string) :=
  name ← attr (mr_player row) p_name;
  Ok (fneg (mr_points row), - mr_rounds row, name).

Definition net_key (row : NetRow) : py (float * Z * string) :=
  name ← attr (nr_player row) p_name;
  Ok (nr_avg_net row, - nr_rounds row, name).

Definition scratch_key (row : ScratchRow) : py (Z * Z * string) :=
  name ← attr (sr_player row) p_name;
  Ok (- sr_total_scratch row, - sr_rounds row, name).

Definition player_key (row : PlayerRow) : py (float * string) :=
  name ← attr (pr_player row) p_name;
  Ok (fneg (pr_f1_points row), name).

(** [[p.id for p in champions]] *)
Definition champion_ids (ps : list (option Player)) : py (list Z) :=
  map_py (fun p => attr p p_id) ps.

(** The champions of each table, from its sorted rows. *)
Definition main_champions (main_rows : list MainRow) : list (option Player) :=
  match main_rows with
  | [] => []
  | first :: _ =>
      mr_player <$>
        filter (fun row => feqb (mr_points row) (mr_points first) = true) main_rows
  end.

Definition net_champions (net_rows : list NetRow) : list (option Player) :=
  let eligible_net := filter (fun row => 5 <= nr_rounds row) net_rows in
  match eligible_net with
  | [] => []
  | first :: _ =>
      nr_player <$>
        filter (fun row => feqb (nr_avg_net row) (nr_avg_net first) = true)
          eligible_net
  end.

Definition scratch_champions (scratch_rows : list ScratchRow)
    : list (option Player) :=
  match scratch_rows with
  | [] => []
  | first :: _ =>
      sr_player <$>
        filter (fun row => sr_total_scratch row = sr_total_scratch first)
          scratch_rows
  end.

(** The dict returned by [compute_league_standings]. *)
Record Standings : Type := mkStandings {
  st_main : list MainRow;
  st_net : list NetRow;
  st_scratch : list ScratchRow;
  st_players_table : list PlayerRow;
  champ_main_players : list Z;
  champ_net_players : list Z;
  champ_scratch_players : list Z
}.

(** [getattr(league, "is_closed", False)] as a condition. *)
Definition league_closed (league : League) : bool :=
  py_bool (is_closed league).

Definition compute_league_standings (db : DB) (league : League)
    (rounds : list Round) : py Standings :=
  let stats := league_stats db rounds in
  let entries := snd <$> stats in
  let main_rows := main_row <$> entries in
  net_opts ← map_py net_row entries;
  let net_rows := omap id net_opts in
  let scratch_rows := omap scratch_row entries in
  players_table ← map_py player_row entries;
  main_rows ← sorted_by_key main_key key_fzs_lt main_rows;
  net_rows ← sorted_by_key net_key key_fzs_lt net_rows;
  scratch_rows ← sorted_by_key scratch_key key_zzs_lt scratch_rows;
  players_table ← sorted_by_key player_key key_fs_lt players_table;
  let closed := league_closed league in
  main_ids ← champion_ids (if closed then main_champions main_rows else []);
  net_ids ← champion_ids (if closed then net_champions net_rows else []);
  scratch_ids ←
    champion_ids (if closed then scratch_champions scratch_rows else []);
  Ok {| st_main := main_rows;
        st_net := net_rows;
        st_scratch := scratch_rows;
        st_players_table := players_table;
        champ_main_players := main_ids;
        champ_net_players := net_ids;
        champ_scratch_players := scratch_ids |}.

(* ===================================================================== *)
(** * Orders and aggregates used to state the properties                  *)
(* ===================================================================== *)

(** Lexicographic comparison of pairs. *)
Definition lex {A B : Type} (cmpA : A -> A -> comparison)
    (cmpB : B -> B -> comparison) (x y : A * B) : comparison :=
  match cmpA (fst x) (fst y) with
  | Eq => cmpB (snd x) (snd y)
  | c => c
  end.

(** The [<] of a comparison. *)
Definition lt_of {A : Type} (cmp : A -> A -> comparison) (a b : A) : bool :=
  match cmp a b with
  | Lt => true
  | _ => false
  end.

(** A comparison that is a total preorder. *)
Record cmp_ok {A : Type} (cmp : A -> A -> comparison) : Prop := mk_cmp_ok {
  cmp_antisym : forall a b, cmp b a = CompOpp (cmp a b);
  cmp_lt_trans : forall a b c, cmp a b = Lt -> cmp b c = Lt -> cmp a c = Lt;
  cmp_eq_l : forall a b c, cmp a b = Eq -> cmp a c = cmp b c
}.

(** Floats other than NaN compare like their rank: class, then exponent
    and mantissa (reversed for negative numbers). *)
Definition float_rank (x : float) : Z * Z * Z :=
  match x with
  | S754_infinity true => (0, 0, 0)
  | S754_finite true m e => (1, - e, Zneg m)
  | S754_zero _ => (2, 0, 0)
  | S754_finite false m e => (3, e, Zpos m)
  | S754_infinity false => (4, 0, 0)
  | S754_nan => (5, 0, 0)
  end.

Definition float_cmp (x y : float) : comparison :=
  lex (lex Z.compare Z.compare) Z.compare (float_rank x) (float_rank y).

Definition key_fzs_cmp : float * Z * string -> float * Z * string -> comparison :=
  lex (lex float_cmp Z.compare) String_as_OT.compare.

(** The participations of player [pid] that count in a league: the round
    players with a card, over the rounds of the league. *)
Definition participations (db : DB) (rounds : list Round) (pid : Z)
    : list RoundPlayer :=
  r ← rounds; filter (fun rp => player_id rp = pid) (scored_players db r).

(** Sum of the non-null values of a nullable column. *)
Definition sum_of (col : RoundPlayer -> option Z) (rps : list RoundPlayer) : Z :=
  foldr (fun rp acc => default 0 (col rp) + acc) 0 rps.

(** Number of non-null values of a nullable column. *)
Definition count_of (col : RoundPlayer -> option Z) (rps : list RoundPlayer) : Z :=
  len (filter (fun rp => is_Some (col rp)) rps).

(** Sum of a per-participation contribution. *)
Definition total_of (c : RoundPlayer -> Z) (rps : list RoundPlayer) : Z :=
  foldr (fun rp acc => c rp + acc) 0 rps.

(** The two loops of [league_round] over the round players. *)
Definition base_step (db : DB) (r : Round) (st : list (Z * Stats))
    (rp : RoundPlayer) : list (Z * Stats) :=
  stats_set st (player_id rp)
    (stats_add_round db r (stats_get st (player_id rp)) rp).

Definition f1_step (points : float) (st : list (Z * Stats))
    (rp : RoundPlayer) : list (Z * Stats) :=
  stats_set st (player_id rp)
    (stats_add_f1 (stats_get st (player_id rp)) points).

(** What is known of every entry of [stats]: its player, when loaded, is
    the one of its key. *)
Definition entry_ok (e : Z * Stats) : Prop :=
  forall p, s_player (snd e) = Some p -> p_id p = fst e.

(** An entry of [stats] whose player was loaded. *)
Definition has_player (e : Z * Stats) : Prop := is_Some (s_player (snd e)).

(* ===================================================================== *)
(** * Further code: round players, round summary, deleting a round        *)
(* ===================================================================== *)

(** [sum(c(x) for x in xs)] on ints. *)
Definition sum_over {A : Type} (c : A -> Z) (xs : list A) : Z :=
  foldr (fun x acc => c x + acc) 0 xs.

(** [sum(1 for x in xs if cond(x))]. *)
Definition count_where {A : Type} (cond : A -> bool) (xs : list A) : Z :=
  sum_over (fun x => if cond x then 1 else 0) xs.

(** The row that the card loop stores for hole [h] when the gross score
    and the strokes received of the hole are found. *)
Definition card_row (rp : RoundPlayer) (gross_by_hole : gmap Z Z)
    (putts_by_hole : gmap Z (option Z)) (fir_by_hole : gmap Z (option bool))
    (received : gmap Z Z) (h : Hole) : HoleScore :=
  stored_row rp gross_by_hole putts_by_hole fir_by_hole received h
    (default 0 (gross_by_hole !! number h))
    (default 0 (received !! number h)).

(** [rp.hole_scores] *)
Definition hole_scores_of (db : DB) (rp : RoundPlayer) : list HoleScore :=
  filter (fun hs => hs_round_player_id hs = rp_id rp) (db_hole_scores db).

(** [db.query(RoundPlayer).filter(RoundPlayer.id == rp_id).first()] *)
Definition get_round_player (db : DB) (id : Z) : option RoundPlayer :=
  head (filter (fun rp => rp_id rp = id) (db_round_players db)).

(** ** [app/main.py]: the last steps of [round_card_player_save] *)

(** Steps 3 and 4 of the handler: the card is saved, then the round is
    closed when every round player of the round has a gross total. The
    exception, if any, and the state of the database. The form reading of
    steps 1 and 2 is not part of it: [rp] is the round player after step 1
    and the three dicts are those that step 2 built. *)
Definition save_card_and_close (db : DB) (rid : Z) (rp : RoundPlayer)
    (holes : list Hole) (gross_by_hole : gmap Z Z)
    (putts_by_hole : gmap Z (option Z)) (fir_by_hole : gmap Z (option bool))
    : py unit * DB :=
  match save_card_for_round_player db rp holes gross_by_hole putts_by_hole
          fir_by_hole with
  | (Err e, db1) => (Err e, db1)
  | (Ok _, db1) =>
      let rps := get_round_players db1 rid in
      if forallb (fun x => bool_decide (is_Some (gross_total x))) rps
      then close_round_and_set_winner db1 rid
      else (Ok tt, db1)
  end.

(** ** [app/main.py]: the loop body of [round_summary] *)

(** [par_map = {h.number: h.par for h in course.holes}] *)
Definition par_map (holes : list Hole) : gmap Z Z :=
  fold_left (fun d h => <[number h := par h]> d) holes ∅.

(** [sum(1 for s in scores if cond(s))] where the condition may raise. *)
Definition count_py {A : Type} (cond : A -> py bool) (xs : list A) : py Z :=
  for_each (fun n x => b ← cond x; Ok (incr_if b n)) xs 0.

(** [s.gross_strokes != 1 and test(s.gross_strokes - par_map[s.hole_number])]:
    the dict is read only when the first operand holds. *)
Definition vs_par (pm : gmap Z Z) (test : Z -> bool) (s : HoleScore)
    : py bool :=
  if negb (gross_strokes s =? 1) then
    p ← subscript pm (hole_number s); Ok (test (gross_strokes s - p))
  else Ok false.

(** [(total / possible * 100) if possible > 0 else None]: the quotient of
    the two ints is a float, and the int 100 is converted to multiply. *)
Definition percentage (total possible : Z) : py (option float) :=
  if 0 <? possible then
    q ← int_truediv total possible; Ok (Some (fmul q (float_of_int 100)))
  else Ok None.

(** [(sum(putts_holes) / len(putts_holes)) if putts_holes else None] *)
Definition putts_average (putts_holes : list Z) : py (option float) :=
  match putts_holes with
  | [] => Ok None
  | _ :: _ =>
      q ← int_truediv (sum_over id putts_holes) (len putts_holes);
      Ok (Some q)
  end.

(** [level_hcp]: [None] without a gross total, else
    [((rp.gross_total - course.rating_yellow) * 113) / course.slope_yellow].
    Nothing guards the divisor here: a slope of 0 raises
    [ZeroDivisionError]. *)
Definition level_of_play (rp : RoundPlayer) (rating : float) (slope : Z)
    : py (option float) :=
  match gross_total rp with
  | Some g =>
      l ← float_div_int
            (fmul (fsub (float_of_int g) rating) (float_of_int 113)) slope;
      Ok (Some l)
  | None => Ok None
  end.

(** The dict that [round_summary] appends to [results] for a round player. *)
Record SummaryRow : Type := mkSummaryRow {
  rs_rp_id : Z;
  rs_player : option Player;
  rs_course_handicap : Z;
  rs_gross_total : option Z;
  rs_net_total : option Z;
  rs_points : option Z;
  rs_scratch_points : option Z;
  rs_putts : option Z;
  rs_putts_per_hole : option float;
  rs_level_hcp : option float;
  rs_fir : Z;
  rs_fir_possible : Z;
  rs_fir_pct : option float;
  rs_gir : Z;
  rs_gir_possible : Z;
  rs_gir_pct : option float;
  rs_hio : Z;
  rs_albatros : Z;
  rs_eagles : Z;
  rs_birdies : Z;
  rs_pars : Z;
  rs_bogeys : Z;
  rs_dbl : Z;
  rs_overdbl : Z
}.

(** The body of [for rp in rps] in [round_summary], in the order of the
    source: the fairway and green counters and percentages, the putts per
    hole, the level of play, then the result categories read against the
    par dict. [holes] is [course.holes]; [rating] and [slope] are
    [course.rating_yellow] and [course.slope_yellow], two columns that are
    not nullable. The row appended to [results], or the exception. *)
Definition round_summary_row (db : DB) (holes : list Hole) (rating : float)
    (slope : Z) (rp : RoundPlayer) : py SummaryRow :=
  let pm := par_map holes in
  let scores := hole_scores_of db rp in
  let fir_total := count_where (fun s => bool_decide (fir s = Some true)) scores in
  let fir_possible := count_where (fun s => bool_decide (fir s <> None)) scores in
  fir_pct ← percentage fir_total fir_possible;
  let gir_total := count_where (fun s => bool_decide (gir s = Some true)) scores in
  let gir_possible := count_where (fun s => bool_decide (gir s <> None)) scores in
  gir_pct ← percentage gir_total gir_possible;
  putts_per_hole ← putts_average (omap putts scores);
  level_hcp ← level_of_play rp rating slope;
  let hio := count_where (fun s => gross_strokes s =? 1) scores in
  albatros ← count_py (vs_par pm (fun d => d <=? -3)) scores;
  eagles ← count_py (vs_par pm (fun d => d =? -2)) scores;
  birdies ← count_py (vs_par pm (fun d => d =? -1)) scores;
  pars ← count_py (vs_par pm (fun d => d =? 0)) scores;
  bogeys ← count_py (vs_par pm (fun d => d =? 1)) scores;
  dbl ← count_py (vs_par pm (fun d => d =? 2)) scores;
  overdbl ← count_py (vs_par pm (fun d => 3 <=? d)) scores;
  Ok {| rs_rp_id := rp_id rp;
        rs_player := player_of db rp;
        rs_course_handicap := rp_course_handicap rp;
        rs_gross_total := gross_total rp;
        rs_net_total := net_total rp;
        rs_points := stableford_hcp_total rp;
        rs_scratch_points := stableford_scratch_total rp;
        rs_putts := putts_total rp;
        rs_putts_per_hole := putts_per_hole;
        rs_level_hcp := level_hcp;
        rs_fir := fir_total;
        rs_fir_possible := fir_possible;
        rs_fir_pct := fir_pct;
        rs_gir := gir_total;
        rs_gir_possible := gir_possible;
        rs_gir_pct := gir_pct;
        rs_hio := hio;
        rs_albatros := albatros;
        rs_eagles := eagles;
        rs_birdies := birdies;
        rs_pars := pars;
        rs_bogeys := bogeys;
        rs_dbl := dbl;
        rs_overdbl := overdbl |}.

(** ** [app/crud.py]: deleting a round *)

(** [delete_round]: nothing when the round is not found; else the round
    players of the round are deleted, their hole scores with them by the
    cascade of [RoundPlayer.hole_scores], then the round, all by primary
    key. *)
Definition delete_round (db : DB) (rid : Z) : DB :=
  match get_round db rid with
  | None => db
  | Some r =>
      let ids := rp_id <$> round_players_of db r in
      {| db_players := db_players db;
         db_courses := db_courses db;
         db_rounds := filter (fun x => r_id x <> r_id r) (db_rounds db);
         db_round_players :=
           filter (fun x => rp_id x ∉ ids) (db_round_players db);
         db_hole_scores :=
           filter (fun hs => hs_round_player_id hs ∉ ids) (db_hole_scores db) |}
  end.

(** ** Orders used to state the properties of the tables *)

Definition key_zzs_cmp : Z * Z * string -> Z * Z * string -> comparison :=
  lex (lex Z.compare Z.compare) String_as_OT.compare.

(** A float that is neither NaN nor below zero. *)
Definition fnonneg (x : float) : Prop :=
  is_nan x = false /\ fltb x lit_0 = false.

(* ===================================================================== *)
(** * The tables of the specification and sample data                     *)
(* ===================================================================== *)

(** The Stableford table as the specification words it: 3 points at par. *)
Definition spec_stableford_table (diff : Z) : Z :=
  if diff <=? -3 then 6
  else if diff =? -2 then 5
  else if diff =? -1 then 4
  else if diff =? 0 then 3
  else if diff =? 1 then 2
  else if diff =? 2 then 1
  else 0.

(** Rounding to the nearest integer with ties upwards, as the specification
    words the course handicap. *)
Definition spec_round_half_up (q : Q) : Z := Qfloor (q + (1 # 2))%Q.

(** A round with two players, no card saved yet. *)
Definition sample_rp1 : RoundPlayer :=
  mkRoundPlayer 1 1 10 (S754_zero false) 15 None None None None None None.
Definition sample_rp2 : RoundPlayer :=
  mkRoundPlayer 2 1 11 (S754_zero false) 20 None None None None None None.
Definition sample_db : DB :=
  mkDB [] [] [mkRound 1 1 None None None] [sample_rp1; sample_rp2] [].

(** Five strokes on every hole; putts recorded on the first hole only; the
    fairway flag recorded on the first and third hole only. *)
Definition sample_gross : gmap Z Z :=
  list_to_map ((fun n => (n, 5)) <$> seqZ 1 18).
Definition sample_putts : gmap Z (option Z) :=
  <[1 := Some 2]> (<[2 := None]> ∅).
Definition sample_fir : gmap Z (option bool) :=
  <[1 := Some true]> (<[3 := Some false]> ∅).

(** Saving the card of the first player with these inputs. *)
Definition sample_save : py CardSummary * DB :=
  save_card_for_round_player sample_db sample_rp1 sample_holes
    sample_gross sample_putts sample_fir.

(** A round player of round 1 whose card is saved, with the given
    handicap-Stableford total. *)
Definition scored_rp (id pid total : Z) : RoundPlayer :=
  mkRoundPlayer id 1 pid (S754_zero false) 0
    (Some 90) (Some 80) (Some total) (Some 20) (Some 30) None.

Definition sample_round : Round := mkRound 1 1 None None None.

(** Totals 10, 15, 15, 8: two players tied at the top. *)
Definition tie_db : DB :=
  mkDB [] [] [sample_round]
    [scored_rp 1 11 10; scored_rp 2 12 15; scored_rp 3 13 15; scored_rp 4 14 8]
    [].

(** Totals 10, 15, 8: a single best score. *)
Definition single_db : DB :=
  mkDB [] [] [sample_round]
    [scored_rp 1 11 10; scored_rp 2 12 15; scored_rp 3 13 8] [].

(** The floats 0.5 and 14.3, as the literals denote them. *)
Definition lit_0_5 : float :=
  Eval vm_compute in fdiv (exact_of_int 1) (exact_of_int 2).
Definition lit_14_3 : float :=
  Eval vm_compute in fdiv (exact_of_int 143) (exact_of_int 10).

(** The floats 14.5 and 15.5: handicap indexes that fall on a tie on a
    course of slope 113. *)
Definition lit_14_5 : float :=
  Eval vm_compute in fdiv (exact_of_int 29) (exact_of_int 2).
Definition lit_15_5 : float :=
  Eval vm_compute in fdiv (exact_of_int 31) (exact_of_int 2).

(** Totals 10, 15, 12, 8: four scored players, a single best score. *)
Definition single4_db : DB :=
  mkDB [] [] [sample_round]
    [scored_rp 1 11 10; scored_rp 2 12 15; scored_rp 3 13 12; scored_rp 4 14 8]
    [].

(** The floats 3.0 and 1.5. *)
Definition lit_3 : float := Eval vm_compute in float_of_int 3.
Definition lit_1_5 : float :=
  Eval vm_compute in fdiv (exact_of_int 3) (exact_of_int 2).

(** A closed league of five rounds. Ana and Bea play all five (net 70 and
    72 each time, Ana never scoring a scratch point); Carl plays the first
    four with net 65. *)
Definition league_rp (id rid pid net hcp scratch : Z) : RoundPlayer :=
  mkRoundPlayer id rid pid (S754_zero false) 10
    (Some (net + 10)) (Some net) (Some hcp) (Some scratch) (Some 30) None.

Definition league_db : DB :=
  mkDB
    [mkPlayer 11 "Ana" (S754_zero false); mkPlayer 12 "Bea" (S754_zero false);
     mkPlayer 13 "Carl" (S754_zero false)]
    [mkCourse 1 "Links" 72 120 (Some (float_of_int 71))]
    ((fun k => mkRound k 1 (Some 1) None None) <$> seqZ 1 5)
    [league_rp 1 1 11 70 34 0; league_rp 2 1 12 72 32 10; league_rp 3 1 13 65 38 12;
     league_rp 4 2 11 70 34 0; league_rp 5 2 12 72 32 10; league_rp 6 2 13 65 38 12;
     league_rp 7 3 11 70 34 0; league_rp 8 3 12 72 32 10; league_rp 9 3 13 65 38 12;
     league_rp 10 4 11 70 34 0; league_rp 11 4 12 72 32 10; league_rp 12 4 13 65 38 12;
     league_rp 13 5 11 70 34 0; league_rp 14 5 12 72 34 10]
    [].

Definition sample_league : League := mkLeague 1 "Liga" (Some true).

Definition empty_standings : Standings := mkStandings [] [] [] [] [] [] [].

Definition standings_or_empty (s : py Standings) : Standings :=
  match s with
  | Ok st => st
  | Err _ => empty_standings
  end.

(** The standings of the league. *)
Definition sample_standings : Standings :=
  standings_or_empty
    (compute_league_standings league_db sample_league (db_rounds league_db)).

(** The summary and the database after saving the sample card, and the
    row of the first round player in it. *)
Definition card_or_empty (res : py CardSummary * DB) : CardSummary :=
  match fst res with
  | Ok s => s
  | Err _ => card_summary card_acc_init
  end.

Definition sample_summary : CardSummary := card_or_empty sample_save.

Definition played_db : DB := snd sample_save.

Definition played_rp1 : RoundPlayer :=
  default sample_rp1 (get_round_player played_db 1).

(** A round player left behind without its round. *)
Definition orphan_db : DB := mkDB [] [] [] [scored_rp 1 11 10] [].

(** The tie of [tie_db] once the round is closed. *)
Definition closed_tie_db : DB := snd (close_round_and_set_winner tie_db 1).

(** The league of [league_db] while it is still open. *)
Definition open_league : League := mkLeague 1 "Liga" None.

Definition open_standings : Standings :=
  standings_or_empty
    (compute_league_standings league_db open_league (db_rounds league_db)).

(** The first row of the players table of the sample league. *)
Definition sample_player_row : PlayerRow :=
  default (mkPlayerRow None 0 0 0 0 0 0 0 None None None lit_0)
    (head (st_players_table sample_standings)).

(** The float 72.0, the default course rating. *)
Definition lit_72 : float := Eval vm_compute in float_of_int 72.

(** The value returned, if any. *)
Definition to_option {A : Type} (r : py A) : option A :=
  match r with
  | Ok a => Some a
  | Err _ => None
  end.

(* ===================================================================== *)
(** * Properties                                                          *)
(* ===================================================================== *)

(** ** The error monad *)

Lemma bind_Ok {A B : Type} (m : py A) (k : A -> py B) (b : B) :
  m ≫= k = Ok b -> exists a, m = Ok a /\ k a = Ok b.
Proof. destruct m as [a|e]; simpl; [eauto | discriminate]. Qed.

Lemma for_each_cons {A S : Type} (body : S -> A -> py S) (x : A) (xs : list A) (s : S) :
  for_each body (x :: xs) s = body s x ≫= for_each body xs.
Proof. reflexivity. Qed.

Lemma for_each_app {A S : Type} (body : S -> A -> py S) (xs ys : list A) (s : S) :
  for_each body (xs ++ ys) s = for_each body xs s ≫= for_each body ys.
Proof.
  revert s. induction xs as [|x xs IH]; intros s; simpl; [done|].
  destruct (body s x) as [s'|e]; simpl; [apply IH | done].
Qed.

(** ** [sorted] returns an ordered permutation of its input *)

Section sorted_facts.
Context {A : Type} (lt : A -> A -> bool).

Lemma sorted_insert_perm (x : A) (l : list A) : sorted_insert lt x l ≡ₚ x :: l.
Proof.
  induction l as [|y l IH]; simpl; [done|].
  destruct (lt x y); [done|]. rewrite IH. apply Permutation_swap.
Qed.

Lemma fold_insert_perm (l acc : list A) :
  fold_left (fun acc x => sorted_insert lt x acc) l acc ≡ₚ acc ++ l.
Proof.
  revert acc. induction l as [|x l IH]; intros acc; simpl.
  - by rewrite app_nil_r.
  - rewrite IH, sorted_insert_perm. apply Permutation_middle.
Qed.

Lemma sorted_perm (l : list A) : sorted lt l ≡ₚ l.
Proof. unfold sorted. by rewrite fold_insert_perm. Qed.

Hypothesis lt_asym : forall a b, lt a b = true -> lt b a = false.
Hypothesis le_trans : forall a b c, le_of lt a b -> le_of lt b c -> le_of lt a c.

Lemma sorted_insert_sorted (x : A) (l : list A) :
  StronglySorted (le_of lt) l -> StronglySorted (le_of lt) (sorted_insert lt x l).
Proof.
  induction 1 as [|y l Hl IH Hy]; simpl.
  - repeat constructor.
  - destruct (lt x y) eqn:Hxy.
    + constructor; [by constructor|].
      constructor; [by apply lt_asym|].
      eapply Forall_impl; [exact Hy|]. intros z Hz.
      eapply le_trans; [|exact Hz]. by apply lt_asym.
    + constructor; [done|].
      rewrite sorted_insert_perm. by constructor.
Qed.

Lemma fold_insert_sorted (l acc : list A) :
  StronglySorted (le_of lt) acc ->
  StronglySorted (le_of lt)
    (fold_left (fun acc x => sorted_insert lt x acc) l acc).
Proof.
  revert acc. induction l as [|x l IH]; intros acc Hacc; simpl; [done|].
  by apply IH, sorted_insert_sorted.
Qed.

Lemma sorted_sorted (l : list A) : StronglySorted (le_of lt) (sorted lt l).
Proof. apply fold_insert_sorted. constructor. Qed.
End sorted_facts.

(** ** Stableford points *)

Lemma stableford_points_clamp (s p : Z) :
  stableford_points s p = Z.max 0 (Z.min 6 (2 - (s - p))).
Proof.
  unfold stableford_points.
  repeat (case_match; [lia|]); lia.
Qed.

Lemma stableford_points_antitone (s p s' p' : Z) :
  s - p <= s' - p' -> stableford_points s' p' <= stableford_points s p.
Proof. rewrite !stableford_points_clamp. lia. Qed.

(** ** Strokes received per hole *)

Lemma ordered_perm (holes : list Hole) : sorted by_stroke_index holes ≡ₚ holes.
Proof. apply sorted_perm. Qed.

Lemma StronglySorted_weaken {A : Type} (R R' : relation A) (l : list A) :
  (forall a b, R a b -> R' a b) -> StronglySorted R l -> StronglySorted R' l.
Proof.
  intros HR. induction 1 as [|x l Hl IH Hx]; constructor; [done|].
  eapply Forall_impl; eauto.
Qed.

Lemma ordered_sorted (holes : list Hole) :
  StronglySorted (fun a b => stroke_index a <= stroke_index b)
    (sorted by_stroke_index holes).
Proof.
  eapply StronglySorted_weaken; [|apply sorted_sorted].
  - unfold le_of, by_stroke_index. intros a b H. lia.
  - unfold by_stroke_index. intros a b H. lia.
  - unfold le_of, by_stroke_index. intros a b c H1 H2. lia.
Qed.

Lemma seqZ_sorted (m n : Z) : StronglySorted Z.le (seqZ m n).
Proof.
  destruct (decide (0 <= n)) as [Hn|Hn]; [|rewrite seqZ_nil by lia; constructor].
  rewrite <- (Z2Nat.id n) by done. generalize (Z.to_nat n) as k. clear.
  intros k. revert m. induction k as [|k IH]; intros m.
  - rewrite seqZ_nil by lia. constructor.
  - rewrite seqZ_cons by lia. constructor.
    + replace (Z.pred (Z.of_nat (S k))) with (Z.of_nat k) by lia. apply IH.
    + apply Forall_forall. intros x Hx. apply elem_of_seqZ in Hx. lia.
Qed.

(** With a valid stroke-index permutation the hole in position [i] of the
    sorted list is the one with stroke index [i + 1]. *)
Lemma ordered_stroke_index (holes : list Hole) :
  stroke_index <$> holes ≡ₚ seqZ 1 18 ->
  stroke_index <$> sorted by_stroke_index holes = seqZ 1 18.
Proof.
  intros Hperm.
  apply (StronglySorted_unique Z.le).
  - eapply StronglySorted_fmap; [|apply ordered_sorted]. done.
  - apply seqZ_sorted.
  - by rewrite (ordered_perm holes).
Qed.

Lemma received_init_fold_lookup (base : Z) (holes : list Hole) (d : gmap Z Z) (n : Z) :
  fold_left (fun d h => <[number h := base]> d) holes d !! n =
  if decide (n ∈ number <$> holes) then Some base else d !! n.
Proof.
  revert d. induction holes as [|h holes IH]; intros d.
  - reflexivity.
  - rewrite fmap_cons. simpl. rewrite IH. 
    destruct (decide (n = number h)) as [->|Hne].
    + rewrite lookup_insert_eq. rewrite (decide_True (P := _ ∈ _ :: _)) by set_solver.
      by case_decide.
    + rewrite lookup_insert_ne by done.
      destruct (decide (n ∈ number <$> holes)) as [Hin|Hin].
      * by rewrite decide_True by (by right).
      * rewrite decide_False; [done|].
        by intros [?|?]%elem_of_cons.
Qed.

Lemma received_init_lookup (base : Z) (holes : list Hole) (n : Z) :
  received_init base holes !! n =
  if decide (n ∈ number <$> holes) then Some base else None.
Proof. unfold received_init. by rewrite received_init_fold_lookup, lookup_empty. Qed.

Lemma sum_values_insert_fresh (d : gmap Z Z) (k v : Z) :
  d !! k = None -> sum_values (<[k := v]> d) = v + sum_values d.
Proof.
  intros Hk. unfold sum_values.
  rewrite map_fold_insert_L; [done| |done]. intros; lia.
Qed.

Lemma sum_values_insert (d : gmap Z Z) (k v v' : Z) :
  d !! k = Some v -> sum_values (<[k := v']> d) = sum_values d - v + v'.
Proof.
  intros Hk.
  rewrite <- insert_delete_eq, sum_values_insert_fresh by apply lookup_delete_eq.
  unfold sum_values at 2.
  rewrite (map_fold_delete_L _ _ k v d); [|intros; lia|done].
  fold (sum_values (delete k d)). lia.
Qed.

Lemma sum_values_init_fold (base : Z) (holes : list Hole) (d : gmap Z Z) :
  NoDup (number <$> holes) ->
  (forall h, h ∈ holes -> d !! number h = None) ->
  sum_values (fold_left (fun d h => <[number h := base]> d) holes d) =
  sum_values d + base * len holes.
Proof.
  unfold len. revert d. induction holes as [|h holes IH]; intros d Hnd Hd; csimpl.
  - lia.
  - apply NoDup_cons in Hnd as [Hh Hnd].
    rewrite IH; [|done|].
    + rewrite sum_values_insert_fresh by (apply Hd; left). lia.
    + intros h' Hh'. rewrite lookup_insert_ne; [apply Hd; by right|].
      intros Heq. apply Hh. rewrite Heq. by apply list_elem_of_fmap_2.
Qed.

Lemma sum_values_init (base : Z) (holes : list Hole) :
  NoDup (number <$> holes) ->
  sum_values (received_init base holes) = base * len holes.
Proof.
  intros Hnd. unfold received_init.
  rewrite sum_values_init_fold; [|done|by intros; apply lookup_empty].
  unfold sum_values. by rewrite map_fold_empty.
Qed.

(** After [k] iterations of the loop the first [k] holes of [ordered] have
    one stroke more and the sum has grown by [k]. *)
Lemma bump_loop (ordered : list Hole) (received : gmap Z Z) (k : nat) :
  (k <= length ordered)%nat ->
  NoDup (number <$> ordered) ->
  (forall h, h ∈ ordered -> is_Some (received !! number h)) ->
  exists r,
    for_each (received_bump ordered) (seq 0 k) received = Ok r /\
    (forall n, r !! n =
       if decide (n ∈ number <$> take k ordered)
       then (fun v => v + 1) <$> received !! n else received !! n) /\
    sum_values r = sum_values received + Z.of_nat k.
Proof.
  intros Hk Hnd Hdom. induction k as [|k IH].
  - exists received. split; [done|]. split; [|lia].
    intros n. rewrite take_0. case_decide as Hn; [by apply elem_of_nil in Hn|done].
  - destruct IH as (r & Hr & Hlook & Hsum); [lia|].
    destruct (lookup_lt_is_Some_2 ordered k) as [h Hh]; [lia|].
    assert (Hfresh : number h ∉ number <$> take k ordered).
    { intros Hin. apply list_elem_of_fmap in Hin as (h' & Heq & Hin').
      apply list_elem_of_lookup in Hin' as [j Hj].
      apply lookup_take_Some in Hj as [Hj Hjk].
      assert (j = k); [|lia].
      eapply (NoDup_lookup _ j k (number h) Hnd); rewrite list_lookup_fmap.
      - by rewrite Hj, Heq.
      - by rewrite Hh. }
    destruct (Hdom h) as [v Hv]; [by eapply list_elem_of_lookup_2|].
    assert (Hrv : r !! number h = Some v).
    { rewrite Hlook. by case_decide. }
    exists (<[number h := v + 1]> r). split; [|split].
    + rewrite seq_S, for_each_app, Hr. simpl.
      unfold received_bump, index, subscript. simpl. rewrite Hh. simpl.
      by rewrite Hrv.
    + intros n. rewrite (take_S_r _ _ h Hh), fmap_app. simpl.
      destruct (decide (n = number h)) as [->|Hne].
      * rewrite lookup_insert_eq, Hv. case_decide as Hn; [done|].
        exfalso. apply Hn. rewrite elem_of_app, list_elem_of_singleton. tauto.
      * rewrite lookup_insert_ne by done. rewrite Hlook.
        destruct (decide (n ∈ number <$> take k ordered)) as [Hin|Hin].
        -- rewrite decide_True; [done|]. rewrite elem_of_app. tauto.
        -- rewrite decide_False; [done|].
           rewrite elem_of_app, list_elem_of_singleton. tauto.
    + rewrite (sum_values_insert _ _ v) by done. lia.
Qed.

(** C2, success and shape of the result. *)
Lemma strokes_received_ok (ch : Z) (holes : list Hole) :
  0 <= ch ->
  stroke_index <$> holes ≡ₚ seqZ 1 18 ->
  NoDup (number <$> holes) ->
  exists received,
    strokes_received_per_hole ch holes = Ok received /\
    (forall h, h ∈ holes ->
       received !! number h =
       Some (ch / 18 + if decide (stroke_index h <= ch mod 18) then 1 else 0)) /\
    (forall n, n ∉ number <$> holes -> received !! n = None) /\
    sum_values received = ch.
Proof.
  intros Hch Hperm Hnd.
  pose proof (ordered_perm holes) as Hord.
  pose proof (ordered_stroke_index holes Hperm) as Hsi.
  set (ordered := sorted by_stroke_index holes) in *.
  assert (Hlen : length ordered = 18%nat).
  { rewrite <- (length_fmap stroke_index), Hsi, length_seqZ. done. }
  assert (Hlenh : length holes = 18%nat) by (by rewrite <- Hord).
  assert (Hmod : 0 <= ch mod 18 < 18) by (apply Z.mod_pos_bound; lia).
  destruct (bump_loop ordered (received_init (ch / 18) holes)
              (Z.to_nat (ch mod 18))) as (r & Hr & Hlook & Hsum).
  - lia.
  - by rewrite Hord.
  - intros h Hh. rewrite received_init_lookup.
    rewrite decide_True; [done|]. apply list_elem_of_fmap_2. by rewrite <- Hord.
  - exists r. split; [exact Hr|]. split; [|split].
    + intros h Hh. rewrite Hlook, received_init_lookup.
      rewrite (decide_True (P := number h ∈ number <$> holes))
        by (by apply list_elem_of_fmap_2).
      assert (Hho : h ∈ ordered) by (by rewrite Hord).
      apply list_elem_of_lookup in Hho as [i Hi].
      assert (Hsih : stroke_index h = 1 + Z.of_nat i).
      { assert (Hl : (stroke_index <$> ordered) !! i = Some (stroke_index h))
          by (by rewrite list_lookup_fmap, Hi).
        rewrite Hsi in Hl. by apply lookup_seqZ in Hl as [-> _]. }
      repeat case_decide; simpl; try (f_equal; lia); exfalso.
      * match goal with H : number h ∈ _ |- _ =>
          apply list_elem_of_fmap in H as (h' & Heq & Hin') end.
        apply list_elem_of_lookup in Hin' as [j Hj].
        apply lookup_take_Some in Hj as [Hj Hjk].
        assert (j = i); [|lia].
        eapply (NoDup_lookup (number <$> ordered) j i (number h));
          [by rewrite Hord| |]; rewrite list_lookup_fmap.
        -- by rewrite Hj, Heq.
        -- by rewrite Hi.
      * match goal with H : number h ∉ _ |- _ => apply H end.
        apply list_elem_of_fmap_2. apply list_elem_of_lookup. exists i.
        apply lookup_take_Some. split; [done|lia].
    + intros n Hn. rewrite Hlook, received_init_lookup.
      rewrite (decide_False (P := n ∈ number <$> holes)) by done.
      by case_decide.
    + rewrite Hsum, sum_values_init by done. unfold len. rewrite Hlenh.
      rewrite Z2Nat.id by lia.
      pose proof (Z.div_mod ch 18). lia.
Qed.

Lemma count_low_seqZ (e : Z) :
  0 <= e < 18 -> length (filter (fun x => x <= e) (seqZ 1 18)) = Z.to_nat e.
Proof.
  intros He.
  assert (H : exists k : nat, (k < 18)%nat /\ e = Z.of_nat k)
    by (exists (Z.to_nat e); lia).
  destruct H as (k & Hk & ->).
  do 18 (destruct k as [|k]; [vm_compute; reflexivity|]). lia.
Qed.

Lemma length_filter_fmap_ext {A B : Type} (f : A -> B)
    (P : B -> Prop) (Q : A -> Prop)
    `{forall x, Decision (P x)} `{forall x, Decision (Q x)} (l : list A) :
  (forall x, x ∈ l -> P (f x) <-> Q x) ->
  length (filter P (f <$> l)) = length (filter Q l).
Proof.
  induction l as [|x l IH]; intros HPQ; [done|].
  rewrite fmap_cons, !filter_cons.
  assert (Hx : P (f x) <-> Q x) by (apply HPQ; left).
  assert (Hl : length (filter P (f <$> l)) = length (filter Q l))
    by (apply IH; intros y Hy; apply HPQ; by right).
  repeat case_decide; simpl; try tauto; by rewrite Hl.
Qed.

(** C2. For a course handicap [ch >= 0] and 18 holes whose stroke indexes
    are a permutation of 1..18 (hole numbers being distinct, as the result is
    keyed by hole number), [strokes_received_per_hole] returns a dict that
    gives every hole [ch // 18] strokes plus one more stroke on exactly the
    [ch % 18] holes of lowest stroke index (those with stroke index at most
    [ch % 18]), has no other keys, and whose values sum to [ch]. *)
Theorem strokes_received_distribution (ch : Z) (holes : list Hole) :
  0 <= ch ->
  stroke_index <$> holes ≡ₚ seqZ 1 18 ->
  NoDup (number <$> holes) ->
  exists received,
    strokes_received_per_hole ch holes = Ok received /\
    (forall h, h ∈ holes ->
       received !! number h =
       Some (ch / 18 + if decide (stroke_index h <= ch mod 18) then 1 else 0)) /\
    length (filter (fun h => received !! number h = Some (ch / 18 + 1)) holes)
      = Z.to_nat (ch mod 18) /\
    (forall n, n ∉ number <$> holes -> received !! n = None) /\
    sum_values received = ch.
Proof.
  intros Hch Hperm Hnd.
  destruct (strokes_received_ok ch holes Hch Hperm Hnd)
    as (received & Hrun & Hlook & Hdom & Hsum).
  exists received. repeat split; try done.
  assert (Hmod : 0 <= ch mod 18 < 18) by (apply Z.mod_pos_bound; lia).
  rewrite <- (count_low_seqZ (ch mod 18) Hmod), <- Hperm.
  symmetry. apply length_filter_fmap_ext.
  intros h Hh. rewrite (Hlook h Hh).
  case_decide; split; intros H'; try done; try lia.
  injection H'. lia.
Qed.

Lemma strokes_received_distribution_witness :
  exists received,
    strokes_received_per_hole 15 sample_holes = Ok received /\
    (forall h, h ∈ sample_holes ->
       received !! number h =
       Some (15 / 18 + if decide (stroke_index h <= 15 mod 18) then 1 else 0)) /\
    length (filter (fun h => received !! number h = Some (15 / 18 + 1)) sample_holes)
      = Z.to_nat (15 mod 18) /\
    (forall n, n ∉ number <$> sample_holes -> received !! n = None) /\
    sum_values received = 15.
Proof.
  apply (strokes_received_distribution 15 sample_holes).
  - lia.
  - apply (bool_decide_unpack _). vm_compute. reflexivity.
  - apply (bool_decide_unpack _). vm_compute. reflexivity.
Defined.

(** ** Saving a card *)

(** What one pass of the card loop stores for hole [h]. *)
Lemma card_hole_row rp received gb pb fb acc h acc' :
  card_hole rp received gb pb fb acc h = Ok acc' ->
  exists g r,
    gb !! number h = Some g /\ received !! number h = Some r /\
    a_added acc' = a_added acc ++ [stored_row rp gb pb fb received h g r] /\
    a_points_total acc' = a_points_total acc + stableford_points (g - r) (par h) /\
    a_scratch_points_total acc' =
      a_scratch_points_total acc + stableford_points g (par h).
Proof.
  unfold card_hole, subscript. intros H.
  destruct (gb !! number h) as [g|]; [|discriminate].
  destruct (received !! number h) as [r|]; [|discriminate].
  simpl in H. injection H as <-. exists g, r. by repeat split.
Qed.

Lemma card_loop_rows rp received gb pb fb holes acc acc' :
  for_each (card_hole rp received gb pb fb) holes acc = Ok acc' ->
  exists rows,
    a_added acc' = a_added acc ++ rows /\
    Forall2 (fun h hs => exists g r,
               gb !! number h = Some g /\ received !! number h = Some r /\
               hs = stored_row rp gb pb fb received h g r) holes rows.
Proof.
  revert acc. induction holes as [|h holes IH]; intros acc H; simpl in H.
  - injection H as <-. exists []. split; [by rewrite app_nil_r | constructor].
  - apply bind_Ok in H as (acc1 & H1 & H2).
    apply card_hole_row in H1 as (g & r & Hg & Hr & Hrow & _).
    apply IH in H2 as (rows & Hrows & Hall).
    exists (stored_row rp gb pb fb received h g r :: rows). split.
    + by rewrite Hrows, Hrow, <- app_assoc.
    + constructor; [|done]. by exists g, r.
Qed.

(** A successful save leaves, after the rows of the other round players,
    one row per hole, in hole order. *)
Lemma save_card_rows db rp holes gb pb fb summary db' :
  save_card_for_round_player db rp holes gb pb fb = (Ok summary, db') ->
  exists received rows,
    strokes_received_per_hole (rp_course_handicap rp) holes = Ok received /\
    db_hole_scores db' =
      filter (fun hs => hs_round_player_id hs <> rp_id rp) (db_hole_scores db)
      ++ rows /\
    Forall2 (fun h hs => exists g r,
               gb !! number h = Some g /\ received !! number h = Some r /\
               hs = stored_row rp gb pb fb received h g r) holes rows.
Proof.
  unfold save_card_for_round_player. intros H.
  destruct (strokes_received_per_hole (rp_course_handicap rp) holes)
    as [received|e] eqn:Hrec; simpl in H; [|discriminate].
  destruct (for_each _ holes card_acc_init) as [acc|e] eqn:Hloop;
    [|discriminate].
  destruct (card_fits acc); [|discriminate].
  injection H as _ <-.
  apply card_loop_rows in Hloop as (rows & Hrows & Hall).
  exists received, rows. split; [done|]. split; [|done].
  simpl. by rewrite Hrows.
Qed.

(** The loop cannot raise when every hole has a gross score and an entry
    in the strokes-received dict. *)
Lemma card_loop_ok rp received gb pb fb holes acc :
  (forall h, h ∈ holes -> is_Some (gb !! number h)) ->
  (forall h, h ∈ holes -> is_Some (received !! number h)) ->
  exists acc', for_each (card_hole rp received gb pb fb) holes acc = Ok acc'.
Proof.
  revert acc. induction holes as [|h holes IH]; intros acc Hg Hr.
  - by eexists.
  - destruct (Hg h) as [g Hgh]; [left|]. destruct (Hr h) as [r Hrh]; [left|].
    assert (exists acc1, card_hole rp received gb pb fb acc h = Ok acc1)
      as [acc1 H1].
    { unfold card_hole, subscript. rewrite Hgh, Hrh. by eexists. }
    rewrite for_each_cons, H1. simpl.
    apply IH; intros h' Hh'; [apply Hg | apply Hr]; by right.
Qed.

(** A card for a well-formed course, with a gross score on every hole,
    reaches the final commit: the save returns when every value fits its
    column and raises [OverflowError] when one does not. *)
Lemma save_card_succeeds db rp holes gb pb fb :
  0 <= rp_course_handicap rp ->
  stroke_index <$> holes ≡ₚ seqZ 1 18 ->
  NoDup (number <$> holes) ->
  (forall h, h ∈ holes -> is_Some (gb !! number h)) ->
  exists received acc,
    strokes_received_per_hole (rp_course_handicap rp) holes = Ok received /\
    for_each (card_hole rp received gb pb fb) holes card_acc_init = Ok acc /\
    save_card_for_round_player db rp holes gb pb fb =
      if card_fits acc
      then (Ok (card_summary acc), commit_card (delete_card db rp) rp acc)
      else (Err OverflowError, delete_card db rp).
Proof.
  intros Hch Hperm Hnd Hg.
  destruct (strokes_received_ok _ holes Hch Hperm Hnd)
    as (received & Hrec & Hlook & _).
  destruct (card_loop_ok rp received gb pb fb holes card_acc_init Hg)
    as [acc Hacc].
  { intros h Hh. rewrite (Hlook h Hh). by eexists. }
  exists received, acc. split; [done|]. split; [done|].
  unfold save_card_for_round_player. rewrite Hrec. simpl. by rewrite Hacc.
Qed.

(** ** The stored fairway and green flags *)

Lemma fir_fold_other (form : gmap string string) (holes : list Hole)
    (d : gmap Z (option bool)) (n : Z) :
  n ∉ number <$> holes ->
  fold_left
    (fun d h =>
       let fir_val := form !! ("fir_" ++ py_str (number h))%string in
       if par h <=? 3 then <[number h := None]> d
       else <[number h := Some (bool_decide (is_Some fir_val))]> d)
    holes d !! n = d !! n.
Proof.
  revert d. induction holes as [|h holes IH]; intros d Hn; [done|].
  rewrite fmap_cons in Hn. apply not_elem_of_cons in Hn as [Hne Hn].
  simpl. rewrite IH by done.
  destruct (par h <=? 3); by rewrite lookup_insert_ne.
Qed.

(** What [round_card_player_save] puts in [fir_by_hole] for a hole. *)
Lemma round_card_fir_lookup (form : gmap string string) (holes : list Hole) (h : Hole) :
  NoDup (number <$> holes) -> h ∈ holes ->
  round_card_fir_by_hole form holes !! number h =
  Some (if par h <=? 3 then None
        else Some (bool_decide (is_Some (form !! ("fir_" ++ py_str (number h))%string)))).
Proof.
  unfold round_card_fir_by_hole. generalize (∅ : gmap Z (option bool)).
  induction holes as [|h0 holes IH]; intros d Hnd Hh.
  - by apply elem_of_nil in Hh.
  - rewrite fmap_cons in Hnd. apply NoDup_cons in Hnd as [Hh0 Hnd].
    apply elem_of_cons in Hh as [->|Hh]; simpl.
    + rewrite fir_fold_other by done.
      destruct (par h0 <=? 3); by rewrite lookup_insert_eq.
    + by apply IH.
Qed.

(** C7 (amended). On every hole of a saved card the stored FIR is null on
    a par 3; on any other hole it is never null: it is [false] when the
    fairway flag is absent from the input (or recorded as null) and it
    carries the recorded boolean otherwise. When the input dict is the one
    built from the card form, a hole of par above 3 stores whether the
    checkbox was sent. *)
Theorem saved_card_fir db rp holes gb pb fb summary db' :
  save_card_for_round_player db rp holes gb pb fb = (Ok summary, db') ->
  exists rows,
    db_hole_scores db' =
      filter (fun hs => hs_round_player_id hs <> rp_id rp) (db_hole_scores db)
      ++ rows /\
    Forall2 (fun h hs =>
      hole_number hs = number h /\
      (par h = 3 -> fir hs = None) /\
      (par h <> 3 -> fb !! number h = None -> fir hs = Some false) /\
      (par h <> 3 -> fb !! number h = Some None -> fir hs = Some false) /\
      (par h <> 3 -> forall b, fb !! number h = Some (Some b) -> fir hs = Some b) /\
      (forall form, NoDup (number <$> holes) -> h ∈ holes ->
         fb = round_card_fir_by_hole form holes -> 3 < par h ->
         fir hs = Some (bool_decide
                   (is_Some (form !! ("fir_" ++ py_str (number h))%string)))))
      holes rows.
Proof.
  intros Hsave.
  apply save_card_rows in Hsave as (received & rows & _ & Hdb & Hrows).
  exists rows. split; [done|].
  eapply Forall2_impl; [exact Hrows|].
  intros h hs (g & r & _ & _ & ->). unfold stored_row, fir_value. simpl.
  split; [done|]. split; [|split; [|split; [|split]]].
  - intros ->. done.
  - intros Hp Hfb. rewrite Hfb.
    destruct (par h =? 3) eqn:E; [lia|done].
  - intros Hp Hfb. rewrite Hfb.
    destruct (par h =? 3) eqn:E; [lia|done].
  - intros Hp b Hfb. rewrite Hfb.
    destruct (par h =? 3) eqn:E; [lia|done].
  - intros form Hnd Hh -> Hp. rewrite round_card_fir_lookup by done.
    destruct (par h =? 3) eqn:E; [lia|].
    destruct (par h <=? 3) eqn:E'; [lia|done].
Qed.

(** C8. On every hole of a saved card the stored GIR is null exactly when
    the putts of the hole are unknown (absent from the input or recorded as
    null), and otherwise it is true iff gross strokes minus putts is at
    most par minus 2. *)
Theorem saved_card_gir db rp holes gb pb fb summary db' :
  save_card_for_round_player db rp holes gb pb fb = (Ok summary, db') ->
  exists rows,
    db_hole_scores db' =
      filter (fun hs => hs_round_player_id hs <> rp_id rp) (db_hole_scores db)
      ++ rows /\
    Forall2 (fun h hs =>
      hole_number hs = number h /\
      gb !! number h = Some (gross_strokes hs) /\
      putts hs = default None (pb !! number h) /\
      (gir hs = None <-> putts hs = None) /\
      (forall p, putts hs = Some p ->
         gir hs = Some (bool_decide (gross_strokes hs - p <= par h - 2))))
      holes rows.
Proof.
  intros Hsave.
  apply save_card_rows in Hsave as (received & rows & _ & Hdb & Hrows).
  exists rows. split; [done|].
  eapply Forall2_impl; [exact Hrows|].
  intros h hs (g & r & Hg & _ & ->). unfold stored_row, gir_value, putts_value.
  simpl. repeat split; try done.
  - by destruct (default None (pb !! number h)).
  - by intros ->.
  - intros p ->. f_equal.
    destruct (g - p <=? par h - 2) eqn:E.
    + symmetry. apply bool_decide_eq_true. lia.
    + symmetry. apply bool_decide_eq_false. lia.
Qed.

Lemma saved_card_fir_witness :
  exists rows,
    db_hole_scores (snd sample_save) =
      filter (fun hs => hs_round_player_id hs <> rp_id sample_rp1)
        (db_hole_scores sample_db) ++ rows /\
    Forall2 (fun h hs =>
      hole_number hs = number h /\
      (par h = 3 -> fir hs = None) /\
      (par h <> 3 -> sample_fir !! number h = None -> fir hs = Some false) /\
      (par h <> 3 -> sample_fir !! number h = Some None -> fir hs = Some false) /\
      (par h <> 3 -> forall b, sample_fir !! number h = Some (Some b) -> fir hs = Some b) /\
      (forall form, NoDup (number <$> sample_holes) -> h ∈ sample_holes ->
         sample_fir = round_card_fir_by_hole form sample_holes -> 3 < par h ->
         fir hs = Some (bool_decide
                   (is_Some (form !! ("fir_" ++ py_str (number h))%string)))))
      sample_holes rows.
Proof.
  eapply (saved_card_fir sample_db sample_rp1 sample_holes
            sample_gross sample_putts sample_fir).
  vm_compute. reflexivity.
Defined.

(** C7 as stated fails: with no fairway flag in the input, the par-4 first
    hole of the sample course is stored with FIR [false], not null. *)
Lemma saved_card_fir_absent_flag_not_null :
  exists summary db' h hs,
    save_card_for_round_player sample_db sample_rp1 sample_holes
      sample_gross ∅ ∅ = (Ok summary, db') /\
    head sample_holes = Some h /\
    head (db_hole_scores db') = Some hs /\
    hole_number hs = number h /\
    par h <> 3 /\
    (∅ : gmap Z (option bool)) !! number h = None /\
    fir hs = Some false /\
    fir hs <> None.
Proof.
  eexists _, _, _, _. split; [vm_compute; reflexivity|].
  split; [reflexivity|]. split; [reflexivity|]. by vm_compute.
Qed.

(** The same through the card form: a form without the checkbox of the
    first hole stores [false] for it. *)
Example saved_card_fir_unchecked_box :
  let fb := round_card_fir_by_hole ∅ sample_holes in
  fb !! 1 = Some (Some false) /\
  (fir <$> head (db_hole_scores (snd
     (save_card_for_round_player sample_db sample_rp1 sample_holes
        sample_gross ∅ fb)))) = Some (Some false).
Proof. by vm_compute. Qed.

Lemma saved_card_gir_witness :
  exists rows,
    db_hole_scores (snd sample_save) =
      filter (fun hs => hs_round_player_id hs <> rp_id sample_rp1)
        (db_hole_scores sample_db) ++ rows /\
    Forall2 (fun h hs =>
      hole_number hs = number h /\
      sample_gross !! number h = Some (gross_strokes hs) /\
      putts hs = default None (sample_putts !! number h) /\
      (gir hs = None <-> putts hs = None) /\
      (forall p, putts hs = Some p ->
         gir hs = Some (bool_decide (gross_strokes hs - p <= par h - 2))))
      sample_holes rows.
Proof.
  eapply (saved_card_gir sample_db sample_rp1 sample_holes
            sample_gross sample_putts sample_fir).
  vm_compute. reflexivity.
Defined.

(** ** The Stableford table *)

(** C1 (amended). With [diff = strokes - par], [stableford_points] is
    0 for [diff >= 2], then 1, 2, 3, 4, 5 for [diff] = 1, 0, -1, -2, -3,
    and 6 for [diff <= -4]: two points at par, clamped to 0..6. It never
    increases when [diff] grows. The card loop uses it twice per hole, on
    net strokes for the handicap points and on gross strokes for the
    scratch points. *)
Theorem stableford_points_table (s p : Z) :
  stableford_points s p = Z.max 0 (Z.min 6 (2 - (s - p))) /\
  (forall k : nat, stableford_points (p + 2 + Z.of_nat k) p = 0) /\
  stableford_points (p + 1) p = 1 /\
  stableford_points p p = 2 /\
  stableford_points (p - 1) p = 3 /\
  stableford_points (p - 2) p = 4 /\
  stableford_points (p - 3) p = 5 /\
  (forall k : nat, stableford_points (p - 4 - Z.of_nat k) p = 6) /\
  (forall s' p', s - p <= s' - p' ->
     stableford_points s' p' <= stableford_points s p) /\
  (forall rp received gb pb fb acc h acc',
     card_hole rp received gb pb fb acc h = Ok acc' ->
     exists g r,
       gb !! number h = Some g /\ received !! number h = Some r /\
       a_points_total acc' - a_points_total acc =
         Z.max 0 (Z.min 6 (2 - (g - r - par h))) /\
       a_scratch_points_total acc' - a_scratch_points_total acc =
         Z.max 0 (Z.min 6 (2 - (g - par h)))).
Proof.
  split; [apply stableford_points_clamp|].
  repeat split; try (intros; rewrite stableford_points_clamp; lia).
  - intros s' p'. apply stableford_points_antitone.
  - intros rp received gb pb fb acc h acc' H.
    apply card_hole_row in H as (g & r & Hg & Hr & _ & Hp & Hs).
    exists g, r. rewrite Hp, Hs, !stableford_points_clamp.
    repeat split; try done; lia.
Qed.

(** C1 as stated fails: a par scores 2 points, not the 3 of the table in
    the specification. *)
Lemma stableford_points_not_spec_table :
  ~ (forall s p, stableford_points s p = spec_stableford_table (s - p)).
Proof. intros H. specialize (H 4 4). vm_compute in H. discriminate. Qed.

(** ** Closing a round *)

Lemma fold_max_spec (xs : list Z) (x : Z) :
  fold_left Z.max xs x ∈ x :: xs /\
  Forall (fun y => y <= fold_left Z.max xs x) (x :: xs).
Proof.
  revert x. induction xs as [|y xs IH]; intros x; simpl.
  - split; [left | constructor; [lia | constructor]].
  - destruct (IH (Z.max x y)) as [Hin Hall].
    apply Forall_cons in Hall as [Hm Hall]. split.
    + apply elem_of_cons in Hin as [Hin|Hin]; [|by right; right].
      rewrite Hin. destruct (Z.max_spec x y) as [[_ ->]|[_ ->]];
        [right; left | left].
    + constructor; [lia|]. constructor; [lia|done].
Qed.

Lemma py_max_spec (xs : list Z) (m : Z) :
  py_max xs = Ok m -> m ∈ xs /\ forall x, x ∈ xs -> x <= m.
Proof.
  destruct xs as [|x xs]; simpl; [discriminate|]. intros [= <-].
  destruct (fold_max_spec xs x) as [Hin Hall]. split; [done|].
  by apply Forall_forall.
Qed.

Lemma py_max_nonempty (xs : list Z) : xs <> [] -> exists m, py_max xs = Ok m.
Proof. destruct xs; [done|]. intros _. by eexists. Qed.

Lemma omap_all_None {A B : Type} (f : A -> option B) (l : list A) :
  (forall x, x ∈ l -> f x = None) -> omap f l = [].
Proof.
  induction l as [|x l IH]; intros H; [done|]. simpl.
  rewrite (H x) by left. apply IH. intros y Hy. apply H. by right.
Qed.

(** Rows with distinct primary keys are equal when their keys are. *)
Lemma NoDup_key_inj {A : Type} (key : A -> Z) (l : list A) (x y : A) :
  NoDup (key <$> l) -> x ∈ l -> y ∈ l -> key x = key y -> x = y.
Proof.
  intros Hnd Hx Hy Hk.
  apply list_elem_of_lookup in Hx as [i Hi].
  apply list_elem_of_lookup in Hy as [j Hj].
  assert (i = j) as ->.
  { eapply (NoDup_lookup _ i j (key x) Hnd); rewrite list_lookup_fmap.
    - by rewrite Hi.
    - by rewrite Hj, Hk. }
  congruence.
Qed.

(** The round players of the round after the commit. *)
Lemma round_players_after_commit db rid r' res :
  get_round_players (commit_round db rid r' res) rid =
  (fun rp => set_result rp (res rp)) <$> get_round_players db rid.
Proof.
  unfold get_round_players, commit_round. simpl.
  induction (db_round_players db) as [|x l IH]; [done|]. simpl.
  destruct (round_id x =? rid) eqn:E.
  - rewrite !filter_cons_True by (simpl; lia). by rewrite fmap_cons, IH.
  - rewrite !filter_cons_False by lia. apply IH.
Qed.

(** The round after the commit. *)
Lemma round_after_commit db rid r r' res :
  get_round db rid = Some r -> r_id r' = r_id r ->
  get_round (commit_round db rid r' res) rid = Some r'.
Proof.
  unfold get_round, commit_round. simpl. intros Hr Hid.
  induction (db_rounds db) as [|x l IH]; [done|]. simpl.
  destruct (decide (r_id x = rid)) as [Hx|Hx].
  - rewrite filter_cons_True in Hr by done. injection Hr as ->.
    rewrite Hid, Z.eqb_refl. rewrite filter_cons_True by congruence. done.
  - rewrite filter_cons_False in Hr by done.
    assert (Hrid : r_id r = rid).
    { apply head_Some_elem_of, list_elem_of_filter in Hr. tauto. }
    destruct (r_id x =? r_id r') eqn:E; [lia|].
    rewrite filter_cons_False by done. by apply IH.
Qed.

Lemma rp_in_spec (rp : RoundPlayer) (winners : list RoundPlayer) :
  rp_in rp winners = true <-> exists w, w ∈ winners /\ rp_id w = rp_id rp.
Proof.
  unfold rp_in. rewrite existsb_exists. split.
  - intros (w & Hw & E). exists w. split; [by apply list_elem_of_In | lia].
  - intros (w & Hw & E). exists w. split; [by apply list_elem_of_In | lia].
Qed.

(** The state that closing a round commits, when the round exists and at
    least one participant has a handicap-Stableford total: the row of the
    round and the rows of its participants, for a single winner and for
    several. *)
Lemma close_round_commit_rows (db : DB) (rid : Z) (r : Round) :
  get_round db rid = Some r ->
  NoDup (rp_id <$> db_round_players db) ->
  (exists rp, rp ∈ get_round_players db rid /\
              is_Some (stableford_hcp_total rp)) ->
  exists max_pts db',
    close_round_and_set_winner db rid = (Ok tt, db') /\
    let rps := get_round_players db rid in
    let winners :=
      filter (fun rp => stableford_hcp_total rp = Some max_pts) rps in
    (forall rp t, rp ∈ rps -> stableford_hcp_total rp = Some t -> t <= max_pts) /\
    (1 <= length winners)%nat /\
    (forall w, winners = [w] ->
       get_round db' rid =
         Some (set_winner r "single" (py_str (player_id w))) /\
       get_round_players db' rid =
         (fun rp => set_result rp
            (if decide (stableford_hcp_total rp = Some max_pts)
             then "win" else "loss")) <$> rps) /\
    ((1 < length winners)%nat ->
       get_round db' rid =
         Some (set_winner r "tie"
                 (join "," (py_str <$> (player_id <$> winners)))) /\
       get_round_players db' rid =
         (fun rp => set_result rp
            (if decide (stableford_hcp_total rp = Some max_pts)
             then "tie" else "loss")) <$> rps).
Proof.
  intros Hr Hnd (rp0 & Hrp0 & [t0 Ht0]).
  set (rps := get_round_players db rid).
  assert (Hsub : forall rp, rp ∈ rps -> rp ∈ db_round_players db).
  { intros rp Hrp. apply list_elem_of_filter in Hrp. tauto. }
  destruct (py_max_nonempty (omap stableford_hcp_total rps)) as [m Hm].
  { intros Hnil. assert (Hin : t0 ∈ omap stableford_hcp_total rps)
      by (apply list_elem_of_omap; eauto).
    rewrite Hnil in Hin. by apply elem_of_nil in Hin. }
  pose proof (py_max_spec _ _ Hm) as [Hmin Hmax].
  apply list_elem_of_omap in Hmin as (wm & Hwm & Hwmt).
  set (winners := filter (fun rp => stableford_hcp_total rp = Some m) rps).
  assert (Hwin : forall rp, rp ∈ winners <->
                   stableford_hcp_total rp = Some m /\ rp ∈ rps)
    by (intros rp; unfold winners; by rewrite list_elem_of_filter).
  assert (Hwm' : wm ∈ winners) by (by apply Hwin).
  assert (Hlen : (1 <= length winners)%nat).
  { destruct winners; [by apply elem_of_nil in Hwm' | simpl; lia]. }
  exists m, (snd (close_round_and_set_winner db rid)).
  unfold close_round_and_set_winner. fold rps. rewrite Hm, Hr. fold winners.
  split; [by destruct winners as [|? [|? ?]]|]. simpl.
  split; [|split; [done|split]].
  - intros rp t Hrp Ht. apply Hmax. apply list_elem_of_omap. eauto.
  - intros w Hw. rewrite Hw. simpl. split.
    + by apply (round_after_commit db rid r).
    + rewrite round_players_after_commit. fold rps.
      apply list_fmap_ext. intros i rp Hrp. f_equal.
      apply list_elem_of_lookup_2 in Hrp.
      assert (Hww : w ∈ winners) by (rewrite Hw; left).
      apply Hwin in Hww as [Hwt Hwr].
      destruct (rp_id rp =? rp_id w) eqn:E; case_decide as Hd; try done.
      * exfalso. apply Hd.
        rewrite (NoDup_key_inj rp_id _ rp w Hnd); auto. lia.
      * exfalso. assert (Hrw : rp ∈ winners) by (by apply Hwin).
        rewrite Hw in Hrw. apply list_elem_of_singleton in Hrw. subst. lia.
  - intros Hgt.
    destruct winners as [|w1 [|w2 ws]] eqn:Hws; simpl in Hgt; try lia.
    cbn [snd]. rewrite <- Hws in *. split.
    + by apply (round_after_commit db rid r).
    + rewrite round_players_after_commit. fold rps.
      apply list_fmap_ext. intros i rp Hrp. f_equal.
      apply list_elem_of_lookup_2 in Hrp.
      destruct (rp_in rp winners) eqn:E; case_decide as Hd; try done.
      * exfalso. apply Hd. apply rp_in_spec in E as (w & Hw & Hid).
        apply Hwin in Hw as [Hwt Hwr].
        rewrite (NoDup_key_inj rp_id _ rp w Hnd); auto.
      * exfalso. assert (Hrw : rp_in rp winners = true); [|congruence].
        apply rp_in_spec. exists rp. split; [by apply Hwin | done].
Qed.

(** The fields of the participants after [set_result] on each of them. *)
Lemma set_result_fields (rps : list RoundPlayer) (res : RoundPlayer -> string) :
  let rps' := (fun rp => set_result rp (res rp)) <$> rps in
  rp_id <$> rps' = rp_id <$> rps /\
  player_id <$> rps' = player_id <$> rps /\
  stableford_hcp_total <$> rps' = stableford_hcp_total <$> rps /\
  result <$> rps' = (fun rp => Some (res rp)) <$> rps.
Proof.
  cbv zeta. rewrite <- !list_fmap_compose. done.
Qed.

(** C3. When the round exists and at least one participant has a
    handicap-Stableford total, closing the round succeeds. Read from the
    rows of the database afterwards: the participants are the same, in the
    same order, with the same totals; the winners are the participants
    whose total equals the maximum [max_pts]. With exactly one winner the
    round has [winner_type] "single" and [winner_player_ids] that player's
    id, the winner's [result] is "win" and every other participant's is
    "loss"; with several winners the round has [winner_type] "tie" and
    [winner_player_ids] their ids comma-joined in round-player order, their
    [result] is "tie" and the others' "loss". *)
Theorem close_round_sets_winner (db : DB) (rid : Z) (r : Round) :
  get_round db rid = Some r ->
  NoDup (rp_id <$> db_round_players db) ->
  (exists rp, rp ∈ get_round_players db rid /\
              is_Some (stableford_hcp_total rp)) ->
  exists max_pts db' r',
    close_round_and_set_winner db rid = (Ok tt, db') /\
    get_round db' rid = Some r' /\
    r_course_id r' = r_course_id r /\
    r_league_id r' = r_league_id r /\
    let rps := get_round_players db rid in
    let rps' := get_round_players db' rid in
    let winners :=
      filter (fun rp => stableford_hcp_total rp = Some max_pts) rps in
    (forall rp t, rp ∈ rps -> stableford_hcp_total rp = Some t -> t <= max_pts) /\
    (1 <= length winners)%nat /\
    rp_id <$> rps' = rp_id <$> rps /\
    player_id <$> rps' = player_id <$> rps /\
    stableford_hcp_total <$> rps' = stableford_hcp_total <$> rps /\
    (forall w, winners = [w] ->
       winner_type r' = Some "single" /\
       winner_player_ids r' = Some (py_str (player_id w)) /\
       result <$> rps' =
         (fun rp => Some (if decide (stableford_hcp_total rp = Some max_pts)
                          then "win" else "loss")) <$> rps) /\
    ((1 < length winners)%nat ->
       winner_type r' = Some "tie" /\
       winner_player_ids r' =
         Some (join "," (py_str <$> (player_id <$> winners))) /\
       result <$> rps' =
         (fun rp => Some (if decide (stableford_hcp_total rp = Some max_pts)
                          then "tie" else "loss")) <$> rps).
Proof.
  intros Hr Hnd Hex.
  destruct (close_round_commit_rows db rid r Hr Hnd Hex)
    as (m & db' & Hclose & Hmax & Hlen & Hone & Hmany).
  cbv zeta in *.
  set (rps := get_round_players db rid) in *.
  set (winners := filter (fun rp => stableford_hcp_total rp = Some m) rps) in *.
  destruct winners as [|w [|w2 ws]] eqn:Hws; [simpl in Hlen; lia| |].
  - destruct (Hone w eq_refl) as [Hround Hrows].
    destruct (set_result_fields rps
      (fun rp => if decide (stableford_hcp_total rp = Some m)
                 then "win" else "loss")%string)
      as (Hid & Hpid & Htot & Hres).
    exists m, db', (set_winner r "single" (py_str (player_id w))).
    rewrite Hrows. fold winners. rewrite Hws.
    do 9 (split; [done|]). split.
    + intros w' [= <-]. by split.
    + simpl. lia.
  - destruct Hmany as [Hround Hrows]; [simpl; lia|].
    destruct (set_result_fields rps
      (fun rp => if decide (stableford_hcp_total rp = Some m)
                 then "tie" else "loss")%string)
      as (Hid & Hpid & Htot & Hres).
    exists m, db', (set_winner r "tie"
                      (join "," (py_str <$> (player_id <$> w :: w2 :: ws)))).
    rewrite Hrows. fold winners. rewrite Hws.
    do 9 (split; [done|]). split.
    + intros w' [=].
    + intros _. by split.
Qed.


(** C9. When no participant of the round has a handicap-Stableford total,
    closing the round raises [ValueError] (from [max] on an empty sequence)
    and the database is left as it was: neither the round's winner fields
    nor any participant's result is written. *)
Theorem close_round_without_scores (db : DB) (rid : Z) :
  (forall rp, rp ∈ get_round_players db rid ->
              stableford_hcp_total rp = None) ->
  close_round_and_set_winner db rid = (Err ValueError, db).
Proof.
  intros Hnone. unfold close_round_and_set_winner.
  by rewrite (omap_all_None _ _ Hnone).
Qed.

Lemma close_round_sets_winner_witness :
  exists max_pts db' r',
    close_round_and_set_winner tie_db 1 = (Ok tt, db') /\
    get_round db' 1 = Some r' /\
    r_course_id r' = r_course_id sample_round /\
    r_league_id r' = r_league_id sample_round /\
    let rps := get_round_players tie_db 1 in
    let rps' := get_round_players db' 1 in
    let winners :=
      filter (fun rp => stableford_hcp_total rp = Some max_pts) rps in
    (forall rp t, rp ∈ rps -> stableford_hcp_total rp = Some t -> t <= max_pts) /\
    (1 <= length winners)%nat /\
    rp_id <$> rps' = rp_id <$> rps /\
    player_id <$> rps' = player_id <$> rps /\
    stableford_hcp_total <$> rps' = stableford_hcp_total <$> rps /\
    (forall w, winners = [w] ->
       winner_type r' = Some "single" /\
       winner_player_ids r' = Some (py_str (player_id w)) /\
       result <$> rps' =
         (fun rp => Some (if decide (stableford_hcp_total rp = Some max_pts)
                          then "win" else "loss")) <$> rps) /\
    ((1 < length winners)%nat ->
       winner_type r' = Some "tie" /\
       winner_player_ids r' =
         Some (join "," (py_str <$> (player_id <$> winners))) /\
       result <$> rps' =
         (fun rp => Some (if decide (stableford_hcp_total rp = Some max_pts)
                          then "tie" else "loss")) <$> rps).
Proof.
  apply (close_round_sets_winner tie_db 1 sample_round).
  - reflexivity.
  - apply (bool_decide_unpack _). vm_compute. reflexivity.
  - exists (scored_rp 1 11 10). split; [|by eexists].
    apply list_elem_of_In. vm_compute. left. reflexivity.
Defined.

(** The two examples of the specification. *)
Example close_round_tie_example :
  let db' := snd (close_round_and_set_winner tie_db 1) in
  fst (close_round_and_set_winner tie_db 1) = Ok tt /\
  (winner_type <$> get_round db' 1) = Some (Some "tie") /\
  (winner_player_ids <$> get_round db' 1) = Some (Some "12,13") /\
  (fun rp => (player_id rp, result rp)) <$> get_round_players db' 1 =
    [(11, Some "loss"); (12, Some "tie"); (13, Some "tie"); (14, Some "loss")].
Proof. by vm_compute. Qed.

Example close_round_single_example :
  let db' := snd (close_round_and_set_winner single_db 1) in
  fst (close_round_and_set_winner single_db 1) = Ok tt /\
  (winner_type <$> get_round db' 1) = Some (Some "single") /\
  (winner_player_ids <$> get_round db' 1) = Some (Some "12") /\
  (fun rp => (player_id rp, result rp)) <$> get_round_players db' 1 =
    [(11, Some "loss"); (12, Some "win"); (13, Some "loss")].
Proof. by vm_compute. Qed.

Lemma close_round_without_scores_witness :
  close_round_and_set_winner sample_db 1 = (Err ValueError, sample_db).
Proof.
  apply (close_round_without_scores sample_db 1).
  intros rp Hrp. apply list_elem_of_In in Hrp. vm_compute in Hrp.
  destruct Hrp as [<-|[<-|[]]]; reflexivity.
Defined.

(** ** The course handicap *)

Lemma round_half_even_spec (n d : Z) :
  0 < d ->
  2 * Z.abs (n - round_half_even n d * d) <= d /\
  (2 * Z.abs (n - round_half_even n d * d) = d ->
   Z.even (round_half_even n d) = true).
Proof.
  intros Hd. unfold round_half_even.
  pose proof (Z.div_mod n d) as Hdm.
  pose proof (Z.mod_pos_bound n d Hd) as Hr.
  set (q := n / d) in *. set (r := n mod d) in *.
  assert (Hn : n = d * q + r) by lia. clearbody q r. subst n.
  destruct (Z.compare_spec (2 * r) d) as [He|Hl|Hg].
  - destruct (Z.even q) eqn:Hq.
    + split; [nia | done].
    + split; [nia|]. intros _. rewrite Z.add_1_r, Z.even_succ.
      by rewrite <- Z.negb_even, Hq.
  - split; [nia | nia].
  - split; [nia | nia].
Qed.

Lemma py_round_nearest (x : float) :
  is_finite x = true ->
  exists z, py_round x = Ok z /\
    (Qabs (float_val x - inject_Z z) <= 1 # 2)%Q /\
    ((Qabs (float_val x - inject_Z z) == 1 # 2)%Q -> Z.even z = true).
Proof.
  destruct x as [s| | |s m e]; try discriminate; intros _.
  - exists 0. by repeat split.
  - simpl. set (n := if s then Z.neg m else Z.pos m).
    destruct (0 <=? e) eqn:He.
    + eexists. split; [reflexivity|].
      unfold Qle, Qeq, Qabs, Qminus, Qplus, Qopp, inject_Z. simpl.
      generalize (n * 2 ^ e). intros a. split; lia.
    + eexists. split; [reflexivity|].
      assert (Hd : 0 < 2 ^ (- e)) by (apply Z.pow_pos_nonneg; lia).
      destruct (round_half_even_spec n (2 ^ (- e)) Hd) as [H1 H2].
      set (z := round_half_even n (2 ^ (- e))) in *.
      set (d := 2 ^ (- e)) in *.
      unfold Qle, Qeq, Qabs, Qminus, Qplus, Qopp, inject_Z. simpl.
      rewrite Pos.mul_1_r, Z2Pos.id by done.
      replace (n * 1 + - z * d) with (n - z * d) by ring.
      split; [lia|]. intros H. apply H2. lia.
Qed.

(** What [course_handicap] computes: the binary64 product
    [hcp_exact * (slope / 113.0)] and, whenever that product is finite,
    the integer nearest to it, a tie going to the even neighbour, which is
    what Python's [round] does. For exact index 14.3 and slope 120 the
    result is 15. *)
Lemma course_handicap_rounds_half_even (hcp : float) (slope : Z) :
  is_finite (fmul hcp (fdiv (float_of_int slope) lit_113)) = true ->
  exists z,
    course_handicap hcp slope = Ok z /\
    (Qabs (float_val (fmul hcp (fdiv (float_of_int slope) lit_113))
           - inject_Z z) <= 1 # 2)%Q /\
    ((Qabs (float_val (fmul hcp (fdiv (float_of_int slope) lit_113))
            - inject_Z z) == 1 # 2)%Q -> Z.even z = true) /\
    course_handicap lit_14_3 120 = Ok 15.
Proof.
  intros Hfin. destruct (py_round_nearest _ Hfin) as (z & Hz & Hle & Heven).
  exists z. repeat split; try done.
Qed.

(** The example of the specification: index 14.3 on slope 120. *)
Example course_handicap_example :
  exists z,
    course_handicap lit_14_3 120 = Ok z /\
    (Qabs (float_val (fmul lit_14_3 (fdiv (float_of_int 120) lit_113))
           - inject_Z z) <= 1 # 2)%Q /\
    ((Qabs (float_val (fmul lit_14_3 (fdiv (float_of_int 120) lit_113))
            - inject_Z z) == 1 # 2)%Q -> Z.even z = true) /\
    course_handicap lit_14_3 120 = Ok 15.
Proof.
  apply (course_handicap_rounds_half_even lit_14_3 120).
  vm_compute. reflexivity.
Qed.

(** C5. The course handicap is to be the product rounded to the nearest
    integer with ties upwards (the rule of the World Handicap System, which
    the code names). The code does not do that on a tie whose lower
    neighbour is even. For exact index 14.5 on a course of slope 113 the
    factor [113 / 113.0] is exactly 1.0 and the product exactly 14.5; ties
    upwards give 15, and [course_handicap] returns 14. Likewise 0.5 gives
    0 where ties upwards give 1. A tie whose lower neighbour is odd comes
    out as specified (15.5 gives 16), and so does the example of the
    specification (14.3 on slope 120 gives 15). *)
Theorem course_handicap_tie_rounds_down :
  fmul lit_14_5 (fdiv (float_of_int 113) lit_113) = lit_14_5 /\
  float_val lit_14_5 == 29 # 2 /\
  spec_round_half_up (float_val lit_14_5 * inject_Z 113 / inject_Z 113) = 15 /\
  course_handicap lit_14_5 113 = Ok 14 /\
  spec_round_half_up (float_val lit_0_5 * inject_Z 113 / inject_Z 113) = 1 /\
  course_handicap lit_0_5 113 = Ok 0 /\
  spec_round_half_up (float_val lit_15_5 * inject_Z 113 / inject_Z 113) = 16 /\
  course_handicap lit_15_5 113 = Ok 16 /\
  course_handicap lit_14_3 120 = Ok 15.
Proof. by vm_compute. Qed.

(** ** League points of a round *)

Lemma StronglySorted_filter {A : Type} (R : relation A) (P : A -> Prop)
    `{forall x, Decision (P x)} (l : list A) :
  StronglySorted R l -> StronglySorted R (filter P l).
Proof.
  induction 1 as [|x l Hl IH Hx]; [constructor|].
  rewrite filter_cons. case_decide; [|done].
  constructor; [done|].
  apply Forall_forall. intros y Hy. apply list_elem_of_filter in Hy as [_ Hy].
  by eapply Forall_forall in Hx.
Qed.

Lemma filter_filter_impl {A : Type} (P Q : A -> Prop)
    `{forall x, Decision (P x)} `{forall x, Decision (Q x)} (l : list A) :
  (forall x, x ∈ l -> P x -> Q x) -> filter P (filter Q l) = filter P l.
Proof.
  induction l as [|x l IH]; intros HPQ; [done|].
  assert (IH' : filter P (filter Q l) = filter P l)
    by (apply IH; intros y Hy; apply HPQ; by right).
  rewrite (filter_cons Q). destruct (decide (Q x)) as [HQ|HQ].
  - rewrite !filter_cons. by rewrite IH'.
  - rewrite filter_cons_False; [done|]. intros HP. apply HQ, HPQ; [left|done].
Qed.

Lemma f1_key_lt_asym (a b : bool * Z) :
  f1_key_lt a b = true -> f1_key_lt b a = false.
Proof.
  destruct a as [[] x], b as [[] y]; unfold f1_key_lt; simpl; intros; lia.
Qed.

Lemma f1_key_le_trans (a b c : bool * Z) :
  f1_key_lt b a = false -> f1_key_lt c b = false -> f1_key_lt c a = false.
Proof.
  destruct a as [[] x], b as [[] y], c as [[] z]; unfold f1_key_lt; simpl;
    intros; lia.
Qed.

(** The valid players are the scored players with a total, best first. *)
Lemma valid_players_perm (db : DB) (r : Round) :
  valid_players db r ≡ₚ
  filter (fun rp => is_Some (stableford_hcp_total rp)) (scored_players db r).
Proof. unfold valid_players. by rewrite sorted_perm. Qed.

Lemma valid_players_sorted (db : DB) (r : Round) :
  StronglySorted
    (fun a b => forall ta tb,
       stableford_hcp_total a = Some ta -> stableford_hcp_total b = Some tb ->
       tb <= ta)
    (valid_players db r).
Proof.
  unfold valid_players. apply StronglySorted_filter.
  eapply StronglySorted_weaken; [|apply sorted_sorted].
  - unfold le_of, f1_key_lt, f1_key. intros a b H ta tb Ha Hb.
    rewrite Ha, Hb in H. simpl in H. lia.
  - intros a b. apply f1_key_lt_asym.
  - intros a b c. unfold le_of. apply f1_key_le_trans.
Qed.

(** A non-negative int never converts to a float below zero. *)
Lemma binary_round_aux_not_negative (mx ex : Z) (lx : location) :
  SFltb (binary_round_aux prec emax false mx ex lx) (S754_zero false) = false.
Proof.
  unfold binary_round_aux.
  destruct (shr_fexp prec emax mx ex lx) as [mrs' e'].
  destruct (shr_fexp prec emax _ e' loc_Exact) as [mrs'' e''].
  destruct (shr_m mrs''); [done| |done].
  by destruct (e'' <=? emax - prec)%Z.
Qed.

Lemma float_of_int_not_negative (z : Z) :
  0 <= z -> fltb (float_of_int z) lit_0 = false.
Proof.
  intros Hz. unfold fltb, float_of_int, lit_0, binary_normalize.
  destruct z as [|p|p]; [done| |lia].
  unfold binary_round. destruct (shl_align _ _ _) as [mz ez].
  apply binary_round_aux_not_negative.
Qed.

(** The entries of [stats]. *)
Lemma stats_get_set_eq (st : list (Z * Stats)) (k : Z) (s : Stats) :
  stats_get (stats_set st k s) k = s.
Proof.
  unfold stats_get, stats_lookup.
  induction st as [|[k' v] st IH]; simpl.
  - by rewrite filter_cons_True.
  - destruct (k' =? k) eqn:E.
    + rewrite filter_cons_True by (simpl; lia). done.
    + rewrite filter_cons_False by (simpl; lia). done.
Qed.

Lemma stats_get_set_ne (st : list (Z * Stats)) (k k' : Z) (s : Stats) :
  k <> k' -> stats_get (stats_set st k s) k' = stats_get st k'.
Proof.
  intros Hne. unfold stats_get, stats_lookup.
  induction st as [|[k0 v] st IH]; simpl.
  - by rewrite filter_cons_False.
  - destruct (k0 =? k) eqn:E.
    + assert (k0 = k) as -> by lia. by rewrite !filter_cons_False.
    + destruct (decide (k0 = k')) as [->|Hk].
      * by rewrite !filter_cons_True.
      * by rewrite !filter_cons_False.
Qed.

Lemma base_fold_f1_points (db : DB) (r : Round) (rps : list RoundPlayer)
    (st : list (Z * Stats)) (pid : Z) :
  s_f1_points (stats_get
    (fold_left (fun st rp =>
       stats_set st (player_id rp)
         (stats_add_round db r (stats_get st (player_id rp)) rp)) rps st) pid)
  = s_f1_points (stats_get st pid).
Proof.
  revert st. induction rps as [|rp rps IH]; intros st; simpl; [done|].
  rewrite IH. destruct (decide (player_id rp = pid)) as [<-|Hne].
  - by rewrite stats_get_set_eq.
  - by rewrite stats_get_set_ne.
Qed.

Lemma f1_fold_f1_points (points : float) (winners : list RoundPlayer)
    (st : list (Z * Stats)) (pid : Z) :
  s_f1_points (stats_get
    (fold_left (fun st rp =>
       stats_set st (player_id rp)
         (stats_add_f1 (stats_get st (player_id rp)) points)) winners st) pid)
  = Nat.iter (length (filter (fun rp => player_id rp = pid) winners))
      (fun x => fadd x points) (s_f1_points (stats_get st pid)).
Proof.
  revert st. induction winners as [|rp rps IH]; intros st; simpl; [done|].
  rewrite IH. destruct (decide (player_id rp = pid)) as [<-|Hne].
  - rewrite filter_cons_True by done.
    rewrite stats_get_set_eq. simpl length. by rewrite Nat.iter_succ_r.
  - rewrite filter_cons_False by done. by rewrite stats_get_set_ne.
Qed.

(** C4. Let [n] be the number of participants of a league round with a
    handicap-Stableford total (every card that has one also has a gross
    total, as a saved card sets both). With [n = 0] the round gives no
    points. Otherwise the joint winners are exactly the participants whose
    total equals the round's maximum, each of them gets the float quotient
    of [max(n - 1, 0)] by the number of winners, and nobody else gets
    anything: a player's [f1_points] grows by that share once per winning
    participation and is unchanged without one. *)
Theorem round_f1_distribution (db : DB) (r : Round) :
  (forall rp, rp ∈ round_players_of db r ->
     is_Some (stableford_hcp_total rp) -> is_Some (gross_total rp)) ->
  let scored :=
    filter (fun rp => is_Some (stableford_hcp_total rp)) (round_players_of db r) in
  let n := len scored in
  (n = 0 -> round_f1 db r = None) /\
  (0 < n ->
     exists best winners points,
       round_f1 db r = Some (winners, points) /\
       (forall rp t, rp ∈ scored -> stableford_hcp_total rp = Some t -> t <= best) /\
       winners ≡ₚ filter (fun rp => stableford_hcp_total rp = Some best) scored /\
       (1 <= length winners)%nat /\
       points = fdiv (float_of_int (Z.max (n - 1) 0)) (float_of_int (len winners))) /\
  (forall st pid,
     s_f1_points (stats_get (league_round db st r) pid) =
     match round_f1 db r with
     | None => s_f1_points (stats_get st pid)
     | Some (winners, points) =>
         Nat.iter (length (filter (fun rp => player_id rp = pid) winners))
           (fun x => fadd x points) (s_f1_points (stats_get st pid))
     end).
Proof.
  intros Hinv scored n.
  assert (Hvalid : valid_players db r ≡ₚ scored).
  { rewrite valid_players_perm. unfold scored, scored_players.
    by rewrite filter_filter_impl. }
  assert (Hn : len (valid_players db r) = n)
    by (unfold n, len; by rewrite Hvalid).
  split; [|split].
  - intros H0. unfold round_f1.
    destruct (valid_players db r); [done|]. unfold len in *. simpl in *. lia.
  - intros Hpos. unfold round_f1.
    pose proof (valid_players_sorted db r) as Hsorted.
    destruct (valid_players db r) as [|first rest] eqn:Hv.
    { unfold len in *. simpl in *. lia. }
    assert (Hfirst : first ∈ scored) by (rewrite <- Hvalid; left).
    apply list_elem_of_filter in Hfirst as [[best Hbest] _].
    set (winners := filter _ (first :: rest)).
    assert (Hw1 : first ∈ winners).
    { apply list_elem_of_filter. split; [done|left]. }
    exists best, winners, (fdiv (float_of_int (n - 1)) (float_of_int (len winners))).
    split; [|split; [|split; [|split]]].
    + f_equal. f_equal. rewrite Hn.
      rewrite float_of_int_not_negative by lia.
      destruct winners; [by apply elem_of_nil in Hw1 | done].
    + intros rp t Hrp Ht. rewrite <- Hvalid in Hrp.
      apply elem_of_cons in Hrp as [->|Hrp];
        [assert (t = best) by congruence; lia|].
      apply StronglySorted_inv in Hsorted as [_ Hall].
      eapply Forall_forall in Hall; [|exact Hrp]. by eapply Hall.
    + unfold winners. rewrite Hbest, Hvalid. unfold scored.
      rewrite filter_filter_impl; [done|]. intros x _ ->. by eexists.
    + destruct winners; [by apply elem_of_nil in Hw1 | simpl; lia].
    + by rewrite Z.max_l by lia.
  - intros st pid. unfold league_round.
    destruct (scored_players db r) as [|rp0 rps0] eqn:Hs.
    + assert (Hnil : valid_players db r = []).
      { unfold valid_players. by rewrite Hs. }
      unfold round_f1. by rewrite Hnil.
    + destruct (round_f1 db r) as [[winners points]|].
      * by rewrite f1_fold_f1_points, base_fold_f1_points.
      * by rewrite base_fold_f1_points.
Qed.

Lemma round_f1_distribution_witness :
  let scored :=
    filter (fun rp => is_Some (stableford_hcp_total rp))
      (round_players_of tie_db sample_round) in
  let n := len scored in
  (n = 0 -> round_f1 tie_db sample_round = None) /\
  (0 < n ->
     exists best winners points,
       round_f1 tie_db sample_round = Some (winners, points) /\
       (forall rp t, rp ∈ scored -> stableford_hcp_total rp = Some t -> t <= best) /\
       winners ≡ₚ filter (fun rp => stableford_hcp_total rp = Some best) scored /\
       (1 <= length winners)%nat /\
       points = fdiv (float_of_int (Z.max (n - 1) 0)) (float_of_int (len winners))) /\
  (forall st pid,
     s_f1_points (stats_get (league_round tie_db st sample_round) pid) =
     match round_f1 tie_db sample_round with
     | None => s_f1_points (stats_get st pid)
     | Some (winners, points) =>
         Nat.iter (length (filter (fun rp => player_id rp = pid) winners))
           (fun x => fadd x points) (s_f1_points (stats_get st pid))
     end).
Proof.
  apply (round_f1_distribution tie_db sample_round).
  intros rp Hrp _. apply list_elem_of_In in Hrp. vm_compute in Hrp.
  destruct Hrp as [<-|[<-|[<-|[<-|[]]]]]; by eexists.
Defined.

(** The two examples of the specification: with four scored players a
    single best scorer gets 3.0 and the others nothing; two players tied
    at the top get 1.5 each. *)
Example round_f1_single_example :
  float_val lit_3 == 3 # 1 /\
  round_f1 single4_db sample_round = Some ([scored_rp 2 12 15], lit_3) /\
  (fun pid => s_f1_points (stats_get (league_round single4_db [] sample_round) pid))
    <$> [11; 12; 13; 14] = [lit_0; lit_3; lit_0; lit_0].
Proof. by vm_compute. Qed.

Example round_f1_tie_example :
  float_val lit_1_5 == 3 # 2 /\
  round_f1 tie_db sample_round =
    Some ([scored_rp 2 12 15; scored_rp 3 13 15], lit_1_5) /\
  (fun pid => s_f1_points (stats_get (league_round tie_db [] sample_round) pid))
    <$> [11; 12; 13; 14] = [lit_0; lit_1_5; lit_1_5; lit_0].
Proof. by vm_compute. Qed.

(** ** Comparisons and sorting on keys *)

Lemma lt_of_asym {A : Type} (cmp : A -> A -> comparison) (a b : A) :
  cmp_ok cmp -> lt_of cmp a b = true -> lt_of cmp b a = false.
Proof.
  intros Hok. unfold lt_of. rewrite (cmp_antisym cmp Hok a b).
  by destruct (cmp a b).
Qed.

Lemma lt_of_le_trans {A : Type} (cmp : A -> A -> comparison) (a b c : A) :
  cmp_ok cmp ->
  lt_of cmp b a = false -> lt_of cmp c b = false -> lt_of cmp c a = false.
Proof.
  intros Hok. unfold lt_of. intros Hba Hcb.
  destruct (cmp c a) eqn:Hca; try done. exfalso.
  destruct (cmp c b) eqn:Ecb; try done.
  - rewrite (cmp_eq_l cmp Hok c b a Ecb) in Hca. by rewrite Hca in Hba.
  - pose proof (cmp_antisym cmp Hok c b) as Hbc. rewrite Ecb in Hbc.
    simpl in Hbc.
    rewrite (cmp_lt_trans cmp Hok b c a Hbc Hca) in Hba. done.
Qed.

Lemma Z_compare_ok : cmp_ok Z.compare.
Proof.
  split.
  - intros a b. apply Z.compare_antisym.
  - intros a b c. rewrite !Z.compare_lt_iff. lia.
  - intros a b c Hab. apply Z.compare_eq in Hab. by subst.
Qed.

Lemma string_compare_ok : cmp_ok String_as_OT.compare.
Proof.
  assert (Heq : forall a b, String_as_OT.compare a b = Eq -> a = b).
  { intros a b H. by destruct (String_as_OT.compare_spec a b). }
  assert (Hrefl : forall a, String_as_OT.compare a a = Eq).
  { intros a. destruct (String_as_OT.compare_spec a a) as [|H|H]; [done| |];
      by apply (StrictOrder_Irreflexive (R := String_as_OT.lt)) in H. }
  assert (Htrans : forall a b c, String_as_OT.compare a b = Lt ->
            String_as_OT.compare b c = Lt -> String_as_OT.compare a c = Lt).
  { intros a b c. apply (StrictOrder_Transitive (R := String_as_OT.lt)). }
  split; [|exact Htrans|].
  - intros a b.
    destruct (String_as_OT.compare a b) eqn:Hab; simpl.
    + apply Heq in Hab. subst. apply Hrefl.
    + destruct (String_as_OT.compare b a) eqn:Hba; [| |done].
      * apply Heq in Hba. subst. by rewrite Hrefl in Hab.
      * pose proof (Htrans _ _ _ Hab Hba) as H. by rewrite Hrefl in H.
    + destruct (String_as_OT.compare_spec b a) as [->|H|H]; [|done|].
      * by rewrite Hrefl in Hab.
      * unfold String_as_OT.lt in H. congruence.
  - intros a b c Hab. apply Heq in Hab. by subst.
Qed.

Lemma lex_ok {A B : Type} (cmpA : A -> A -> comparison)
    (cmpB : B -> B -> comparison) :
  cmp_ok cmpA -> cmp_ok cmpB -> cmp_ok (lex cmpA cmpB).
Proof.
  intros HA HB. split.
  - intros [a1 b1] [a2 b2]. unfold lex. simpl.
    rewrite (cmp_antisym cmpA HA a1 a2), (cmp_antisym cmpB HB b1 b2).
    by destruct (cmpA a1 a2).
  - intros [a1 b1] [a2 b2] [a3 b3]. unfold lex. simpl.
    destruct (cmpA a1 a2) eqn:E12; try done;
      destruct (cmpA a2 a3) eqn:E23; try done; intros H1 H2.
    + rewrite (cmp_eq_l cmpA HA a1 a2 a3 E12), E23.
      by apply (cmp_lt_trans cmpB HB b1 b2 b3).
    + by rewrite (cmp_eq_l cmpA HA a1 a2 a3 E12), E23.
    + assert (E32 : cmpA a3 a2 = Eq)
        by (by rewrite (cmp_antisym cmpA HA a2 a3), E23).
      assert (E31 : cmpA a3 a1 = Gt).
      { rewrite (cmp_eq_l cmpA HA a3 a2 a1 E32).
        by rewrite (cmp_antisym cmpA HA a1 a2), E12. }
      rewrite (cmp_antisym cmpA HA a3 a1), E31. done.
    + by rewrite (cmp_lt_trans cmpA HA a1 a2 a3 E12 E23).
  - intros [a1 b1] [a2 b2] [a3 b3]. unfold lex. simpl.
    destruct (cmpA a1 a2) eqn:E12; try done. intros H.
    rewrite (cmp_eq_l cmpA HA a1 a2 a3 E12).
    destruct (cmpA a2 a3); try done. by apply (cmp_eq_l cmpB HB).
Qed.

Lemma pullback_ok {A B : Type} (f : A -> B) (cmp : B -> B -> comparison) :
  cmp_ok cmp -> cmp_ok (fun x y => cmp (f x) (f y)).
Proof.
  intros H. split.
  - intros a b. apply (cmp_antisym cmp H).
  - intros a b c. apply (cmp_lt_trans cmp H).
  - intros a b c. apply (cmp_eq_l cmp H).
Qed.

Lemma float_cmp_ok : cmp_ok float_cmp.
Proof.
  unfold float_cmp.
  apply (pullback_ok float_rank (lex (lex Z.compare Z.compare) Z.compare)).
  repeat apply lex_ok; apply Z_compare_ok.
Qed.

Lemma key_fzs_cmp_ok : cmp_ok key_fzs_cmp.
Proof.
  unfold key_fzs_cmp. repeat apply lex_ok;
    [apply float_cmp_ok | apply Z_compare_ok | apply string_compare_ok].
Qed.

(** On floats other than NaN the IEEE comparison is [float_cmp]. *)
Lemma SFcompare_float_cmp (x y : float) :
  is_nan x = false -> is_nan y = false ->
  SFcompare x y = Some (float_cmp x y).
Proof.
  unfold float_cmp, lex.
  destruct x as [[]|[]| |[] m1 e1], y as [[]|[]| |[] m2 e2];
    try discriminate; intros _ _; try reflexivity; simpl.
  - rewrite Z.compare_opp, (Z.compare_antisym e1 e2).
    destruct (e1 ?= e2); simpl; done.
Qed.

Lemma feqb_float_cmp (x y : float) :
  is_nan x = false -> is_nan y = false ->
  feqb x y = match float_cmp x y with Eq => true | _ => false end.
Proof.
  intros Hx Hy. unfold feqb, SFeqb. by rewrite SFcompare_float_cmp.
Qed.

Lemma fltb_float_cmp (x y : float) :
  is_nan x = false -> is_nan y = false -> fltb x y = lt_of float_cmp x y.
Proof.
  intros Hx Hy. unfold fltb, SFltb, lt_of. by rewrite SFcompare_float_cmp.
Qed.

(** The tuple comparison of the sort keys is the lexicographic one. *)
Lemma key_fzs_lt_cmp (a b : float * Z * string) :
  is_nan (fst (fst a)) = false -> is_nan (fst (fst b)) = false ->
  key_fzs_lt a b = lt_of key_fzs_cmp a b.
Proof.
  destruct a as [[f1 z1] s1], b as [[f2 z2] s2]. simpl. intros H1 H2.
  unfold key_fzs_lt, key_fzs_cmp, lt_of, lex, str_lt. simpl.
  rewrite feqb_float_cmp, fltb_float_cmp by done. unfold lt_of.
  destruct (float_cmp f1 f2); simpl; try done.
  destruct (Z.compare_spec z1 z2) as [->|H|H].
  - by rewrite Z.eqb_refl.
  - destruct (z1 =? z2) eqn:E; [lia|]. simpl. lia.
  - destruct (z1 =? z2) eqn:E; [lia|]. simpl. lia.
Qed.

(** ** The statistics accumulated over a league *)

Lemma league_round_unfold (db : DB) (st : list (Z * Stats)) (r : Round) :
  league_round db st r =
  match scored_players db r with
  | [] => st
  | _ =>
      let st1 := fold_left (base_step db r) (scored_players db r) st in
      match round_f1 db r with
      | None => st1
      | Some (winners, points) => fold_left (f1_step points) winners st1
      end
  end.
Proof. reflexivity. Qed.

Lemma stats_lookup_elem (st : list (Z * Stats)) (pid : Z) (s : Stats) :
  stats_lookup st pid = Some s -> (pid, s) ∈ st.
Proof.
  unfold stats_lookup. intros H.
  destruct (head _) as [[k v]|] eqn:Hh; [|done]. simpl in H.
  injection H as ->. apply head_Some_elem_of in Hh.
  apply list_elem_of_filter in Hh as [Hk Hin]. simpl in Hk. by subst.
Qed.

Lemma stats_elem_lookup (st : list (Z * Stats)) (pid : Z) (s : Stats) :
  NoDup (fst <$> st) -> (pid, s) ∈ st -> stats_lookup st pid = Some s.
Proof.
  unfold stats_lookup. induction st as [|[k v] st IH]; intros Hnd Hin.
  - by apply elem_of_nil in Hin.
  - rewrite fmap_cons in Hnd. apply NoDup_cons in Hnd as [Hk Hnd].
    apply elem_of_cons in Hin as [[= <- <-]|Hin].
    + by rewrite filter_cons_True.
    + rewrite filter_cons_False; [by apply IH|]. simpl. intros ->.
      apply Hk. apply list_elem_of_fmap. by exists (pid, s).
Qed.

Lemma stats_set_keys (st : list (Z * Stats)) (k : Z) (s : Stats) :
  fst <$> stats_set st k s =
  if decide (k ∈ fst <$> st) then fst <$> st else (fst <$> st) ++ [k].
Proof.
  induction st as [|[k' v] st IH]; [reflexivity|].
  cbn [stats_set]. destruct (k' =? k) eqn:E.
  - rewrite !fmap_cons. cbn [fst].
    assert (k' = k) as -> by lia. rewrite decide_True by left. done.
  - rewrite !fmap_cons, IH. cbn [fst].
    destruct (decide (k ∈ fst <$> st)) as [Hin|Hin].
    + rewrite decide_True by (by right). done.
    + rewrite decide_False; [done|].
      intros [?|?]%elem_of_cons; [lia|done].
Qed.

Lemma stats_set_NoDup (st : list (Z * Stats)) (k : Z) (s : Stats) :
  NoDup (fst <$> st) -> NoDup (fst <$> stats_set st k s).
Proof.
  intros Hnd. rewrite stats_set_keys. case_decide as Hin; [done|].
  apply NoDup_app. split; [done|]. split; [|apply NoDup_singleton].
  intros x Hx Hx'. apply list_elem_of_singleton in Hx'. by subst.
Qed.

Lemma stats_set_Forall (P : Z * Stats -> Prop) (st : list (Z * Stats))
    (k : Z) (s : Stats) :
  Forall P st -> P (k, s) -> Forall P (stats_set st k s).
Proof.
  intros Hst Hs. induction st as [|[k' v] st IH]; simpl.
  - by constructor.
  - apply Forall_cons in Hst as [Hv Hst]. destruct (k' =? k) eqn:E.
    + assert (k' = k) as -> by lia. by constructor.
    + constructor; [done | by apply IH].
Qed.

Lemma stats_get_entry_ok (st : list (Z * Stats)) (k : Z) :
  Forall entry_ok st -> entry_ok (k, stats_get st k).
Proof.
  intros Hst. unfold stats_get.
  destruct (stats_lookup st k) as [s|] eqn:Hl; simpl.
  - apply stats_lookup_elem in Hl. by eapply Forall_forall in Hst.
  - intros p Hp. discriminate.
Qed.

Lemma player_of_id (db : DB) (rp : RoundPlayer) (p : Player) :
  player_of db rp = Some p -> p_id p = player_id rp.
Proof.
  unfold player_of. intros H. apply head_Some_elem_of in H.
  apply list_elem_of_filter in H. tauto.
Qed.

(** The invariants of [stats]: distinct keys, and players matching keys. *)
Lemma base_step_inv (db : DB) (r : Round) (st : list (Z * Stats))
    (rp : RoundPlayer) :
  NoDup (fst <$> st) /\ Forall entry_ok st ->
  NoDup (fst <$> base_step db r st rp) /\ Forall entry_ok (base_step db r st rp).
Proof.
  intros [Hnd Hok]. unfold base_step. split; [by apply stats_set_NoDup|].
  apply stats_set_Forall; [done|].
  pose proof (stats_get_entry_ok st (player_id rp) Hok) as Hget.
  intros p. simpl.
  destruct (s_player (stats_get st (player_id rp))) as [q|] eqn:Hq.
  - intros [= <-]. by apply Hget.
  - apply player_of_id.
Qed.

Lemma f1_step_inv (points : float) (st : list (Z * Stats)) (rp : RoundPlayer) :
  NoDup (fst <$> st) /\ Forall entry_ok st ->
  NoDup (fst <$> f1_step points st rp) /\ Forall entry_ok (f1_step points st rp).
Proof.
  intros [Hnd Hok]. unfold f1_step. split; [by apply stats_set_NoDup|].
  apply stats_set_Forall; [done|].
  exact (stats_get_entry_ok st (player_id rp) Hok).
Qed.

Lemma fold_left_inv {A S : Type} (P : S -> Prop) (f : S -> A -> S)
    (l : list A) (s : S) :
  (forall s x, P s -> P (f s x)) -> P s -> P (fold_left f l s).
Proof.
  intros Hf. revert s. induction l as [|x l IH]; intros s Hs; simpl; [done|].
  by apply IH, Hf.
Qed.

Lemma league_round_inv (db : DB) (st : list (Z * Stats)) (r : Round) :
  NoDup (fst <$> st) /\ Forall entry_ok st ->
  NoDup (fst <$> league_round db st r) /\ Forall entry_ok (league_round db st r).
Proof.
  intros Hst. rewrite league_round_unfold.
  destruct (scored_players db r) as [|rp0 rps0]; [done|].
  cbv zeta.
  assert (H1 : NoDup (fst <$> fold_left (base_step db r) (rp0 :: rps0) st) /\
               Forall entry_ok (fold_left (base_step db r) (rp0 :: rps0) st)).
  { apply (fold_left_inv (fun st => NoDup (fst <$> st) /\ Forall entry_ok st));
      [|done]. intros s x. apply base_step_inv. }
  destruct (round_f1 db r) as [[winners points]|]; [|done].
  apply (fold_left_inv (fun st => NoDup (fst <$> st) /\ Forall entry_ok st));
    [|done]. intros s x. apply f1_step_inv.
Qed.

Lemma league_stats_inv (db : DB) (rounds : list Round) :
  NoDup (fst <$> league_stats db rounds) /\
  Forall entry_ok (league_stats db rounds).
Proof.
  unfold league_stats.
  apply (fold_left_inv (fun st => NoDup (fst <$> st) /\ Forall entry_ok st)).
  - intros s r. apply league_round_inv.
  - split; constructor.
Qed.

(** A field of the statistics that every participation increases by its
    contribution adds up to the total over the participations. *)
Section field_totals.
Variable fld : Stats -> Z.
Variable c : RoundPlayer -> Z.
Hypothesis fld_round : forall db r s rp,
  fld (stats_add_round db r s rp) = fld s + c rp.
Hypothesis fld_f1 : forall s points, fld (stats_add_f1 s points) = fld s.

Lemma base_fold_field (db : DB) (r : Round) (rps : list RoundPlayer)
    (st : list (Z * Stats)) (pid : Z) :
  fld (stats_get (fold_left (base_step db r) rps st) pid) =
  fld (stats_get st pid) +
  total_of c (filter (fun rp => player_id rp = pid) rps).
Proof.
  revert st. induction rps as [|rp rps IH]; intros st; [simpl; lia|].
  cbn [fold_left]. rewrite IH. unfold base_step.
  destruct (decide (player_id rp = pid)) as [<-|Hne].
  - rewrite filter_cons_True by done.
    rewrite stats_get_set_eq, fld_round. simpl. lia.
  - rewrite filter_cons_False by done. by rewrite stats_get_set_ne.
Qed.

Lemma f1_fold_field (points : float) (winners : list RoundPlayer)
    (st : list (Z * Stats)) (pid : Z) :
  fld (stats_get (fold_left (f1_step points) winners st) pid) =
  fld (stats_get st pid).
Proof.
  revert st. induction winners as [|rp rps IH]; intros st; [done|].
  cbn [fold_left]. rewrite IH. unfold f1_step.
  destruct (decide (player_id rp = pid)) as [<-|Hne].
  - by rewrite stats_get_set_eq, fld_f1.
  - by rewrite stats_get_set_ne.
Qed.

Lemma league_round_field (db : DB) (st : list (Z * Stats)) (r : Round) (pid : Z) :
  fld (stats_get (league_round db st r) pid) =
  fld (stats_get st pid) +
  total_of c (filter (fun rp => player_id rp = pid) (scored_players db r)).
Proof.
  rewrite league_round_unfold.
  destruct (scored_players db r) as [|rp0 rps0] eqn:Hs; [simpl; lia|].
  cbv zeta. destruct (round_f1 db r) as [[winners points]|].
  - by rewrite f1_fold_field, base_fold_field.
  - by rewrite base_fold_field.
Qed.

Lemma total_of_app (l1 l2 : list RoundPlayer) :
  total_of c (l1 ++ l2) = total_of c l1 + total_of c l2.
Proof. induction l1 as [|x l1 IH]; simpl; [done|]. rewrite IH. lia. Qed.

Lemma league_fold_field (db : DB) (rounds : list Round)
    (st : list (Z * Stats)) (pid : Z) :
  fld (stats_get (fold_left (league_round db) rounds st) pid) =
  fld (stats_get st pid) + total_of c (participations db rounds pid).
Proof.
  revert st. induction rounds as [|r rounds IH]; intros st; [simpl; lia|].
  cbn [fold_left]. rewrite IH, league_round_field.
  assert (participations db (r :: rounds) pid =
          filter (fun rp => player_id rp = pid) (scored_players db r) ++
          participations db rounds pid) as -> by reflexivity.
  rewrite total_of_app. lia.
Qed.

Lemma league_stats_field (db : DB) (rounds : list Round) (pid : Z) :
  fld stats_default = 0 ->
  fld (stats_get (league_stats db rounds) pid) =
  total_of c (participations db rounds pid).
Proof.
  intros H0. unfold league_stats. rewrite league_fold_field.
  unfold stats_get at 1. simpl. lia.
Qed.
End field_totals.

Lemma total_of_len (rps : list RoundPlayer) :
  total_of (fun _ => 1) rps = len rps.
Proof. unfold len. induction rps as [|x l IH]; simpl; [done|]. rewrite IH. lia. Qed.

Lemma total_of_sum (col : RoundPlayer -> option Z) (rps : list RoundPlayer) :
  total_of (fun rp => default 0 (col rp)) rps = sum_of col rps.
Proof. reflexivity. Qed.

Lemma total_of_count (col : RoundPlayer -> option Z) (rps : list RoundPlayer) :
  total_of (fun rp => if bool_decide (is_Some (col rp)) then 1 else 0) rps =
  count_of col rps.
Proof.
  unfold count_of, len. induction rps as [|x l IH]; simpl; [done|].
  rewrite filter_cons. rewrite IH.
  destruct (decide (is_Some (col x))) as [H|H].
  - rewrite bool_decide_eq_true_2 by done. simpl. lia.
  - rewrite bool_decide_eq_false_2 by done. lia.
Qed.

(** The statistics of a player after the loop over the rounds. *)
Lemma league_stats_totals (db : DB) (rounds : list Round) (pid : Z) :
  let s := stats_get (league_stats db rounds) pid in
  let ps := participations db rounds pid in
  s_rounds s = len ps /\
  s_net_sum s = sum_of net_total ps /\
  s_net_count s = count_of net_total ps /\
  s_scratch_sum s = sum_of stableford_scratch_total ps.
Proof.
  simpl. repeat split.
  - rewrite <- total_of_len. by apply league_stats_field.
  - rewrite <- total_of_sum. by apply league_stats_field.
  - rewrite <- total_of_count. apply league_stats_field; [|done|done].
    intros. simpl. unfold incr_if. case_bool_decide; lia.
  - rewrite <- total_of_sum. by apply league_stats_field.
Qed.

(** ** The tables of the standings *)

Lemma map_py_Forall2 {A B : Type} (f : A -> py B) (xs : list A) (ys : list B) :
  map_py f xs = Ok ys -> Forall2 (fun x y => f x = Ok y) xs ys.
Proof.
  revert ys. induction xs as [|x xs IH]; intros ys H; simpl in H.
  - injection H as <-. constructor.
  - apply bind_Ok in H as (y & Hy & H).
    apply bind_Ok in H as (ys' & Hys & H). injection H as <-.
    constructor; [done | by apply IH].
Qed.

Lemma map_py_ok {A B : Type} (f : A -> py B) (xs : list A) :
  (forall x, x ∈ xs -> exists y, f x = Ok y) -> exists ys, map_py f xs = Ok ys.
Proof.
  induction xs as [|x xs IH]; intros H; simpl; [by eexists|].
  destruct (H x) as [y Hy]; [left|]. rewrite Hy. simpl.
  destruct IH as [ys Hys]; [intros x' Hx'; apply H; by right|].
  rewrite Hys. simpl. by eexists.
Qed.

Lemma sorted_by_key_inv {A K : Type} (key : A -> py K) (lt : K -> K -> bool)
    (rows out : list A) :
  sorted_by_key key lt rows = Ok out ->
  exists keys,
    Forall2 (fun row k => key row = Ok k) rows keys /\
    out = (sorted (fun a b => lt (fst a) (fst b)) (zip keys rows)).*2.
Proof.
  unfold sorted_by_key. intros H.
  apply bind_Ok in H as (keys & Hkeys & H). injection H as <-.
  exists keys. split; [by apply map_py_Forall2 | done].
Qed.

Lemma sorted_by_key_perm {A K : Type} (key : A -> py K) (lt : K -> K -> bool)
    (rows out : list A) :
  sorted_by_key key lt rows = Ok out -> out ≡ₚ rows.
Proof.
  intros H. apply sorted_by_key_inv in H as (keys & Hkeys & ->).
  rewrite sorted_perm. rewrite snd_zip; [done|].
  apply Forall2_length in Hkeys. lia.
Qed.

Lemma sorted_by_key_has_key {A K : Type} (key : A -> py K) (lt : K -> K -> bool)
    (rows out : list A) (row : A) :
  sorted_by_key key lt rows = Ok out -> row ∈ out -> exists k, key row = Ok k.
Proof.
  intros H Hrow. pose proof (sorted_by_key_perm _ _ _ _ H) as Hperm.
  apply sorted_by_key_inv in H as (keys & Hkeys & _).
  rewrite Hperm in Hrow. apply list_elem_of_lookup in Hrow as [i Hi].
  destruct (Forall2_lookup_l _ _ _ _ _ Hkeys Hi) as (k & _ & Hk). eauto.
Qed.

Lemma champion_ids_spec (ps : list (option Player)) (ids : list Z) (pid : Z) :
  champion_ids ps = Ok ids ->
  pid ∈ ids <-> exists p, Some p ∈ ps /\ p_id p = pid.
Proof.
  unfold champion_ids. intros H. apply map_py_Forall2 in H.
  split.
  - intros Hin. apply list_elem_of_lookup in Hin as [i Hi].
    destruct (Forall2_lookup_r _ _ _ _ _ H Hi) as (p & Hp & Hattr).
    destruct p as [p|]; [|discriminate]. injection Hattr as <-.
    exists p. split; [|done]. by eapply list_elem_of_lookup_2.
  - intros (p & Hin & <-). apply list_elem_of_lookup in Hin as [i Hi].
    destruct (Forall2_lookup_l _ _ _ _ _ H Hi) as (id & Hid & Hattr).
    injection Hattr as <-. by eapply list_elem_of_lookup_2.
Qed.

Lemma list_elem_of_not_nil_inv {A : Type} (l : list A) :
  (forall x, x ∉ l) -> l = [].
Proof. destruct l as [|x l]; [done|]. intros H. destruct (H x). left. Qed.

(** The steps of [compute_league_standings] when it returns. *)
Lemma standings_inv (db : DB) (league : League) (rounds : list Round)
    (st : Standings) :
  compute_league_standings db league rounds = Ok st ->
  let entries := (league_stats db rounds).*2 in
  exists net_opts,
    map_py net_row entries = Ok net_opts /\
    sorted_by_key net_key key_fzs_lt (omap id net_opts) = Ok (st_net st) /\
    sorted_by_key scratch_key key_zzs_lt (omap scratch_row entries)
      = Ok (st_scratch st) /\
    champion_ids (if league_closed league then net_champions (st_net st) else [])
      = Ok (champ_net_players st) /\
    champion_ids
      (if league_closed league then scratch_champions (st_scratch st) else [])
      = Ok (champ_scratch_players st).
Proof.
  unfold compute_league_standings. intros H.
  apply bind_Ok in H as (net_opts & Hnet & H).
  apply bind_Ok in H as (ptable & Hptable & H).
  apply bind_Ok in H as (main_rows & Hmain & H).
  apply bind_Ok in H as (net_rows & Hnets & H).
  apply bind_Ok in H as (scratch_rows & Hscr & H).
  apply bind_Ok in H as (ptable' & Hptable' & H).
  apply bind_Ok in H as (main_ids & Hmi & H).
  apply bind_Ok in H as (net_ids & Hni & H).
  apply bind_Ok in H as (scratch_ids & Hsi & H).
  injection H as <-. simpl. exists net_opts. by repeat split.
Qed.

(** Every entry of [stats] is the statistics of its key. *)
Lemma league_stats_entry (db : DB) (rounds : list Round) (s : Stats) :
  s ∈ (league_stats db rounds).*2 ->
  exists pid,
    stats_get (league_stats db rounds) pid = s /\
    forall p, s_player s = Some p -> p_id p = pid.
Proof.
  intros Hs. apply list_elem_of_fmap in Hs as ([pid s'] & -> & Hin). simpl.
  destruct (league_stats_inv db rounds) as [Hnd Hok].
  exists pid. split.
  - unfold stats_get. by rewrite (stats_elem_lookup _ pid s' Hnd Hin).
  - eapply Forall_forall in Hok; [|exact Hin]. exact Hok.
Qed.

Lemma scratch_row_inv (s : Stats) (row : ScratchRow) :
  scratch_row s = Some row ->
  0 < s_scratch_sum s /\ sr_player row = s_player s /\
  sr_total_scratch row = s_scratch_sum s /\ sr_rounds row = s_rounds s.
Proof.
  unfold scratch_row. destruct (0 <? s_scratch_sum s) eqn:E; [|discriminate].
  intros [= <-]. simpl. repeat split; try done. lia.
Qed.

Lemma scratch_champions_sub (rows : list ScratchRow) (p : option Player) :
  p ∈ scratch_champions rows -> exists row, row ∈ rows /\ sr_player row = p.
Proof.
  unfold scratch_champions. destruct rows as [|first rest].
  - intros H. by apply elem_of_nil in H.
  - intros H. apply list_elem_of_fmap in H as (row & -> & H).
    apply list_elem_of_filter in H as [_ H]. eauto.
Qed.

(** The rows of the scratch table. *)
Lemma scratch_table_rows (db : DB) (league : League) (rounds : list Round)
    (st : Standings) (row : ScratchRow) :
  compute_league_standings db league rounds = Ok st ->
  row ∈ st_scratch st ->
  exists p,
    sr_player row = Some p /\
    sr_rounds row = len (participations db rounds (p_id p)) /\
    sr_total_scratch row =
      sum_of stableford_scratch_total (participations db rounds (p_id p)) /\
    0 < sr_total_scratch row.
Proof.
  intros H Hrow.
  apply standings_inv in H as (net_opts & _ & _ & Hscr & _).
  destruct (sorted_by_key_has_key _ _ _ _ _ Hscr Hrow) as [k Hk].
  unfold scratch_key in Hk. destruct (sr_player row) as [p|] eqn:Hp;
    [|discriminate].
  apply sorted_by_key_perm in Hscr. rewrite Hscr in Hrow.
  apply list_elem_of_omap in Hrow as (s & Hs & Hrow).
  apply scratch_row_inv in Hrow as (Hpos & Hpl & Htot & Hrounds).
  apply league_stats_entry in Hs as (pid & Hget & Hpid).
  assert (pid = p_id p) as -> by (symmetry; apply Hpid; congruence).
  destruct (league_stats_totals db rounds (p_id p)) as (Hr & _ & _ & Hsum).
  rewrite Hget in Hr, Hsum.
  exists p. repeat split; try done; lia.
Qed.

(** C10. A player whose scratch-Stableford points over the participations
    that count in the league sum to 0 has no row in the scratch table and
    is never a scratch champion; when every player's sum is 0 the scratch
    table and the scratch champions are empty, closed league or not. Every
    row of the scratch table carries a positive total. *)
Theorem scratch_zero_never_champion (db : DB) (league : League)
    (rounds : list Round) (st : Standings) :
  compute_league_standings db league rounds = Ok st ->
  (forall row, row ∈ st_scratch st ->
     exists p, sr_player row = Some p /\
       sr_total_scratch row =
         sum_of stableford_scratch_total (participations db rounds (p_id p)) /\
       0 < sr_total_scratch row) /\
  (forall pid, pid ∈ champ_scratch_players st ->
     exists row p, row ∈ st_scratch st /\ sr_player row = Some p /\ p_id p = pid) /\
  (forall pid,
     sum_of stableford_scratch_total (participations db rounds pid) = 0 ->
     (forall row p, row ∈ st_scratch st -> sr_player row = Some p -> p_id p <> pid) /\
     pid ∉ champ_scratch_players st) /\
  ((forall pid,
      sum_of stableford_scratch_total (participations db rounds pid) = 0) ->
   st_scratch st = [] /\ champ_scratch_players st = []).
Proof.
  intros H.
  assert (Hrows : forall row, row ∈ st_scratch st ->
     exists p, sr_player row = Some p /\
       sr_total_scratch row =
         sum_of stableford_scratch_total (participations db rounds (p_id p)) /\
       0 < sr_total_scratch row).
  { intros row Hrow.
    destruct (scratch_table_rows db league rounds st row H Hrow)
      as (p & Hp & _ & Hsum & Hpos). eauto. }
  assert (Hchamp : forall pid, pid ∈ champ_scratch_players st ->
     exists row p, row ∈ st_scratch st /\ sr_player row = Some p /\ p_id p = pid).
  { intros pid Hpid.
    pose proof H as Hinv.
    apply standings_inv in Hinv as (net_opts & _ & _ & _ & _ & Hids).
    apply (champion_ids_spec _ _ pid Hids) in Hpid as (p & Hp & Hid).
    destruct (league_closed league); [|by apply elem_of_nil in Hp].
    apply scratch_champions_sub in Hp as (row & Hrow & Hpl). eauto. }
  assert (Hzero : forall pid,
     sum_of stableford_scratch_total (participations db rounds pid) = 0 ->
     forall row p, row ∈ st_scratch st -> sr_player row = Some p -> p_id p <> pid).
  { intros pid H0 row p Hrow Hp Hid.
    destruct (Hrows row Hrow) as (p' & Hp' & Hsum & Hpos).
    assert (p' = p) as -> by congruence. rewrite Hid in Hsum. lia. }
  split; [exact Hrows|]. split; [exact Hchamp|]. split.
  - intros pid H0. split; [by apply Hzero|].
    intros Hin. destruct (Hchamp pid Hin) as (row & p & Hrow & Hp & Hid).
    by apply (Hzero pid H0 row p).
  - intros Hall.
    assert (Hnil : st_scratch st = []).
    { apply list_elem_of_not_nil_inv. intros row Hrow.
      destruct (Hrows row Hrow) as (p & Hp & Hsum & Hpos).
      rewrite Hall in Hsum. lia. }
    split; [done|].
    apply standings_inv in H as (net_opts & _ & _ & _ & _ & Hids).
    rewrite Hnil in Hids. simpl in Hids.
    destruct (league_closed league); simpl in Hids; by injection Hids.
Qed.

(** ** Sorting on keys *)

Lemma sorted_insert_ext {A : Type} (lt lt' : A -> A -> bool) (x : A) (l : list A) :
  (forall y, y ∈ l -> lt x y = lt' x y) ->
  sorted_insert lt x l = sorted_insert lt' x l.
Proof.
  induction l as [|y l IH]; intros H; simpl; [done|].
  rewrite (H y) by left. rewrite IH; [done|]. intros z Hz. apply H. by right.
Qed.

Lemma fold_insert_ext {A : Type} (lt lt' : A -> A -> bool) (l acc : list A) :
  (forall x y, x ∈ acc ++ l -> y ∈ acc ++ l -> lt x y = lt' x y) ->
  fold_left (fun acc x => sorted_insert lt x acc) l acc =
  fold_left (fun acc x => sorted_insert lt' x acc) l acc.
Proof.
  revert acc. induction l as [|x l IH]; intros acc H; simpl; [done|].
  assert (Hsub : forall a, a ∈ sorted_insert lt' x acc ++ l -> a ∈ acc ++ x :: l).
  { intros a. rewrite !elem_of_app, sorted_insert_perm, !elem_of_cons. tauto. }
  rewrite (sorted_insert_ext lt lt' x acc).
  - apply IH. intros a b Ha Hb. apply H; by apply Hsub.
  - intros y Hy. apply H; rewrite elem_of_app, elem_of_cons; tauto.
Qed.

Lemma sorted_ext {A : Type} (lt lt' : A -> A -> bool) (l : list A) :
  (forall x y, x ∈ l -> y ∈ l -> lt x y = lt' x y) ->
  sorted lt l = sorted lt' l.
Proof. intros H. unfold sorted. by apply fold_insert_ext. Qed.

Lemma StronglySorted_fmap_on {A B : Type} (f : A -> B) (R : relation A)
    (R' : relation B) (Q : A -> Prop) (l : list A) :
  (forall x y, R x y -> Q x -> Q y -> R' (f x) (f y)) ->
  StronglySorted R l -> Forall Q l -> StronglySorted R' (f <$> l).
Proof.
  intros HR. induction 1 as [|x l Hl IH Hx]; intros HQ; csimpl; [constructor|].
  apply Forall_cons in HQ as [Hqx HQ]. constructor; [by apply IH|].
  apply Forall_fmap, Forall_forall. intros y Hy.
  apply HR; [|done|].
  - by eapply Forall_forall in Hx.
  - by eapply Forall_forall in HQ.
Qed.

Lemma zip_elem_Forall2 {A K : Type} (R : A -> K -> Prop) (rows : list A)
    (keys : list K) (k : K) (row : A) :
  Forall2 R rows keys -> (k, row) ∈ zip keys rows -> R row k /\ row ∈ rows.
Proof.
  intros H. revert keys H. induction rows as [|r rows IH]; intros keys H Hin.
  - inversion H; subst. by apply elem_of_nil in Hin.
  - inversion H as [|? k0 ? keys' Hr Hrest]; subst. simpl in Hin.
    apply elem_of_cons in Hin as [[= -> ->]|Hin].
    + split; [done|left].
    + destruct (IH keys' Hrest Hin) as [? ?]. split; [done|by right].
Qed.

(** The output of [sorted(rows, key=...)] is ordered by the keys when the
    tuple comparison is a total preorder on the keys at hand. *)
Lemma sorted_by_key_sorted {A K : Type} (key : A -> py K) (lt : K -> K -> bool)
    (cmp : K -> K -> comparison) (P : K -> Prop) (rows out : list A) :
  cmp_ok cmp ->
  (forall k1 k2, P k1 -> P k2 -> lt k1 k2 = lt_of cmp k1 k2) ->
  (forall row k, row ∈ rows -> key row = Ok k -> P k) ->
  sorted_by_key key lt rows = Ok out ->
  StronglySorted
    (fun a b => exists ka kb,
       key a = Ok ka /\ key b = Ok kb /\ lt_of cmp kb ka = false) out.
Proof.
  intros Hok Hlt HP H.
  apply sorted_by_key_inv in H as (keys & Hkeys & ->).
  set (zipped := zip keys rows).
  assert (Hz : forall e, e ∈ zipped -> key (snd e) = Ok (fst e) /\ P (fst e)).
  { intros [k row] He. simpl.
    destruct (zip_elem_Forall2 _ _ _ _ _ Hkeys He) as [Hk Hrow].
    split; [done | by eapply HP]. }
  rewrite (sorted_ext _ (fun a b => lt_of cmp (fst a) (fst b))).
  2:{ intros x y Hx Hy. apply Hlt; by apply Hz. }
  eapply (StronglySorted_fmap_on snd _ _ (fun e => key (snd e) = Ok (fst e))).
  - intros x y Hxy Hx Hy. exists (fst x), (fst y). split; [done|].
    split; [done|]. exact Hxy.
  - apply sorted_sorted.
    + intros a b. by apply lt_of_asym.
    + intros a b c. unfold le_of. by apply lt_of_le_trans.
  - apply Forall_forall. intros e He. rewrite sorted_perm in He.
    by apply Hz.
Qed.

(** ** Quotients of ints are never NaN *)

Lemma iter_pos_inv {A : Type} (P : A -> Prop) (f : A -> A) :
  (forall a, P a -> P (f a)) -> forall p a, P a -> P (SpecFloat.iter_pos f p a).
Proof.
  intros Hf. induction p as [p IH|p IH|]; intros a Ha; simpl; auto.
Qed.

Lemma shr_1_nonneg (mrs : shr_record) :
  0 <= shr_m mrs -> 0 <= shr_m (shr_1 mrs).
Proof.
  destruct mrs as [m r s]. simpl.
  destruct m as [|[p|p|]|[p|p|]]; simpl; lia.
Qed.

Lemma shr_fexp_nonneg (m e : Z) (l : location) :
  0 <= m -> 0 <= shr_m (fst (shr_fexp prec emax m e l)).
Proof.
  intros Hm. unfold shr_fexp, shr.
  assert (H0 : 0 <= shr_m (shr_record_of_loc m l))
    by (by destruct l as [|[]]).
  destruct (fexp prec emax (Zdigits2 m + e) - e) as [|p|p]; simpl; try done.
  by apply (iter_pos_inv (fun mrs => 0 <= shr_m mrs) shr_1 shr_1_nonneg).
Qed.

Lemma round_nearest_even_nonneg (m : Z) (l : location) :
  0 <= m -> 0 <= round_nearest_even m l.
Proof.
  intros Hm. destruct l as [|[]]; simpl; try lia. destruct (Z.even m); lia.
Qed.

Lemma binary_round_aux_not_nan (sx : bool) (mx ex : Z) (lx : location) :
  0 <= mx -> is_nan (binary_round_aux prec emax sx mx ex lx) = false.
Proof.
  intros Hm. unfold binary_round_aux.
  pose proof (shr_fexp_nonneg mx ex lx Hm) as H1.
  destruct (shr_fexp prec emax mx ex lx) as [mrs' e']. simpl in H1.
  pose proof (shr_fexp_nonneg _ e' loc_Exact
    (round_nearest_even_nonneg _ (loc_of_shr_record mrs') H1)) as H2.
  destruct (shr_fexp prec emax _ e' loc_Exact) as [mrs'' e'']. simpl in H2.
  destruct (shr_m mrs'') as [|p|p]; [done| |lia].
  by destruct (e'' <=? emax - prec).
Qed.

Lemma SFdiv_core_nonneg (m1 m2 : positive) (e1 e2 : Z) :
  0 <= fst (fst (SFdiv_core_binary prec emax (Zpos m1) e1 (Zpos m2) e2)).
Proof.
  unfold SFdiv_core_binary.
  set (s := _ - _ - _).
  set (m' := match s with Z0 => Z.pos m1 | Z.pos _ => _ | Z.neg _ => 0 end).
  assert (Hm' : 0 <= m').
  { unfold m'. destruct s; try lia. apply Z.shiftl_nonneg. lia. }
  pose proof (Z.div_pos m' (Z.pos m2) Hm' ltac:(lia)) as Hq.
  unfold Z.div in Hq. by destruct (Z.div_eucl m' (Z.pos m2)).
Qed.

Lemma int_truediv_not_nan (a b : Z) (q : float) :
  int_truediv a b = Ok q -> is_nan q = false.
Proof.
  unfold int_truediv. destruct (b =? 0) eqn:Hb; [discriminate|].
  intros [= <-]. unfold fdiv.
  destruct a as [|ma|ma], b as [|mb|mb]; try done; simpl;
    match goal with
    | |- context [SFdiv_core_binary ?p ?x (Z.pos ?m1) ?e1 (Z.pos ?m2) ?e2] =>
        pose proof (SFdiv_core_nonneg m1 m2 e1 e2) as Hq;
        destruct (SFdiv_core_binary p x (Z.pos m1) e1 (Z.pos m2) e2)
          as [[mz ez] lz]; simpl in Hq;
        by apply binary_round_aux_not_nan
    end.
Qed.

(** ** The net table and its champions *)

Lemma net_row_inv (s : Stats) (row : NetRow) :
  net_row s = Ok (Some row) ->
  0 < s_net_count s /\
  int_truediv (s_net_sum s) (s_net_count s) = Ok (nr_avg_net row) /\
  nr_player row = s_player s /\ nr_rounds row = s_rounds s.
Proof.
  unfold net_row. destruct (0 <? s_net_count s) eqn:E; [|discriminate].
  intros H. apply bind_Ok in H as (avg & Havg & H). injection H as <-.
  simpl. repeat split; try done. lia.
Qed.

Lemma net_row_some (s : Stats) :
  0 < s_net_count s -> exists row, net_row s = Ok (Some row).
Proof.
  intros H. unfold net_row, int_truediv.
  destruct (0 <? s_net_count s) eqn:E; [|lia].
  destruct (s_net_count s =? 0) eqn:E0; [lia|]. simpl. by eexists.
Qed.

Lemma net_rows_elem (entries : list Stats) (net_opts : list (option NetRow))
    (row : NetRow) :
  map_py net_row entries = Ok net_opts ->
  row ∈ omap id net_opts <->
  exists s, s ∈ entries /\ net_row s = Ok (Some row).
Proof.
  intros H. apply map_py_Forall2 in H. rewrite list_elem_of_omap. split.
  - intros (o & Ho & Hid). simpl in Hid. subst o.
    apply list_elem_of_lookup in Ho as [i Hi].
    destruct (Forall2_lookup_r _ _ _ _ _ H Hi) as (s & Hs & Hrow).
    exists s. split; [by eapply list_elem_of_lookup_2 | done].
  - intros (s & Hs & Hrow). apply list_elem_of_lookup in Hs as [i Hi].
    destruct (Forall2_lookup_l _ _ _ _ _ H Hi) as (o & Ho & Hrow').
    exists o. split; [by eapply list_elem_of_lookup_2 | simpl; congruence].
Qed.

Lemma net_key_inv (row : NetRow) (k : float * Z * string) :
  net_key row = Ok k ->
  exists p, nr_player row = Some p /\
            k = (nr_avg_net row, - nr_rounds row, p_name p).
Proof.
  unfold net_key. destruct (nr_player row) as [p|]; [|discriminate].
  simpl. intros [= <-]. by exists p.
Qed.

(** The rows of the net table: one per player with a net total, carrying
    the rounds played and the average net of the player. *)
Lemma net_table_rows (db : DB) (league : League) (rounds : list Round)
    (st : Standings) (row : NetRow) :
  compute_league_standings db league rounds = Ok st ->
  row ∈ st_net st ->
  exists p,
    nr_player row = Some p /\
    nr_rounds row = len (participations db rounds (p_id p)) /\
    0 < count_of net_total (participations db rounds (p_id p)) /\
    int_truediv (sum_of net_total (participations db rounds (p_id p)))
                (count_of net_total (participations db rounds (p_id p)))
      = Ok (nr_avg_net row).
Proof.
  intros H Hrow.
  apply standings_inv in H as (net_opts & Hopts & Hnet & _).
  destruct (sorted_by_key_has_key _ _ _ _ _ Hnet Hrow) as [k Hk].
  apply net_key_inv in Hk as (p & Hp & _).
  apply sorted_by_key_perm in Hnet. rewrite Hnet in Hrow.
  apply (net_rows_elem _ _ _ Hopts) in Hrow as (s & Hs & Hrow).
  apply net_row_inv in Hrow as (Hpos & Havg & Hpl & Hrounds).
  apply league_stats_entry in Hs as (pid & Hget & Hpid).
  assert (pid = p_id p) as -> by (symmetry; apply Hpid; congruence).
  destruct (league_stats_totals db rounds (p_id p)) as (Hr & Hsum & Hcnt & _).
  rewrite Hget in Hr, Hsum, Hcnt.
  exists p. rewrite <- Hsum, <- Hcnt, <- Hr. by repeat split.
Qed.

Lemma net_table_complete (db : DB) (league : League) (rounds : list Round)
    (st : Standings) (pid : Z) :
  compute_league_standings db league rounds = Ok st ->
  0 < count_of net_total (participations db rounds pid) ->
  exists row p, row ∈ st_net st /\ nr_player row = Some p /\ p_id p = pid.
Proof.
  intros H Hpos.
  apply standings_inv in H as (net_opts & Hopts & Hnet & _).
  destruct (league_stats_totals db rounds pid) as (_ & _ & Hcnt & _).
  set (s := stats_get (league_stats db rounds) pid) in *.
  assert (Hs : (pid, s) ∈ league_stats db rounds).
  { unfold s, stats_get in *.
    destruct (stats_lookup (league_stats db rounds) pid) as [s'|] eqn:Hl.
    - by apply stats_lookup_elem.
    - simpl in Hcnt. lia. }
  destruct (net_row_some s) as [row Hrow]; [lia|].
  assert (Hin : row ∈ st_net st).
  { rewrite (sorted_by_key_perm _ _ _ _ Hnet).
    apply (net_rows_elem _ _ _ Hopts). exists s. split; [|done].
    apply list_elem_of_fmap. by exists (pid, s). }
  destruct (sorted_by_key_has_key _ _ _ _ _ Hnet Hin) as [k Hk].
  apply net_key_inv in Hk as (p & Hp & _).
  exists row, p. split; [done|]. split; [done|].
  apply net_row_inv in Hrow as (_ & _ & Hpl & _).
  destruct (league_stats_inv db rounds) as [_ Hok].
  eapply Forall_forall in Hok; [|exact Hs].
  apply Hok. simpl. congruence.
Qed.

Lemma net_table_not_nan (db : DB) (league : League) (rounds : list Round)
    (st : Standings) (row : NetRow) :
  compute_league_standings db league rounds = Ok st ->
  row ∈ st_net st -> is_nan (nr_avg_net row) = false.
Proof.
  intros H Hrow.
  destruct (net_table_rows db league rounds st row H Hrow)
    as (p & _ & _ & _ & Havg).
  by eapply int_truediv_not_nan.
Qed.

(** The net table is ordered by average net: no later row has a smaller
    average than an earlier one. *)
Lemma net_table_sorted (db : DB) (league : League) (rounds : list Round)
    (st : Standings) :
  compute_league_standings db league rounds = Ok st ->
  StronglySorted
    (fun a b => lt_of float_cmp (nr_avg_net b) (nr_avg_net a) = false)
    (st_net st).
Proof.
  intros H.
  pose proof (fun row => net_table_not_nan db league rounds st row H) as Hnan.
  apply standings_inv in H as (net_opts & Hopts & Hnet & _).
  pose proof (sorted_by_key_perm _ _ _ _ Hnet) as Hperm.
  eapply StronglySorted_weaken;
    [|eapply (sorted_by_key_sorted net_key key_fzs_lt key_fzs_cmp
                (fun k => is_nan (fst (fst k)) = false));
      [apply key_fzs_cmp_ok | | | exact Hnet]].
  - intros a b (ka & kb & Ha & Hb & Hlt).
    apply net_key_inv in Ha as (pa & _ & ->).
    apply net_key_inv in Hb as (pb & _ & ->).
    unfold lt_of, key_fzs_cmp, lex in *. simpl in Hlt.
    by destruct (float_cmp (nr_avg_net b) (nr_avg_net a)).
  - intros k1 k2. apply key_fzs_lt_cmp.
  - intros row k Hrow Hk. apply net_key_inv in Hk as (p & _ & ->). simpl.
    apply Hnan. by rewrite Hperm.
Qed.

Lemma float_cmp_refl (x : float) : float_cmp x x = Eq.
Proof.
  pose proof (cmp_antisym float_cmp float_cmp_ok x x) as H.
  by destruct (float_cmp x x).
Qed.

(** C6. In a closed league the net champions are exactly the players of
    the net table with at least 5 rounds played whose average net no other
    such player undercuts (the minimum among them; ties give several
    champions). When no row has 5 rounds the list is empty, whatever the
    averages of players with fewer rounds. The rows of the net table are
    the players with a net total, with their rounds played and their
    average net. *)
Theorem net_champions_eligibility (db : DB) (league : League)
    (rounds : list Round) (st : Standings) :
  compute_league_standings db league rounds = Ok st ->
  league_closed league = true ->
  (forall pid,
     pid ∈ champ_net_players st <->
     exists row p,
       row ∈ st_net st /\ nr_player row = Some p /\ p_id p = pid /\
       5 <= nr_rounds row /\
       forall row', row' ∈ st_net st -> 5 <= nr_rounds row' ->
         fltb (nr_avg_net row') (nr_avg_net row) = false) /\
  ((forall row, row ∈ st_net st -> nr_rounds row < 5) ->
   champ_net_players st = []) /\
  (forall row, row ∈ st_net st ->
     exists p,
       nr_player row = Some p /\
       nr_rounds row = len (participations db rounds (p_id p)) /\
       0 < count_of net_total (participations db rounds (p_id p)) /\
       int_truediv (sum_of net_total (participations db rounds (p_id p)))
                   (count_of net_total (participations db rounds (p_id p)))
         = Ok (nr_avg_net row)) /\
  (forall pid,
     0 < count_of net_total (participations db rounds pid) ->
     exists row p, row ∈ st_net st /\ nr_player row = Some p /\ p_id p = pid).
Proof.
  intros H Hclosed.
  pose proof (fun row => net_table_not_nan db league rounds st row H) as Hnan.
  pose proof (net_table_sorted db league rounds st H) as Hsorted.
  pose proof H as Hinv.
  apply standings_inv in Hinv as (net_opts & _ & _ & _ & Hids & _).
  rewrite Hclosed in Hids.
  set (eligible := filter (fun row => 5 <= nr_rounds row) (st_net st)).
  assert (Hel : forall row, row ∈ eligible <->
                  5 <= nr_rounds row /\ row ∈ st_net st).
  { intros row. unfold eligible. by rewrite list_elem_of_filter. }
  assert (Hels : StronglySorted
    (fun a b => lt_of float_cmp (nr_avg_net b) (nr_avg_net a) = false) eligible)
    by (by apply StronglySorted_filter).
  assert (Hmain : forall pid,
     pid ∈ champ_net_players st <->
     exists row p,
       row ∈ st_net st /\ nr_player row = Some p /\ p_id p = pid /\
       5 <= nr_rounds row /\
       forall row', row' ∈ st_net st -> 5 <= nr_rounds row' ->
         fltb (nr_avg_net row') (nr_avg_net row) = false).
  { intros pid. rewrite (champion_ids_spec _ _ pid Hids).
    unfold net_champions. fold eligible.
    destruct eligible as [|first rest] eqn:Heq.
    { split.
      - intros (p & Hp & _). by apply elem_of_nil in Hp.
      - intros (row & p & Hrow & _ & _ & H5 & _).
        assert (Hin : row ∈ @nil NetRow) by (by apply Hel).
        by apply elem_of_nil in Hin. }
    assert (Hfirst : forall row', row' ∈ first :: rest ->
              lt_of float_cmp (nr_avg_net row') (nr_avg_net first) = false).
    { intros row' [->|Hin]%elem_of_cons.
      - unfold lt_of. by rewrite float_cmp_refl.
      - apply StronglySorted_inv in Hels as [_ Hall].
        by eapply Forall_forall in Hall. }
    assert (Hf1 : first ∈ first :: rest) by left.
    assert (Hchar : forall row, row ∈ first :: rest ->
      feqb (nr_avg_net row) (nr_avg_net first) = true <->
      forall row', row' ∈ first :: rest ->
        fltb (nr_avg_net row') (nr_avg_net row) = false).
    { intros row Hrow.
      assert (Hn : is_nan (nr_avg_net row) = false)
        by (apply Hnan; by apply Hel).
      assert (Hnf : is_nan (nr_avg_net first) = false)
        by (apply Hnan; by apply Hel).
      rewrite feqb_float_cmp by done. split.
      - intros He row' Hrow'.
        assert (Hn' : is_nan (nr_avg_net row') = false)
          by (apply Hnan; by apply Hel).
        rewrite fltb_float_cmp by done.
        destruct (float_cmp (nr_avg_net row) (nr_avg_net first)) eqn:E;
          try done.
        pose proof (Hfirst row' Hrow') as Hlt. unfold lt_of in *.
        rewrite (cmp_antisym float_cmp float_cmp_ok (nr_avg_net row)).
        rewrite (cmp_eq_l float_cmp float_cmp_ok _ _ (nr_avg_net row') E).
        rewrite (cmp_antisym float_cmp float_cmp_ok (nr_avg_net first)) in Hlt.
        by destruct (float_cmp (nr_avg_net first) (nr_avg_net row')).
      - intros Hmin. specialize (Hmin first Hf1).
        rewrite fltb_float_cmp in Hmin by done.
        pose proof (Hfirst row Hrow) as Hlt. unfold lt_of in *.
        rewrite (cmp_antisym float_cmp float_cmp_ok (nr_avg_net row)) in Hmin.
        by destruct (float_cmp (nr_avg_net row) (nr_avg_net first)). }
    split.
    - intros (p & Hp & Hid).
      apply list_elem_of_fmap in Hp as (row & Hpl & Hrow).
      apply list_elem_of_filter in Hrow as [Heqb Hrow].
      pose proof Hrow as Hrow'. apply Hel in Hrow' as [H5 Hin].
      exists row, p. repeat split; try done.
      intros row' Hin' H5'. apply (Hchar row Hrow); [done|]. by apply Hel.
    - intros (row & p & Hin & Hp & Hid & H5 & Hmin).
      assert (Hrow : row ∈ first :: rest) by (by apply Hel).
      exists p. split; [|done]. apply list_elem_of_fmap. exists row.
      split; [done|]. apply list_elem_of_filter. split; [|done].
      apply (Hchar row Hrow). intros row' Hrow'.
      apply Hel in Hrow' as [H5' Hin']. by apply Hmin. }
  split; [exact Hmain|]. split; [|split].
  - intros Hfew. apply list_elem_of_not_nil_inv. intros pid Hpid.
    apply Hmain in Hpid as (row & p & Hin & _ & _ & H5 & _).
    specialize (Hfew row Hin). lia.
  - intros row Hrow. by apply (net_table_rows db league rounds st).
  - intros pid Hpos. by apply (net_table_complete db league rounds st).
Qed.

Lemma net_champions_eligibility_witness :
  (forall pid,
     pid ∈ champ_net_players sample_standings <->
     exists row p,
       row ∈ st_net sample_standings /\ nr_player row = Some p /\ p_id p = pid /\
       5 <= nr_rounds row /\
       forall row', row' ∈ st_net sample_standings -> 5 <= nr_rounds row' ->
         fltb (nr_avg_net row') (nr_avg_net row) = false) /\
  ((forall row, row ∈ st_net sample_standings -> nr_rounds row < 5) ->
   champ_net_players sample_standings = []) /\
  (forall row, row ∈ st_net sample_standings ->
     exists p,
       nr_player row = Some p /\
       nr_rounds row =
         len (participations league_db (db_rounds league_db) (p_id p)) /\
       0 < count_of net_total
             (participations league_db (db_rounds league_db) (p_id p)) /\
       int_truediv
         (sum_of net_total
            (participations league_db (db_rounds league_db) (p_id p)))
         (count_of net_total
            (participations league_db (db_rounds league_db) (p_id p)))
         = Ok (nr_avg_net row)) /\
  (forall pid,
     0 < count_of net_total
           (participations league_db (db_rounds league_db) pid) ->
     exists row p,
       row ∈ st_net sample_standings /\ nr_player row = Some p /\ p_id p = pid).
Proof.
  apply (net_champions_eligibility league_db sample_league
           (db_rounds league_db) sample_standings).
  - vm_compute. reflexivity.
  - reflexivity.
Defined.

(** The example of the specification: Carl has the best average net but
    only four rounds. In the closed league of five rounds the champion is
    Ana, the best of the players with five rounds; in the closed league of
    the first four rounds nobody has five rounds and there is no net
    champion. *)
Example net_champions_example :
  (fun row => (p_id <$> nr_player row, nr_rounds row)) <$> st_net sample_standings
    = [(Some 13, 4); (Some 11, 5); (Some 12, 5)] /\
  champ_net_players sample_standings = [11] /\
  champ_net_players
    (standings_or_empty
       (compute_league_standings league_db sample_league
          (take 4 (db_rounds league_db)))) = [].
Proof. by vm_compute. Qed.

Lemma scratch_zero_never_champion_witness :
  (forall row, row ∈ st_scratch sample_standings ->
     exists p, sr_player row = Some p /\
       sr_total_scratch row =
         sum_of stableford_scratch_total
           (participations league_db (db_rounds league_db) (p_id p)) /\
       0 < sr_total_scratch row) /\
  (forall pid, pid ∈ champ_scratch_players sample_standings ->
     exists row p,
       row ∈ st_scratch sample_standings /\ sr_player row = Some p /\
       p_id p = pid) /\
  (forall pid,
     sum_of stableford_scratch_total
       (participations league_db (db_rounds league_db) pid) = 0 ->
     (forall row p, row ∈ st_scratch sample_standings ->
        sr_player row = Some p -> p_id p <> pid) /\
     pid ∉ champ_scratch_players sample_standings) /\
  ((forall pid,
      sum_of stableford_scratch_total
        (participations league_db (db_rounds league_db) pid) = 0) ->
   st_scratch sample_standings = [] /\
   champ_scratch_players sample_standings = []).
Proof.
  apply (scratch_zero_never_champion league_db sample_league
           (db_rounds league_db) sample_standings).
  vm_compute. reflexivity.
Defined.

(** Ana never scores a scratch point: she has no row in the scratch table
    and is not a scratch champion. *)
Example scratch_zero_example :
  sum_of stableford_scratch_total
    (participations league_db (db_rounds league_db) 11) = 0 /\
  (fun row => (p_id <$> sr_player row, sr_total_scratch row))
    <$> st_scratch sample_standings = [(Some 12, 50); (Some 13, 48)] /\
  champ_scratch_players sample_standings = [12].
Proof. by vm_compute. Qed.

(** ** The standings are returned when every player can be loaded *)

Lemma stats_lookup_key (st : list (Z * Stats)) (k : Z) :
  k ∈ fst <$> st -> exists s, stats_lookup st k = Some s /\ (k, s) ∈ st.
Proof.
  unfold stats_lookup. induction st as [|[k' v] st IH]; intros Hk.
  - by apply elem_of_nil in Hk.
  - destruct (decide (k' = k)) as [->|Hne].
    + exists v. rewrite filter_cons_True by done. split; [done|left].
    + rewrite fmap_cons in Hk. apply elem_of_cons in Hk as [Hk|Hk];
        [simpl in Hk; congruence|].
      destruct (IH Hk) as (s & Hs & Hin). exists s.
      rewrite filter_cons_False by done. split; [done|by right].
Qed.

Lemma stats_set_key_mono (st : list (Z * Stats)) (k k' : Z) (s : Stats) :
  k' ∈ fst <$> st -> k' ∈ fst <$> stats_set st k s.
Proof.
  rewrite stats_set_keys. case_decide; [done|]. rewrite elem_of_app. tauto.
Qed.

Lemma stats_set_key_in (st : list (Z * Stats)) (k : Z) (s : Stats) :
  k ∈ fst <$> stats_set st k s.
Proof.
  rewrite stats_set_keys. case_decide; [done|].
  rewrite elem_of_app, list_elem_of_singleton. tauto.
Qed.

Lemma fold_left_inv_in {A S : Type} (P : S -> Prop) (f : S -> A -> S)
    (l : list A) (s : S) :
  (forall s x, x ∈ l -> P s -> P (f s x)) -> P s -> P (fold_left f l s).
Proof.
  revert s. induction l as [|x l IH]; intros s Hf Hs; simpl; [done|].
  apply IH.
  - intros s' y Hy. apply Hf. by right.
  - apply Hf; [left | done].
Qed.

Lemma base_fold_has_player (db : DB) (r : Round) (rps : list RoundPlayer)
    (st : list (Z * Stats)) :
  (forall rp, rp ∈ rps -> is_Some (player_of db rp)) ->
  Forall has_player st ->
  Forall has_player (fold_left (base_step db r) rps st) /\
  forall rp, rp ∈ rps ->
    player_id rp ∈ fst <$> fold_left (base_step db r) rps st.
Proof.
  revert st. induction rps as [|rp rps IH]; intros st Hpl Hst.
  - split; [done|]. intros rp Hrp. by apply elem_of_nil in Hrp.
  - cbn [fold_left].
    assert (Hstep : Forall has_player (base_step db r st rp)).
    { unfold base_step. apply stats_set_Forall; [done|].
      unfold has_player. simpl.
      destruct (s_player (stats_get st (player_id rp))); [by eexists|].
      apply Hpl. left. }
    destruct (IH (base_step db r st rp)) as [HI Hkeys]; [|done|].
    { intros rp' Hrp'. apply Hpl. by right. }
    split; [done|]. intros rp' [->|Hrp']%elem_of_cons; [|by apply Hkeys].
    apply (fold_left_inv (fun st => player_id rp ∈ fst <$> st)).
    + intros s x. unfold base_step. apply stats_set_key_mono.
    + unfold base_step. apply stats_set_key_in.
Qed.

Lemma f1_fold_has_player (points : float) (winners : list RoundPlayer)
    (st : list (Z * Stats)) :
  (forall rp, rp ∈ winners -> player_id rp ∈ fst <$> st) ->
  Forall has_player st ->
  Forall has_player (fold_left (f1_step points) winners st).
Proof.
  intros Hkeys Hst.
  cut (Forall has_player (fold_left (f1_step points) winners st) /\
       forall rp, rp ∈ winners ->
         player_id rp ∈ fst <$> fold_left (f1_step points) winners st);
    [tauto|].
  apply (fold_left_inv_in
    (fun st => Forall has_player st /\
               forall rp, rp ∈ winners -> player_id rp ∈ fst <$> st));
    [|done].
  intros s rp Hrp [Hs Hk]. split.
  - unfold f1_step. apply stats_set_Forall; [done|].
    destruct (stats_lookup_key s (player_id rp) (Hk rp Hrp)) as (v & Hv & Hin).
    unfold has_player, stats_get. rewrite Hv. simpl.
    rewrite Forall_forall in Hs. exact (Hs _ Hin).
  - intros rp' Hrp'. unfold f1_step. by apply stats_set_key_mono, Hk.
Qed.

Lemma round_f1_winners_scored (db : DB) (r : Round)
    (winners : list RoundPlayer) (points : float) (rp : RoundPlayer) :
  round_f1 db r = Some (winners, points) -> rp ∈ winners ->
  rp ∈ scored_players db r.
Proof.
  unfold round_f1. destruct (valid_players db r) as [|first rest] eqn:Hv;
    [discriminate|].
  intros [= <- _] Hrp. apply list_elem_of_filter in Hrp as [_ Hrp].
  rewrite <- Hv in Hrp. unfold valid_players in Hrp.
  apply list_elem_of_filter in Hrp as [_ Hrp]. by rewrite sorted_perm in Hrp.
Qed.

Lemma league_round_has_player (db : DB) (st : list (Z * Stats)) (r : Round) :
  (forall rp, rp ∈ scored_players db r -> is_Some (player_of db rp)) ->
  Forall has_player st -> Forall has_player (league_round db st r).
Proof.
  intros Hpl Hst. rewrite league_round_unfold.
  destruct (base_fold_has_player db r (scored_players db r) st Hpl Hst)
    as [H1 Hkeys].
  destruct (scored_players db r) as [|rp0 rps0] eqn:Hs; [done|].
  cbv zeta. destruct (round_f1 db r) as [[winners points]|] eqn:Hf; [|done].
  apply f1_fold_has_player; [|done].
  intros rp Hrp. apply Hkeys. rewrite <- Hs.
  by eapply round_f1_winners_scored.
Qed.

Lemma league_stats_has_player (db : DB) (rounds : list Round) :
  (forall r rp, r ∈ rounds -> rp ∈ scored_players db r ->
     is_Some (player_of db rp)) ->
  Forall has_player (league_stats db rounds).
Proof.
  intros Hpl. unfold league_stats.
  apply (fold_left_inv_in (Forall has_player)); [|constructor].
  intros s r Hr. apply league_round_has_player. intros rp. by apply Hpl.
Qed.

Lemma sorted_by_key_ok {A K : Type} (key : A -> py K) (lt : K -> K -> bool)
    (rows : list A) :
  (forall row, row ∈ rows -> exists k, key row = Ok k) ->
  exists out, sorted_by_key key lt rows = Ok out.
Proof.
  intros H. destruct (map_py_ok key rows H) as [keys Hkeys].
  unfold sorted_by_key. rewrite Hkeys. simpl. by eexists.
Qed.

Lemma champion_ids_ok (ps : list (option Player)) :
  (forall p, p ∈ ps -> is_Some p) -> exists ids, champion_ids ps = Ok ids.
Proof.
  intros H. apply map_py_ok. intros p Hp.
  destruct (H p Hp) as [q ->]. by eexists.
Qed.

Lemma player_row_ok (s : Stats) :
  exists row, player_row s = Ok row /\ pr_player row = s_player s.
Proof.
  unfold player_row, int_truediv, float_div_int.
  destruct (0 <? s_gross_count s) eqn:E1;
    [destruct (s_gross_count s =? 0) eqn:E1'; [lia|]|];
    (destruct (0 <? s_level_hcp_count s) eqn:E2;
      [destruct (s_level_hcp_count s =? 0) eqn:E2'; [lia|]|]);
    simpl; by eexists.
Qed.

Lemma net_row_ok (s : Stats) : exists o, net_row s = Ok o.
Proof.
  unfold net_row, int_truediv. destruct (0 <? s_net_count s) eqn:E;
    [|by eexists].
  destruct (s_net_count s =? 0) eqn:E0; [lia|]. simpl. by eexists.
Qed.

Lemma main_champions_sub (rows : list MainRow) (p : option Player) :
  p ∈ main_champions rows -> exists row, row ∈ rows /\ mr_player row = p.
Proof.
  unfold main_champions. destruct rows as [|first rest].
  - intros H. by apply elem_of_nil in H.
  - intros H. apply list_elem_of_fmap in H as (row & -> & H).
    apply list_elem_of_filter in H as [_ H]. eauto.
Qed.

Lemma net_champions_sub (rows : list NetRow) (p : option Player) :
  p ∈ net_champions rows -> exists row, row ∈ rows /\ nr_player row = p.
Proof.
  unfold net_champions.
  destruct (filter _ rows) as [|first rest] eqn:Hf.
  - intros H. by apply elem_of_nil in H.
  - intros H. apply list_elem_of_fmap in H as (row & -> & H).
    apply list_elem_of_filter in H as [_ H]. rewrite <- Hf in H.
    apply list_elem_of_filter in H as [_ H]. eauto.
Qed.

(** [compute_league_standings] returns when the player of every round
    player with a card can be loaded. *)
Lemma compute_league_standings_ok (db : DB) (league : League)
    (rounds : list Round) :
  (forall r rp, r ∈ rounds -> rp ∈ scored_players db r ->
     is_Some (player_of db rp)) ->
  exists st, compute_league_standings db league rounds = Ok st.
Proof.
  intros Hpl. pose proof (league_stats_has_player db rounds Hpl) as Hst.
  unfold compute_league_standings.
  set (entries := (league_stats db rounds).*2).
  assert (Hent : forall s, s ∈ entries -> is_Some (s_player s)).
  { intros s Hs. apply list_elem_of_fmap in Hs as (e & -> & He).
    by eapply Forall_forall in Hst. }
  destruct (map_py_ok net_row entries) as [net_opts Hnet].
  { intros s _. apply net_row_ok. }
  rewrite Hnet. simpl.
  destruct (map_py_ok player_row entries) as [ptable Hptable].
  { intros s _. destruct (player_row_ok s) as (row & Hrow & _). eauto. }
  rewrite Hptable. simpl.
  destruct (sorted_by_key_ok main_key key_fzs_lt (main_row <$> entries))
    as [main_rows Hmain].
  { intros row Hrow. apply list_elem_of_fmap in Hrow as (s & -> & Hs).
    unfold main_key. simpl. destruct (Hent s Hs) as [p ->]. by eexists. }
  rewrite Hmain. simpl.
  destruct (sorted_by_key_ok net_key key_fzs_lt (omap id net_opts))
    as [net_rows Hnets].
  { intros row Hrow. apply (net_rows_elem _ _ _ Hnet) in Hrow as (s & Hs & Hrow).
    apply net_row_inv in Hrow as (_ & _ & Hp & _).
    unfold net_key. rewrite Hp. destruct (Hent s Hs) as [p ->]. by eexists. }
  rewrite Hnets. simpl.
  destruct (sorted_by_key_ok scratch_key key_zzs_lt (omap scratch_row entries))
    as [scratch_rows Hscr].
  { intros row Hrow. apply list_elem_of_omap in Hrow as (s & Hs & Hrow).
    apply scratch_row_inv in Hrow as (_ & Hp & _).
    unfold scratch_key. rewrite Hp. destruct (Hent s Hs) as [p ->]. by eexists. }
  rewrite Hscr. simpl.
  destruct (sorted_by_key_ok player_key key_fs_lt ptable) as [ptable' Hpt'].
  { intros row Hrow. apply map_py_Forall2 in Hptable.
    apply list_elem_of_lookup in Hrow as [i Hi].
    destruct (Forall2_lookup_r _ _ _ _ _ Hptable Hi) as (s & Hs & Hrow).
    destruct (player_row_ok s) as (row' & Hrow' & Hp).
    assert (row' = row) as -> by congruence.
    unfold player_key. rewrite Hp.
    destruct (Hent s) as [p ->]; [by eapply list_elem_of_lookup_2|].
    by eexists. }
  rewrite Hpt'. simpl.
  destruct (champion_ids_ok
    (if league_closed league then main_champions main_rows else []))
    as [main_ids Hmi].
  { intros p Hp. destruct (league_closed league);
      [|by apply elem_of_nil in Hp].
    apply main_champions_sub in Hp as (row & Hrow & <-).
    destruct (sorted_by_key_has_key _ _ _ _ _ Hmain Hrow) as [k Hk].
    unfold main_key in Hk. by destruct (mr_player row). }
  rewrite Hmi. simpl.
  destruct (champion_ids_ok
    (if league_closed league then net_champions net_rows else []))
    as [net_ids Hni].
  { intros p Hp. destruct (league_closed league);
      [|by apply elem_of_nil in Hp].
    apply net_champions_sub in Hp as (row & Hrow & <-).
    destruct (sorted_by_key_has_key _ _ _ _ _ Hnets Hrow) as [k Hk].
    unfold net_key in Hk. by destruct (nr_player row). }
  rewrite Hni. simpl.
  destruct (champion_ids_ok
    (if league_closed league then scratch_champions scratch_rows else []))
    as [scratch_ids Hsi].
  { intros p Hp. destruct (league_closed league);
      [|by apply elem_of_nil in Hp].
    apply scratch_champions_sub in Hp as (row & Hrow & <-).
    destruct (sorted_by_key_has_key _ _ _ _ _ Hscr Hrow) as [k Hk].
    unfold scratch_key in Hk. by destruct (sr_player row). }
  rewrite Hsi. simpl. by eexists.
Qed.

(* ===================================================================== *)
(** * Further properties of the code                                      *)
(* ===================================================================== *)

(** ** Strokes received on any course and for any handicap *)

(** The extra-stroke loop keeps the keys of the dict, whatever the hole
    numbers are. *)
Lemma bump_loop_dom (ordered : list Hole) (received : gmap Z Z) (k : nat) :
  (k <= length ordered)%nat ->
  (forall h, h ∈ ordered -> is_Some (received !! number h)) ->
  exists r,
    for_each (received_bump ordered) (seq 0 k) received = Ok r /\
    forall n, is_Some (r !! n) <-> is_Some (received !! n).
Proof.
  intros Hk Hdom. induction k as [|k IH].
  - exists received. by split.
  - destruct IH as (r & Hr & Hkeys); [lia|].
    destruct (lookup_lt_is_Some_2 ordered k) as [h Hh]; [lia|].
    destruct (proj2 (Hkeys (number h))) as [v Hv].
    { apply Hdom. by eapply list_elem_of_lookup_2. }
    exists (<[number h := v + 1]> r). split.
    + rewrite seq_S, for_each_app, Hr. simpl.
      unfold received_bump, index, subscript. simpl. rewrite Hh. simpl.
      by rewrite Hv.
    + intros n. rewrite <- Hkeys. destruct (decide (n = number h)) as [->|Hne].
      * rewrite lookup_insert_eq, Hv. split; by eexists.
      * by rewrite lookup_insert_ne.
Qed.

(** The position of a hole in a list of holes with distinct numbers. *)
Lemma number_in_take (ordered : list Hole) (k i : nat) (h : Hole) :
  NoDup (number <$> ordered) -> ordered !! i = Some h ->
  number h ∈ number <$> take k ordered <-> (i < k)%nat.
Proof.
  intros Hnd Hi. split.
  - intros Hin. apply list_elem_of_fmap in Hin as (h' & Heq & Hin').
    apply list_elem_of_lookup in Hin' as [j Hj].
    apply lookup_take_Some in Hj as [Hj Hjk].
    assert (j = i); [|lia].
    eapply (NoDup_lookup _ j i (number h) Hnd); rewrite list_lookup_fmap.
    + by rewrite Hj, Heq.
    + by rewrite Hi.
  - intros Hlt. apply list_elem_of_fmap_2, list_elem_of_lookup. exists i.
    apply lookup_take_Some. by split.
Qed.

Lemma strokes_received_gen (ch : Z) (holes : list Hole) :
  NoDup (number <$> holes) ->
  ch mod 18 <= len holes ->
  exists received,
    strokes_received_per_hole ch holes = Ok received /\
    (forall (i : nat) h, sorted by_stroke_index holes !! i = Some h ->
       received !! number h =
       Some (ch / 18 + if decide (Z.of_nat i < ch mod 18) then 1 else 0)) /\
    (forall n, n ∉ number <$> holes -> received !! n = None) /\
    sum_values received = ch / 18 * len holes + ch mod 18.
Proof.
  intros Hnd Hlen.
  pose proof (ordered_perm holes) as Hord.
  set (ordered := sorted by_stroke_index holes) in *.
  assert (Hmod : 0 <= ch mod 18 < 18) by (apply Z.mod_pos_bound; lia).
  assert (Hndo : NoDup (number <$> ordered)) by (by rewrite Hord).
  destruct (bump_loop ordered (received_init (ch / 18) holes)
              (Z.to_nat (ch mod 18))) as (r & Hr & Hlook & Hsum).
  - unfold len in Hlen. rewrite Hord. lia.
  - done.
  - intros h Hh. rewrite received_init_lookup.
    rewrite decide_True; [done|]. apply list_elem_of_fmap_2. by rewrite <- Hord.
  - exists r. split; [exact Hr|]. split; [|split].
    + intros i h Hi. rewrite Hlook, received_init_lookup.
      assert (Hh : h ∈ holes).
      { rewrite <- Hord. by eapply list_elem_of_lookup_2. }
      rewrite (decide_True (P := number h ∈ number <$> holes))
        by (by apply list_elem_of_fmap_2).
      pose proof (number_in_take ordered (Z.to_nat (ch mod 18)) i h Hndo Hi)
        as Htake.
      repeat case_decide; simpl; try (f_equal; lia); exfalso.
      * assert (i < Z.to_nat (ch mod 18))%nat by (by apply Htake). lia.
      * match goal with H : number h ∉ _ |- _ => apply H end.
        apply Htake. lia.
    + intros n Hn. rewrite Hlook, received_init_lookup.
      rewrite (decide_False (P := n ∈ number <$> holes)) by done.
      by case_decide.
    + rewrite Hsum, sum_values_init by done.
      rewrite Z2Nat.id by lia. done.
Qed.

(** X1. [strokes_received_per_hole] on a course of any length whose hole
    numbers are distinct and that has at least [ch % 18] holes, for any
    integer [ch]: the call returns a dict keyed by the hole numbers; the
    hole in position [i] of the stroke-index order gets [ch // 18] strokes,
    plus one when [i < ch % 18]; the values sum to
    [(ch // 18) * len(holes) + ch % 18]. *)
Theorem strokes_received_any_course (ch : Z) (holes : list Hole) :
  NoDup (number <$> holes) ->
  ch mod 18 <= len holes ->
  exists received,
    strokes_received_per_hole ch holes = Ok received /\
    (forall (i : nat) h, sorted by_stroke_index holes !! i = Some h ->
       received !! number h =
       Some (ch / 18 + if decide (Z.of_nat i < ch mod 18) then 1 else 0)) /\
    (forall n, is_Some (received !! n) <-> n ∈ number <$> holes) /\
    sum_values received = ch / 18 * len holes + ch mod 18.
Proof.
  intros Hnd Hlen.
  destruct (strokes_received_gen ch holes Hnd Hlen)
    as (received & Hrun & Hpos & Hdom & Hsum).
  exists received. repeat split; try done.
  - intros Hn. destruct (decide (n ∈ number <$> holes)) as [|Hnot]; [done|].
    rewrite (Hdom n Hnot) in Hn. by destruct Hn.
  - intros Hn. apply list_elem_of_fmap in Hn as (h & -> & Hh).
    rewrite <- (ordered_perm holes) in Hh.
    apply list_elem_of_lookup in Hh as [i Hi].
    rewrite (Hpos i h Hi). by eexists.
Qed.

Lemma strokes_received_any_course_witness :
  exists received,
    strokes_received_per_hole 25 (take 9 sample_holes) = Ok received /\
    (forall (i : nat) h,
       sorted by_stroke_index (take 9 sample_holes) !! i = Some h ->
       received !! number h =
       Some (25 / 18 + if decide (Z.of_nat i < 25 mod 18) then 1 else 0)) /\
    (forall n, is_Some (received !! n) <-> n ∈ number <$> take 9 sample_holes) /\
    sum_values received = 25 / 18 * len (take 9 sample_holes) + 25 mod 18.
Proof.
  apply (strokes_received_any_course 25 (take 9 sample_holes)).
  - apply (bool_decide_unpack _). vm_compute. reflexivity.
  - vm_compute. discriminate.
Defined.

(** X2. A negative course handicap on a course of 18 holes whose stroke
    indexes are a permutation of 1..18: the floor division and modulo of
    Python make [base] negative and [extra] non-negative, the values still
    sum to [ch], and for [-18 <= ch < 0] the holes with stroke index up to
    [18 + ch] receive 0 strokes and the [-ch] holes with the highest stroke
    index receive -1. *)
Theorem strokes_received_negative_handicap (ch : Z) (holes : list Hole) :
  ch < 0 ->
  stroke_index <$> holes ≡ₚ seqZ 1 18 ->
  NoDup (number <$> holes) ->
  exists received,
    strokes_received_per_hole ch holes = Ok received /\
    (forall h, h ∈ holes ->
       received !! number h =
       Some (ch / 18 + if decide (stroke_index h <= ch mod 18) then 1 else 0)) /\
    (-18 <= ch ->
     forall h, h ∈ holes ->
       received !! number h =
       Some (if decide (stroke_index h <= 18 + ch) then 0 else -1)) /\
    sum_values received = ch.
Proof.
  intros Hneg Hperm Hnd.
  pose proof (ordered_perm holes) as Hord.
  pose proof (ordered_stroke_index holes Hperm) as Hsi.
  assert (Hlenh : length holes = 18%nat).
  { rewrite <- (length_fmap stroke_index), Hperm, length_seqZ. done. }
  assert (Hmod : 0 <= ch mod 18 < 18) by (apply Z.mod_pos_bound; lia).
  destruct (strokes_received_gen ch holes Hnd)
    as (received & Hrun & Hpos & Hdom & Hsum).
  { unfold len. rewrite Hlenh. lia. }
  assert (Hlook : forall h, h ∈ holes ->
     received !! number h =
     Some (ch / 18 + if decide (stroke_index h <= ch mod 18) then 1 else 0)).
  { intros h Hh. rewrite <- Hord in Hh.
    apply list_elem_of_lookup in Hh as [i Hi]. rewrite (Hpos i h Hi).
    assert (Hsih : stroke_index h = 1 + Z.of_nat i).
    { assert (Hl : (stroke_index <$> sorted by_stroke_index holes) !! i
                   = Some (stroke_index h))
        by (by rewrite list_lookup_fmap, Hi).
      rewrite Hsi in Hl. by apply lookup_seqZ in Hl as [-> _]. }
    repeat case_decide; try done; lia. }
  exists received. split; [done|]. split; [done|]. split.
  - intros Hlow h Hh. rewrite (Hlook h Hh). f_equal.
    assert (ch / 18 = -1) as ->
      by (symmetry; apply Z.div_unique with (r := ch + 18); lia).
    assert (ch mod 18 = ch + 18) as ->
      by (symmetry; apply Z.mod_unique with (q := -1); lia).
    repeat case_decide; lia.
  - rewrite Hsum. unfold len. rewrite Hlenh.
    pose proof (Z.div_mod ch 18). lia.
Qed.

Lemma strokes_received_negative_handicap_witness :
  exists received,
    strokes_received_per_hole (-3) sample_holes = Ok received /\
    (forall h, h ∈ sample_holes ->
       received !! number h =
       Some (-3 / 18 + if decide (stroke_index h <= -3 mod 18) then 1 else 0)) /\
    (-18 <= -3 ->
     forall h, h ∈ sample_holes ->
       received !! number h =
       Some (if decide (stroke_index h <= 18 + -3) then 0 else -1)) /\
    sum_values received = -3.
Proof.
  apply (strokes_received_negative_handicap (-3) sample_holes).
  - lia.
  - apply (bool_decide_unpack _). vm_compute. reflexivity.
  - apply (bool_decide_unpack _). vm_compute. reflexivity.
Defined.

(** The loop runs past the end of the ordered list. *)
Lemma strokes_received_overrun (ch : Z) (holes : list Hole) :
  len holes < ch mod 18 ->
  strokes_received_per_hole ch holes = Err IndexError.
Proof.
  intros Hlen. unfold strokes_received_per_hole, range.
  pose proof (ordered_perm holes) as Hord.
  set (ordered := sorted by_stroke_index holes) in *.
  set (n := length holes).
  assert (Hn : length ordered = n) by (unfold n; by rewrite Hord).
  assert (Hsplit : Z.to_nat (ch mod 18) = (n + S (Z.to_nat (ch mod 18) - S n))%nat)
    by (unfold len in Hlen; fold n in Hlen; lia).
  rewrite Hsplit, seq_app, for_each_app.
  destruct (bump_loop_dom ordered (received_init (ch / 18) holes) n)
    as (r & Hr & _).
  - lia.
  - intros h Hh. rewrite received_init_lookup.
    rewrite decide_True; [done|]. apply list_elem_of_fmap_2. by rewrite <- Hord.
  - rewrite Hr. cbn [mbind py_bind seq Nat.add]. rewrite for_each_cons.
    unfold received_bump, index.
    rewrite (lookup_ge_None_2 ordered n) by lia. done.
Qed.

(** The call returns whenever the course has at least [ch % 18] holes,
    and the dict has an entry for every hole. *)
Lemma strokes_received_returns (ch : Z) (holes : list Hole) :
  ch mod 18 <= len holes ->
  exists received,
    strokes_received_per_hole ch holes = Ok received /\
    forall h, h ∈ holes -> is_Some (received !! number h).
Proof.
  intros Hlen. unfold strokes_received_per_hole, range.
  pose proof (ordered_perm holes) as Hord.
  assert (Hinit : forall h, h ∈ holes ->
            is_Some (received_init (ch / 18) holes !! number h)).
  { intros h Hh. rewrite received_init_lookup.
    rewrite decide_True; [done|]. by apply list_elem_of_fmap_2. }
  destruct (bump_loop_dom (sorted by_stroke_index holes)
              (received_init (ch / 18) holes) (Z.to_nat (ch mod 18)))
    as (r & Hr & Hkeys).
  - unfold len in Hlen. rewrite Hord. lia.
  - intros h Hh. apply Hinit. by rewrite <- Hord.
  - exists r. split; [done|]. intros h Hh. by apply Hkeys, Hinit.
Qed.

(** X3. On a course with fewer holes than [ch % 18] the extra-stroke loop
    runs past the end of the ordered list and the call raises
    [IndexError]; with at least [ch % 18] holes it returns, whatever the
    hole numbers and stroke indexes are. *)
Theorem strokes_received_short_course (ch : Z) (holes : list Hole) :
  (len holes < ch mod 18 ->
   strokes_received_per_hole ch holes = Err IndexError) /\
  (ch mod 18 <= len holes ->
   exists received, strokes_received_per_hole ch holes = Ok received).
Proof.
  split.
  - apply strokes_received_overrun.
  - intros Hlen.
    destruct (strokes_received_returns ch holes Hlen) as (r & Hr & _). eauto.
Qed.

(** The nine first holes of the sample course and a handicap of 10. *)
Example strokes_received_short_course_example :
  strokes_received_per_hole 10 (take 9 sample_holes) = Err IndexError.
Proof. by vm_compute. Qed.

(** ** Saving a card: outcome, totals and counters *)

Lemma sum_over_app {A : Type} (c : A -> Z) (l1 l2 : list A) :
  sum_over c (l1 ++ l2) = sum_over c l1 + sum_over c l2.
Proof. induction l1 as [|x l1 IH]; simpl; [done|]. rewrite IH. lia. Qed.

Lemma sum_over_fmap {A B : Type} (f : A -> B) (c : B -> Z) (l : list A) :
  sum_over c (f <$> l) = sum_over (fun x => c (f x)) l.
Proof. induction l as [|x l IH]; csimpl; [done|]. by rewrite IH. Qed.

Lemma sum_over_ext {A : Type} (c c' : A -> Z) (l : list A) :
  (forall x, x ∈ l -> c x = c' x) -> sum_over c l = sum_over c' l.
Proof.
  induction l as [|x l IH]; intros H; simpl; [done|].
  rewrite (H x) by left. rewrite IH; [done|]. intros y Hy. apply H. by right.
Qed.

Lemma sum_over_bounds {A : Type} (c : A -> Z) (lo hi : Z) (l : list A) :
  (forall x, x ∈ l -> lo <= c x <= hi) ->
  lo * len l <= sum_over c l <= hi * len l.
Proof.
  unfold len. induction l as [|x l IH]; intros H; simpl; [lia|].
  assert (lo <= c x <= hi) by (apply H; left).
  assert (lo * Z.of_nat (length l) <= sum_over c l <= hi * Z.of_nat (length l))
    by (apply IH; intros y Hy; apply H; by right).
  lia.
Qed.

Lemma sum_over_le {A : Type} (c c' : A -> Z) (l : list A) :
  (forall x, x ∈ l -> c x <= c' x) -> sum_over c l <= sum_over c' l.
Proof.
  induction l as [|x l IH]; intros H; simpl; [lia|].
  assert (c x <= c' x) by (apply H; left).
  assert (sum_over c l <= sum_over c' l)
    by (apply IH; intros y Hy; apply H; by right).
  lia.
Qed.

Lemma sum_over_const {A : Type} (k : Z) (l : list A) :
  sum_over (fun _ => k) l = k * len l.
Proof. unfold len. induction l as [|x l IH]; simpl; [lia|]. rewrite IH. lia. Qed.

Lemma count_where_filter {A : Type} (P : A -> Prop) `{forall x, Decision (P x)}
    (l : list A) :
  count_where (fun x => bool_decide (P x)) l = len (filter P l).
Proof.
  unfold count_where, len. induction l as [|x l IH]; simpl; [done|].
  rewrite filter_cons, IH. case_bool_decide.
  - rewrite decide_True by done. simpl. lia.
  - rewrite decide_False by done. lia.
Qed.

(** The values of a dict whose keys are the hole numbers add up to the sum
    over the holes. *)
Lemma sum_values_over_holes (d : gmap Z Z) (holes : list Hole) :
  NoDup (number <$> holes) ->
  (forall n, n ∉ number <$> holes -> d !! n = None) ->
  sum_values d = sum_over (fun h => default 0 (d !! number h)) holes.
Proof.
  revert d. induction holes as [|h holes IH]; intros d Hnd Hdom.
  - assert (d = ∅) as ->.
    { apply map_eq. intros n. rewrite lookup_empty. apply Hdom.
      apply not_elem_of_nil. }
    unfold sum_values. by rewrite map_fold_empty.
  - rewrite fmap_cons in Hnd. apply NoDup_cons in Hnd as [Hh Hnd].
    assert (Hrest : sum_values (delete (number h) d) =
              sum_over (fun h' => default 0 (d !! number h')) holes).
    { rewrite (IH (delete (number h) d)); [|done|].
      - apply sum_over_ext. intros h' Hh'. rewrite lookup_delete_ne; [done|].
        intros Heq. apply Hh. rewrite Heq. by apply list_elem_of_fmap_2.
      - intros n Hn. destruct (decide (n = number h)) as [->|Hne].
        + apply lookup_delete_eq.
        + rewrite lookup_delete_ne by done. apply Hdom.
          rewrite fmap_cons. by intros [?|?]%elem_of_cons. }
    simpl. rewrite <- Hrest.
    destruct (d !! number h) as [v|] eqn:Hv; simpl.
    + rewrite <- (insert_delete_id d (number h) v) at 1 by done.
      rewrite sum_values_insert_fresh by apply lookup_delete_eq. done.
    + by rewrite delete_id.
Qed.

(** One pass of the card loop: the lookups succeed and the new state is the
    old one with the contribution of the hole. *)
Lemma card_hole_inv rp received gb pb fb acc h acc' :
  card_hole rp received gb pb fb acc h = Ok acc' ->
  exists g r,
    gb !! number h = Some g /\ received !! number h = Some r /\
    Ok acc' = card_hole rp received gb pb fb acc h /\
    card_row rp gb pb fb received h = stored_row rp gb pb fb received h g r.
Proof.
  intros H. pose proof H as H'. unfold card_hole, subscript in H'.
  destruct (gb !! number h) as [g|] eqn:Hg; [|discriminate].
  destruct (received !! number h) as [r|] eqn:Hr; [|discriminate].
  exists g, r. repeat split; [done|]. unfold card_row. by rewrite Hg, Hr.
Qed.

(** A property that every pass keeps holds after the loop. *)
Lemma card_loop_inv (P : CardAcc -> Prop) rp received gb pb fb holes acc acc' :
  (forall acc h acc', h ∈ holes ->
     card_hole rp received gb pb fb acc h = Ok acc' -> P acc -> P acc') ->
  for_each (card_hole rp received gb pb fb) holes acc = Ok acc' ->
  P acc -> P acc'.
Proof.
  revert acc. induction holes as [|h holes IH]; intros acc Hstep H HP.
  - simpl in H. by injection H as <-.
  - rewrite for_each_cons in H. apply bind_Ok in H as (acc1 & H1 & H2).
    eapply (IH acc1); [|exact H2|].
    + intros a h' a' Hh'. apply Hstep. by right.
    + eapply Hstep; [left|exact H1|exact HP].
Qed.

(** A field that every pass increases by the contribution of the hole is,
    after the loop, the sum of the contributions. *)
Lemma card_loop_sum (f : CardAcc -> Z) (c : Hole -> Z)
    rp received gb pb fb holes acc acc' :
  (forall acc h acc', h ∈ holes ->
     card_hole rp received gb pb fb acc h = Ok acc' -> f acc' = f acc + c h) ->
  for_each (card_hole rp received gb pb fb) holes acc = Ok acc' ->
  f acc' = f acc + sum_over c holes.
Proof.
  revert acc. induction holes as [|h holes IH]; intros acc Hstep H.
  - simpl in H. injection H as <-. simpl. lia.
  - rewrite for_each_cons in H. apply bind_Ok in H as (acc1 & H1 & H2).
    rewrite (IH acc1); [|intros a h' a' Hh'; apply Hstep; by right|exact H2].
    rewrite (Hstep acc h acc1); [simpl; lia|left|done].
Qed.

(** The rows handed to [db.add], one per hole in hole order. *)
Lemma card_loop_added rp received gb pb fb holes acc acc' :
  for_each (card_hole rp received gb pb fb) holes acc = Ok acc' ->
  a_added acc' = a_added acc ++ (card_row rp gb pb fb received <$> holes) /\
  forall h, h ∈ holes ->
    is_Some (gb !! number h) /\ is_Some (received !! number h).
Proof.
  revert acc. induction holes as [|h holes IH]; intros acc H.
  - simpl in H. injection H as <-. split; [by rewrite app_nil_r|].
    intros h Hh. by apply elem_of_nil in Hh.
  - rewrite for_each_cons in H. apply bind_Ok in H as (acc1 & H1 & H2).
    apply card_hole_inv in H1 as (g & r & Hg & Hr & Hacc1 & Hrow).
    destruct (IH acc1 H2) as [Hadd Hall]. split.
    + rewrite Hadd, fmap_cons, Hrow.
      unfold card_hole, subscript in Hacc1. rewrite Hg, Hr in Hacc1.
      simpl in Hacc1. injection Hacc1 as ->. simpl.
      by rewrite <- app_assoc.
    + intros h' [->|Hh']%elem_of_cons; [|by apply Hall].
      rewrite Hg, Hr. split; by eexists.
Qed.

(** The steps of a successful save: the loop ran through and what it
    produced fitted the columns. *)
Lemma save_card_steps db rp holes gb pb fb summary db' :
  save_card_for_round_player db rp holes gb pb fb = (Ok summary, db') ->
  exists received acc,
    strokes_received_per_hole (rp_course_handicap rp) holes = Ok received /\
    for_each (card_hole rp received gb pb fb) holes card_acc_init = Ok acc /\
    card_fits acc = true /\
    summary = card_summary acc /\
    db' = commit_card (delete_card db rp) rp acc /\
    a_added acc = card_row rp gb pb fb received <$> holes.
Proof.
  unfold save_card_for_round_player. intros H.
  destruct (strokes_received_per_hole (rp_course_handicap rp) holes)
    as [received|e] eqn:Hrec; simpl in H; [|discriminate].
  destruct (for_each _ holes card_acc_init) as [acc|e] eqn:Hloop;
    [|discriminate].
  destruct (card_fits acc) eqn:Hfits; [|discriminate].
  injection H as <- <-. exists received, acc. repeat split; try done.
  by destruct (card_loop_added _ _ _ _ _ _ _ _ Hloop) as [-> _].
Qed.

Lemma save_card_inv db rp holes gb pb fb summary db' :
  save_card_for_round_player db rp holes gb pb fb = (Ok summary, db') ->
  exists received acc,
    strokes_received_per_hole (rp_course_handicap rp) holes = Ok received /\
    for_each (card_hole rp received gb pb fb) holes card_acc_init = Ok acc /\
    summary = card_summary acc /\
    db' = commit_card (delete_card db rp) rp acc /\
    a_added acc = card_row rp gb pb fb received <$> holes.
Proof.
  intros H. apply save_card_steps in H
    as (received & acc & Hrec & Hloop & _ & Hs & Hdb & Hadd).
  by exists received, acc.
Qed.

(** The hole scores of the round player after the commit are the new rows. *)
Lemma hole_scores_after_commit db rp acc :
  Forall (fun hs => hs_round_player_id hs = rp_id rp) (a_added acc) ->
  hole_scores_of (commit_card (delete_card db rp) rp acc) rp = a_added acc.
Proof.
  intros Hall. unfold hole_scores_of, commit_card, delete_card. simpl.
  rewrite filter_app.
  assert (Hold : filter (fun hs => hs_round_player_id hs = rp_id rp)
            (filter (fun hs => hs_round_player_id hs <> rp_id rp)
               (db_hole_scores db)) = []).
  { induction (db_hole_scores db) as [|x l IH]; [done|].
    destruct (decide (hs_round_player_id x = rp_id rp)).
    - by rewrite (filter_cons_False (fun hs => hs_round_player_id hs <> _))
        by tauto.
    - rewrite (filter_cons_True (fun hs => hs_round_player_id hs <> _))
        by done.
      by rewrite filter_cons_False by done. }
  rewrite Hold. simpl.
  induction Hall as [|x l Hx Hl IH]; [done|].
  rewrite filter_cons_True by done. by rewrite IH.
Qed.

Lemma card_rows_owner rp gb pb fb received holes :
  Forall (fun hs => hs_round_player_id hs = rp_id rp)
    (card_row rp gb pb fb received <$> holes).
Proof. apply Forall_fmap, Forall_forall. by intros h _. Qed.

(** The round player row after the commit. *)
Lemma round_player_after_commit db rp acc x :
  x ∈ db_round_players (commit_card (delete_card db rp) rp acc) ->
  rp_id x = rp_id rp ->
  exists x0, x0 ∈ db_round_players db /\ x = with_totals x0 acc.
Proof.
  unfold commit_card, delete_card. simpl. intros Hx Hid.
  apply list_elem_of_fmap in Hx as (x0 & -> & Hx0).
  exists x0. split; [done|].
  destruct (rp_id x0 =? rp_id rp) eqn:E; [done|]. lia.
Qed.

Ltac card_step H :=
  apply card_hole_inv in H as (?g & ?r & ?Hg & ?Hr & ?Heq & ?Hrow);
  unfold card_hole, subscript in Heq;
  rewrite Hg, Hr in Heq; simpl in Heq; injection Heq as ->;
  rewrite ?Hrow; simpl.

(** X4. After a successful save the hole scores of the round player are
    one row per hole of the course, in hole order, and the totals returned
    and written on the round player are the sums over these rows: gross,
    net and handicap-Stableford totals, and the putts total, in which a
    hole without putts counts 0. *)
Theorem save_card_totals_match_rows db rp holes gb pb fb summary db' :
  save_card_for_round_player db rp holes gb pb fb = (Ok summary, db') ->
  let rows := hole_scores_of db' rp in
  hole_number <$> rows = number <$> holes /\
  cs_gross_total summary = sum_over gross_strokes rows /\
  cs_net_total summary = sum_over (fun hs => default 0 (net_strokes hs)) rows /\
  cs_points_total summary =
    sum_over (fun hs => default 0 (hs_stableford_points hs)) rows /\
  (forall x, x ∈ db_round_players db' -> rp_id x = rp_id rp ->
     gross_total x = Some (cs_gross_total summary) /\
     net_total x = Some (cs_net_total summary) /\
     stableford_hcp_total x = Some (cs_points_total summary) /\
     putts_total x = Some (sum_over (fun hs => default 0 (putts hs)) rows)).
Proof.
  intros H. apply save_card_inv in H
    as (received & acc & Hrec & Hloop & -> & -> & Hadd).
  cbv zeta. rewrite hole_scores_after_commit
    by (rewrite Hadd; apply card_rows_owner).
  rewrite Hadd, !sum_over_fmap, <- list_fmap_compose. simpl.
  pose proof (fun f c Hs => card_loop_sum f c _ _ _ _ _ _ _ _ Hs Hloop) as Hsum.
  assert (Hgross : a_gross_total acc =
            sum_over (fun h => gross_strokes (card_row rp gb pb fb received h)) holes).
  { rewrite (Hsum a_gross_total
               (fun h => gross_strokes (card_row rp gb pb fb received h))); [done|].
    intros a h a' _ Hs. by card_step Hs. }
  assert (Hnet : a_net_total acc =
            sum_over (fun h => default 0 (net_strokes (card_row rp gb pb fb received h)))
              holes).
  { rewrite (Hsum a_net_total
               (fun h => default 0 (net_strokes (card_row rp gb pb fb received h)))); [done|].
    intros a h a' _ Hs. by card_step Hs. }
  assert (Hpts : a_points_total acc =
            sum_over (fun h => default 0
                        (hs_stableford_points (card_row rp gb pb fb received h)))
              holes).
  { rewrite (Hsum a_points_total
               (fun h => default 0
                  (hs_stableford_points (card_row rp gb pb fb received h)))); [done|].
    intros a h a' _ Hs. by card_step Hs. }
  assert (Hputts : a_putts_total acc =
            sum_over (fun h => default 0 (putts (card_row rp gb pb fb received h)))
              holes).
  { rewrite (Hsum a_putts_total
               (fun h => default 0 (putts (card_row rp gb pb fb received h)))); [done|].
    intros a h a' _ Hs. by card_step Hs. }
  split; [done|]. split; [done|]. split; [done|]. split; [done|].
  intros x Hx Hid.
  apply round_player_after_commit in Hx as (x0 & _ & ->); [|done].
  simpl. by rewrite Hputts.
Qed.

Ltac zbool :=
  repeat (match goal with
          | |- context [Z.eqb ?a ?b] => destruct (Z.eqb_spec a b)
          | |- context [Z.leb ?a ?b] => destruct (Z.leb_spec a b)
          | |- context [Z.ltb ?a ?b] => destruct (Z.ltb_spec a b)
          end; simpl; try lia).

(** A successful save had enough holes for the extra strokes. *)
Lemma strokes_received_Ok_len (ch : Z) (holes : list Hole) (received : gmap Z Z) :
  strokes_received_per_hole ch holes = Ok received -> ch mod 18 <= len holes.
Proof.
  intros H. destruct (decide (ch mod 18 <= len holes)) as [|Hlt]; [done|].
  rewrite strokes_received_overrun in H by lia. discriminate.
Qed.

(** X5. On a course whose hole numbers are distinct, the net total of a
    saved card is the gross total minus the strokes received over the
    course, [(ch // 18) * len(holes) + ch % 18]; on 18 holes this is the
    gross total minus the course handicap of the round player, whatever
    the stroke indexes of the holes are. *)
Theorem save_card_net_total db rp holes gb pb fb summary db' :
  NoDup (number <$> holes) ->
  save_card_for_round_player db rp holes gb pb fb = (Ok summary, db') ->
  let ch := rp_course_handicap rp in
  cs_net_total summary =
    cs_gross_total summary - (ch / 18 * len holes + ch mod 18) /\
  (len holes = 18 -> cs_net_total summary = cs_gross_total summary - ch).
Proof.
  intros Hnd H. apply save_card_inv in H
    as (received & acc & Hrec & Hloop & -> & -> & Hadd).
  cbv zeta. simpl.
  pose proof (strokes_received_Ok_len _ _ _ Hrec) as Hlen.
  destruct (strokes_received_gen _ holes Hnd Hlen)
    as (received' & Hrec' & _ & Hdom & Hsum).
  assert (received' = received) as -> by congruence.
  assert (Hdiff : a_gross_total acc - a_net_total acc =
            sum_over (fun h => default 0 (received !! number h)) holes).
  { pose proof (fun f c Hs => card_loop_sum f c _ _ _ _ _ _ _ _ Hs Hloop)
      as Hfld.
    etransitivity;
      [apply (Hfld (fun a => a_gross_total a - a_net_total a)
                (fun h => default 0 (received !! number h)))|simpl; lia].
    intros a h a' _ Hs. card_step Hs. rewrite Hr. simpl. lia. }
  rewrite <- (sum_values_over_holes received holes Hnd Hdom), Hsum in Hdiff.
  split; [lia|]. intros H18. rewrite H18 in Hdiff.
  pose proof (Z.div_mod (rp_course_handicap rp) 18). lia.
Qed.

(** X6. The counters returned by a successful save: every hole falls in
    exactly one of the eight result categories, so these add up to the
    number of holes; the possible fairways are the holes whose par is not
    3 and the possible greens the holes with putts; the hits never exceed
    the possible ones; the Stableford total lies between 0 and 6 points a
    hole. *)
Theorem save_card_counters db rp holes gb pb fb summary db' :
  save_card_for_round_player db rp holes gb pb fb = (Ok summary, db') ->
  cs_hio summary + cs_albatros summary + cs_eagles summary +
    cs_birdies summary + cs_pars summary + cs_bogeys summary +
    cs_dbl summary + cs_overdbl summary = len holes /\
  cs_fir_possible summary = len (filter (fun h => par h <> 3) holes) /\
  0 <= cs_fir_total summary <= cs_fir_possible summary /\
  cs_gir_possible summary =
    len (filter (fun h => is_Some (putts_value pb h)) holes) /\
  0 <= cs_gir_total summary <= cs_gir_possible summary /\
  0 <= cs_points_total summary <= 6 * len holes.
Proof.
  intros H. apply save_card_inv in H
    as (received & acc & Hrec & Hloop & -> & -> & Hadd).
  simpl.
  pose proof (fun f c Hs => card_loop_sum f c _ _ _ _ _ _ _ _ Hs Hloop) as Hsum.
  pose proof (fun P Hs => card_loop_inv P _ _ _ _ _ _ _ _ Hs Hloop) as Hinv.
  split; [|split; [|split; [|split; [|split]]]].
  - etransitivity;
      [apply (Hsum (fun a => a_hio a + a_albatros a + a_eagles a +
                              a_birdies a + a_pars a + a_bogeys a + a_dbl a +
                              a_overdbl a) (fun _ => 1))
      |simpl; rewrite sum_over_const; lia].
    intros a h a' _ Hs. card_step Hs. unfold incr_if. zbool.
  - rewrite <- count_where_filter.
    rewrite (Hsum a_fir_possible
               (fun h => if bool_decide (par h <> 3) then 1 else 0)); [done|].
    intros a h a' _ Hs. card_step Hs. unfold incr_if.
    case_bool_decide; zbool.
  - apply (Hinv (fun a => 0 <= a_fir_total a <= a_fir_possible a)); [|done].
    intros a h a' _ Hs Ha. card_step Hs. unfold incr_if, fir_value.
    destruct (par h =? 3); simpl; [lia|].
    destruct (py_bool _); lia.
  - rewrite <- count_where_filter.
    rewrite (Hsum a_gir_possible
               (fun h => if bool_decide (is_Some (putts_value pb h)) then 1 else 0));
      [done|].
    intros a h a' _ Hs. card_step Hs. unfold incr_if.
    destruct (bool_decide _); lia.
  - apply (Hinv (fun a => 0 <= a_gir_total a <= a_gir_possible a)); [|done].
    intros a h a' _ Hs Ha. card_step Hs. unfold incr_if, gir_value.
    destruct (putts_value pb h) as [p|]; simpl.
    + destruct (g - p <=? par h - 2); simpl; lia.
    + lia.
  - assert (Hpts : a_points_total acc = a_points_total card_acc_init +
              sum_over (fun h => default 0
                 (hs_stableford_points (card_row rp gb pb fb received h))) holes).
    { apply Hsum. intros a h a' _ Hs. by card_step Hs. }
    rewrite Hpts. simpl.
    pose proof (sum_over_bounds
      (fun h => default 0 (hs_stableford_points (card_row rp gb pb fb received h)))
      0 6 holes) as Hb.
    apply Hb. intros h _. unfold card_row. simpl.
    rewrite stableford_points_clamp. lia.
Qed.

(** What is left when [save_card_for_round_player] raises: the card of the
    round player has been deleted and nothing else has changed. *)
Lemma delete_card_state db rp :
  hole_scores_of (delete_card db rp) rp = [] /\
  db_round_players (delete_card db rp) = db_round_players db.
Proof.
  split; [|done]. unfold hole_scores_of, delete_card. simpl.
  induction (db_hole_scores db) as [|x l IH]; [done|].
  destruct (decide (hs_round_player_id x = rp_id rp)).
  - by rewrite (filter_cons_False (fun hs => hs_round_player_id hs <> _))
      by tauto.
  - rewrite (filter_cons_True (fun hs => hs_round_player_id hs <> _)) by done.
    by rewrite filter_cons_False by done.
Qed.

(** The card loop stops with [KeyError] at the first hole without a gross
    score. *)
Lemma card_loop_missing_gross rp received gb pb fb holes acc :
  (forall h, h ∈ holes -> is_Some (received !! number h)) ->
  (exists h, h ∈ holes /\ gb !! number h = None) ->
  for_each (card_hole rp received gb pb fb) holes acc = Err KeyError.
Proof.
  revert acc. induction holes as [|h holes IH]; intros acc Hr (h0 & Hh0 & Hg0).
  - by apply elem_of_nil in Hh0.
  - rewrite for_each_cons.
    destruct (gb !! number h) as [g|] eqn:Hg.
    + destruct (Hr h) as [r Hrh]; [left|].
      assert (exists acc1, card_hole rp received gb pb fb acc h = Ok acc1)
        as [acc1 ->].
      { unfold card_hole, subscript. rewrite Hg, Hrh. by eexists. }
      simpl. apply IH.
      * intros h' Hh'. apply Hr. by right.
      * apply elem_of_cons in Hh0 as [->|Hh0]; [congruence|]. eauto.
    + unfold card_hole, subscript. by rewrite Hg.
Qed.

Lemma fits_integer_spec (z : Z) :
  fits_integer z = true <-> - 2 ^ 63 <= z < 2 ^ 63.
Proof. unfold fits_integer. rewrite andb_true_iff. lia. Qed.

(** What a card of 32-bit values on fewer than [2^30] holes produces fits
    the columns. *)
Lemma card_fits_small rp received gb pb fb holes acc :
  for_each (card_hole rp received gb pb fb) holes card_acc_init = Ok acc ->
  len holes <= 2 ^ 30 ->
  - 2 ^ 31 <= rp_id rp <= 2 ^ 31 ->
  (forall h, h ∈ holes ->
     - 2 ^ 31 <= number h <= 2 ^ 31 /\
     - 2 ^ 31 <= default 0 (gb !! number h) <= 2 ^ 31 /\
     - 2 ^ 31 <= default 0 (received !! number h) <= 2 ^ 31 /\
     - 2 ^ 31 <= default 0 (putts_value pb h) <= 2 ^ 31) ->
  card_fits acc = true.
Proof.
  intros Hloop Hlen Hid Hsmall.
  destruct (card_loop_added _ _ _ _ _ _ _ _ Hloop) as [Hadd _].
  simpl in Hadd.
  pose proof (fun f c Hs => card_loop_sum f c _ _ _ _ _ _ _ _ Hs Hloop) as Hsum.
  assert (Hbound : forall (f : CardAcc -> Z) (c : Hole -> Z),
    f card_acc_init = 0 ->
    (forall a h a', h ∈ holes ->
       card_hole rp received gb pb fb a h = Ok a' -> f a' = f a + c h) ->
    (forall h, h ∈ holes -> - 2 ^ 32 <= c h <= 2 ^ 32) ->
    fits_integer (f acc) = true).
  { intros f c H0 Hstep Hc. apply fits_integer_spec.
    rewrite (Hsum f c Hstep), H0.
    pose proof (sum_over_bounds c (- 2 ^ 32) (2 ^ 32) holes Hc) as Hb.
    assert (0 <= len holes) by (unfold len; lia).
    change (2 ^ 63) with (2 ^ 32 * 2 ^ 31). change (2 ^ 30) with 1073741824 in Hlen.
    change (2 ^ 32) with 4294967296 in *. change (2 ^ 31) with 2147483648 in *.
    nia. }
  unfold card_fits. rewrite !andb_true_iff.
  split; [split; [split; [split; [split|]|]|]|].
  - rewrite Hadd. apply forallb_forall. intros hs Hhs.
    apply list_elem_of_In, list_elem_of_fmap in Hhs as (h & -> & Hh).
    destruct (Hsmall h Hh) as (Hn & Hg & Hr & Hp).
    pose proof (stableford_points_clamp
                  (default 0 (gb !! number h) - default 0 (received !! number h))
                  (par h)) as Hpts.
    unfold row_fits. rewrite !andb_true_iff, !fits_integer_spec.
    unfold card_row, stored_row.
    cbn [hs_round_player_id hole_number gross_strokes putts net_strokes
         hs_stableford_points default].
    rewrite Hpts. unfold id in *.
    change (2 ^ 63) with 9223372036854775808.
    change (2 ^ 31) with 2147483648 in *. lia.
  - apply (Hbound a_gross_total (fun h => default 0 (gb !! number h)));
      [done| |].
    + intros a h a' _ Hs. card_step Hs. rewrite ?Hg, ?Hr. simpl. lia.
    + intros h Hh. destruct (Hsmall h Hh) as (Hn & Hg & Hr & Hp).
      change (2 ^ 32) with 4294967296; change (2 ^ 31) with 2147483648 in *; lia.
  - apply (Hbound a_net_total
             (fun h => default 0 (gb !! number h)
                       - default 0 (received !! number h))); [done| |].
    + intros a h a' _ Hs. card_step Hs. rewrite ?Hg, ?Hr. simpl. lia.
    + intros h Hh. destruct (Hsmall h Hh) as (Hn & Hg & Hr & Hp).
      change (2 ^ 32) with 4294967296; change (2 ^ 31) with 2147483648 in *; lia.
  - apply (Hbound a_points_total
             (fun h => stableford_points
                         (default 0 (gb !! number h)
                          - default 0 (received !! number h)) (par h)));
      [done| |].
    + intros a h a' _ Hs. card_step Hs. rewrite ?Hg, ?Hr. simpl. lia.
    + intros h Hh. rewrite stableford_points_clamp.
      change (2 ^ 32) with 4294967296; lia.
  - apply (Hbound a_scratch_points_total
             (fun h => stableford_points (default 0 (gb !! number h)) (par h)));
      [done| |].
    + intros a h a' _ Hs. card_step Hs. rewrite ?Hg, ?Hr. simpl. lia.
    + intros h Hh. rewrite stableford_points_clamp.
      change (2 ^ 32) with 4294967296; lia.
  - apply (Hbound a_putts_total (fun h => default 0 (putts_value pb h)));
      [done| |].
    + intros a h a' _ Hs. card_step Hs. rewrite ?Hg, ?Hr. simpl. lia.
    + intros h Hh. destruct (Hsmall h Hh) as (Hn & Hg & Hr & Hp).
      change (2 ^ 32) with 4294967296; change (2 ^ 31) with 2147483648 in *; lia.
Qed.

(** X7. The outcome of [save_card_for_round_player], case by case. With
    fewer holes than [ch % 18] it raises [IndexError]; else, with a hole
    that has no gross score, it raises [KeyError]; else it reaches the
    final commit, and either returns or raises [OverflowError] there. It
    returns when the hole numbers are distinct, there are at most [2^30]
    holes, and the id, the course handicap, the hole numbers, the gross
    scores and the putts are all between [-2^31] and [2^31]. When it
    returns, every int of the stored rows and every total written fits a
    64-bit column. When it raises, the earlier card of the round player is
    already deleted and committed: the round player is left without hole
    scores and with the totals it had. *)
Theorem save_card_outcome db rp holes gb pb fb :
  let ch := rp_course_handicap rp in
  let res := save_card_for_round_player db rp holes gb pb fb in
  let small := fun z : Z => - 2 ^ 31 <= z <= 2 ^ 31 in
  let stored := fun o : option Z => fits_integer (default 0 o) = true in
  (len holes < ch mod 18 -> res = (Err IndexError, delete_card db rp)) /\
  (ch mod 18 <= len holes ->
   (exists h, h ∈ holes /\ gb !! number h = None) ->
   res = (Err KeyError, delete_card db rp)) /\
  (ch mod 18 <= len holes ->
   (forall h, h ∈ holes -> is_Some (gb !! number h)) ->
   (exists summary db', res = (Ok summary, db')) \/
   res = (Err OverflowError, delete_card db rp)) /\
  (ch mod 18 <= len holes -> len holes <= 2 ^ 30 ->
   NoDup (number <$> holes) -> small (rp_id rp) -> small ch ->
   (forall h, h ∈ holes ->
      small (number h) /\
      (exists g, gb !! number h = Some g /\ small g) /\
      small (default 0 (putts_value pb h))) ->
   exists summary db', res = (Ok summary, db')) /\
  (forall summary db', res = (Ok summary, db') ->
   Forall (fun hs => row_fits hs = true) (hole_scores_of db' rp) /\
   forall x, x ∈ db_round_players db' -> rp_id x = rp_id rp ->
     stored (gross_total x) /\ stored (net_total x) /\
     stored (stableford_hcp_total x) /\
     stored (stableford_scratch_total x) /\ stored (putts_total x)) /\
  hole_scores_of (delete_card db rp) rp = [] /\
  db_round_players (delete_card db rp) = db_round_players db.
Proof.
  cbv zeta.
  split; [|split; [|split; [|split; [|split; [|apply delete_card_state]]]]].
  - intros Hlen. unfold save_card_for_round_player.
    by rewrite strokes_received_overrun.
  - intros Hlen Hmiss. unfold save_card_for_round_player.
    destruct (strokes_received_returns _ holes Hlen) as (received & -> & Hdom).
    simpl. by rewrite card_loop_missing_gross.
  - intros Hlen Hall. unfold save_card_for_round_player.
    destruct (strokes_received_returns _ holes Hlen) as (received & -> & Hdom).
    simpl.
    destruct (card_loop_ok rp received gb pb fb holes card_acc_init Hall Hdom)
      as [acc ->].
    destruct (card_fits acc); [left; by eexists _, _ | by right].
  - intros Hlen Hmany Hnd Hid Hch Hsmall. unfold save_card_for_round_player.
    destruct (strokes_received_gen _ holes Hnd Hlen)
      as (received & Hrec & Hpos & _).
    rewrite Hrec. simpl.
    assert (Hr : forall h, h ∈ holes ->
              exists r, received !! number h = Some r /\
                        - 2 ^ 31 <= r <= 2 ^ 31).
    { intros h Hh. rewrite <- (ordered_perm holes) in Hh.
      apply list_elem_of_lookup in Hh as [i Hi].
      eexists. split; [by apply (Hpos i h)|].
      pose proof (Z.mod_pos_bound (rp_course_handicap rp) 18).
      pose proof (Z.div_mod (rp_course_handicap rp) 18).
      change (2 ^ 31) with 2147483648 in *. case_decide; lia. }
    destruct (card_loop_ok rp received gb pb fb holes card_acc_init)
      as [acc Hloop].
    { intros h Hh. destruct (Hsmall h Hh) as (_ & (g & -> & _) & _).
      by eexists. }
    { intros h Hh. destruct (Hr h Hh) as (r & -> & _). by eexists. }
    rewrite Hloop.
    rewrite (card_fits_small _ _ _ _ _ _ _ Hloop Hmany Hid);
      [by eexists _, _|].
    intros h Hh. destruct (Hsmall h Hh) as (Hn & (g & -> & Hg) & Hp).
    destruct (Hr h Hh) as (r & -> & Hrb). done.
  - intros summary db' Hok. apply save_card_steps in Hok
      as (received & acc & Hrec & Hloop & Hfits & -> & -> & Hadd).
    unfold card_fits in Hfits. rewrite !andb_true_iff in Hfits.
    destruct Hfits as (((((Hrows & Hg) & Hn) & Hp) & Hs) & Hpu). split.
    + rewrite hole_scores_after_commit
        by (rewrite Hadd; apply card_rows_owner).
      apply Forall_forall. intros hs Hhs.
      rewrite forallb_forall in Hrows. by apply Hrows, list_elem_of_In.
    + intros x Hx Hid.
      destruct (round_player_after_commit _ _ _ _ Hx Hid) as (x0 & _ & ->).
      done.
Qed.

(** ** Saving a card: what is left alone, and saving twice *)

Lemma filter_other_owner (id : Z) (l : list HoleScore) :
  Forall (fun hs => hs_round_player_id hs = id) l ->
  filter (fun hs => hs_round_player_id hs <> id) l = [].
Proof.
  induction 1 as [|x l Hx Hl IH]; [done|].
  by rewrite filter_cons_False by tauto.
Qed.

Lemma filter_other_idemp (id : Z) (l : list HoleScore) :
  filter (fun hs => hs_round_player_id hs <> id)
    (filter (fun hs => hs_round_player_id hs <> id) l) =
  filter (fun hs => hs_round_player_id hs <> id) l.
Proof. by apply filter_filter_impl. Qed.

Lemma for_each_ext {A S : Type} (f g : S -> A -> py S) (xs : list A) (s : S) :
  (forall s x, f s x = g s x) -> for_each f xs s = for_each g xs s.
Proof.
  intros H. revert s. induction xs as [|x xs IH]; intros s; simpl; [done|].
  rewrite H. destruct (g s x); simpl; [apply IH | done].
Qed.

(** X8. Whether it returns or raises, [save_card_for_round_player] leaves
    the players, courses and rounds as they were, keeps the hole scores of
    every other round player, and changes no round player row other than
    the one of [rp], of which it keeps the identity, the handicaps and the
    result. *)
Theorem save_card_frame db rp holes gb pb fb :
  let db' := snd (save_card_for_round_player db rp holes gb pb fb) in
  db_players db' = db_players db /\
  db_courses db' = db_courses db /\
  db_rounds db' = db_rounds db /\
  filter (fun hs => hs_round_player_id hs <> rp_id rp) (db_hole_scores db') =
    filter (fun hs => hs_round_player_id hs <> rp_id rp) (db_hole_scores db) /\
  Forall2 (fun x x' =>
     rp_id x' = rp_id x /\ round_id x' = round_id x /\
     player_id x' = player_id x /\ hcp_exact_day x' = hcp_exact_day x /\
     rp_course_handicap x' = rp_course_handicap x /\ result x' = result x /\
     (rp_id x <> rp_id rp -> x' = x))
    (db_round_players db) (db_round_players db').
Proof.
  cbv zeta. unfold save_card_for_round_player.
  destruct (strokes_received_per_hole (rp_course_handicap rp) holes ≫= _)
    as [acc|e] eqn:Hrun; cbn [snd].
  - apply bind_Ok in Hrun as (received & _ & Hloop).
    destruct (card_loop_added _ _ _ _ _ _ _ _ Hloop) as [Hadd _].
    simpl in Hadd. destruct (card_fits acc); cbn [snd].
    + unfold commit_card, delete_card. simpl.
      repeat split; try done.
      * rewrite filter_app, filter_other_idemp, Hadd.
        rewrite (filter_other_owner (rp_id rp)
                   (card_row rp gb pb fb received <$> holes))
          by apply card_rows_owner.
        by rewrite app_nil_r.
      * apply Forall2_fmap_r, Forall_Forall2_diag, Forall_forall.
        intros x _. unfold compose.
        destruct (rp_id x =? rp_id rp) eqn:E; simpl;
          [apply Z.eqb_eq in E|]; repeat split; try done; congruence.
    + unfold delete_card. simpl. repeat split; try done.
      * apply filter_other_idemp.
      * apply Forall_Forall2_diag, Forall_forall. intros x _. by repeat split.
  - unfold delete_card. simpl. repeat split; try done.
    + apply filter_other_idemp.
    + apply Forall_Forall2_diag, Forall_forall. intros x _. by repeat split.
Qed.

Lemma card_hole_owner rp rp' received gb pb fb acc h :
  rp_id rp' = rp_id rp ->
  card_hole rp' received gb pb fb acc h = card_hole rp received gb pb fb acc h.
Proof. intros Hid. unfold card_hole, stored_row. by rewrite Hid. Qed.

Lemma commit_card_twice db rp rp' acc :
  rp_id rp' = rp_id rp ->
  Forall (fun hs => hs_round_player_id hs = rp_id rp) (a_added acc) ->
  commit_card (delete_card (commit_card (delete_card db rp) rp acc) rp') rp' acc
  = commit_card (delete_card db rp) rp acc.
Proof.
  intros Hid Hown. unfold commit_card, delete_card. simpl. rewrite Hid. f_equal.
  - rewrite <- list_fmap_compose. apply list_fmap_ext. intros i x _. simpl.
    destruct (rp_id x =? rp_id rp) eqn:E; simpl; [|by rewrite E].
    rewrite E. done.
  - rewrite filter_app, filter_other_idemp.
    by rewrite (filter_other_owner (rp_id rp) (a_added acc)), app_nil_r.
Qed.

(** X9. Saving the same card again changes nothing: after a successful
    save, a second save for the same round player (same id and course
    handicap) with the same inputs returns the same summary and leaves the
    database exactly as the first save left it. *)
Theorem save_card_idempotent db rp rp' holes gb pb fb summary db' :
  save_card_for_round_player db rp holes gb pb fb = (Ok summary, db') ->
  rp_id rp' = rp_id rp ->
  rp_course_handicap rp' = rp_course_handicap rp ->
  save_card_for_round_player db' rp' holes gb pb fb = (Ok summary, db').
Proof.
  intros H Hid Hch. apply save_card_steps in H
    as (received & acc & Hrec & Hloop & Hfits & -> & -> & Hadd).
  unfold save_card_for_round_player at 1. rewrite Hch, Hrec. simpl.
  rewrite (for_each_ext _ (card_hole rp received gb pb fb))
    by (intros; by apply card_hole_owner).
  rewrite Hloop, Hfits. f_equal. apply commit_card_twice; [done|].
  rewrite Hadd. apply card_rows_owner.
Qed.

(** The strokes received on the holes of a course with distinct hole
    numbers have the sign of the course handicap. *)
Lemma strokes_received_sign (ch : Z) (holes : list Hole) (received : gmap Z Z)
    (h : Hole) :
  NoDup (number <$> holes) ->
  strokes_received_per_hole ch holes = Ok received -> h ∈ holes ->
  exists r, received !! number h = Some r /\
            (0 <= ch -> 0 <= r) /\ (ch <= 0 -> r <= 0).
Proof.
  intros Hnd Hrec Hh.
  pose proof (strokes_received_Ok_len _ _ _ Hrec) as Hlen.
  destruct (strokes_received_gen ch holes Hnd Hlen)
    as (received' & Hrec' & Hpos & _).
  assert (received' = received) as -> by congruence.
  rewrite <- (ordered_perm holes) in Hh.
  apply list_elem_of_lookup in Hh as [i Hi].
  eexists. split; [by apply (Hpos i h)|].
  assert (Hmod : 0 <= ch mod 18 < 18) by (apply Z.mod_pos_bound; lia).
  split; intros Hch.
  - assert (0 <= ch / 18) by (apply Z.div_pos; lia). case_decide; lia.
  - destruct (decide (ch = 0)) as [->|Hne].
    + rewrite Z.mod_0_l in * by lia. rewrite Z.div_0_l by lia.
      case_decide; lia.
    + assert (ch / 18 < 0) by (apply Z.div_lt_upper_bound; lia).
      case_decide; lia.
Qed.

(** X10. The two Stableford totals written by a successful save on a
    course with distinct hole numbers: both lie between 0 and 6 points a
    hole; with a course handicap of 0 or more the handicap total is at
    least the scratch total, and with a course handicap of 0 or less it is
    at most the scratch total. *)
Theorem save_card_stableford_totals db rp holes gb pb fb summary db' x :
  NoDup (number <$> holes) ->
  save_card_for_round_player db rp holes gb pb fb = (Ok summary, db') ->
  x ∈ db_round_players db' -> rp_id x = rp_id rp ->
  exists s p,
    stableford_scratch_total x = Some s /\
    stableford_hcp_total x = Some p /\
    p = cs_points_total summary /\
    0 <= s <= 6 * len holes /\ 0 <= p <= 6 * len holes /\
    (0 <= rp_course_handicap rp -> s <= p) /\
    (rp_course_handicap rp <= 0 -> p <= s).
Proof.
  intros Hnd H Hx Hid. apply save_card_inv in H
    as (received & acc & Hrec & Hloop & -> & -> & Hadd).
  apply round_player_after_commit in Hx as (x0 & _ & ->); [|done].
  exists (a_scratch_points_total acc), (a_points_total acc). simpl.
  pose proof (fun f c Hs => card_loop_sum f c _ _ _ _ _ _ _ _ Hs Hloop) as Hsum.
  destruct (card_loop_added _ _ _ _ _ _ _ _ Hloop) as [_ Hlook].
  set (cs := fun h => stableford_points (default 0 (gb !! number h)) (par h)).
  set (cp := fun h =>
    stableford_points
      (default 0 (gb !! number h) - default 0 (received !! number h)) (par h)).
  assert (Hs : a_scratch_points_total acc = sum_over cs holes).
  { rewrite (Hsum a_scratch_points_total cs); [done|].
    intros a h a' _ Hst. card_step Hst. unfold cs. by rewrite Hg. }
  assert (Hp : a_points_total acc = sum_over cp holes).
  { rewrite (Hsum a_points_total cp); [done|].
    intros a h a' _ Hst. card_step Hst. unfold cp. by rewrite Hg, Hr. }
  rewrite Hs, Hp. repeat split; try done.
  - apply (sum_over_bounds cs 0 6). intros h _. unfold cs.
    rewrite stableford_points_clamp. lia.
  - apply (sum_over_bounds cs 0 6). intros h _. unfold cs.
    rewrite stableford_points_clamp. lia.
  - apply (sum_over_bounds cp 0 6). intros h _. unfold cp.
    rewrite stableford_points_clamp. lia.
  - apply (sum_over_bounds cp 0 6). intros h _. unfold cp.
    rewrite stableford_points_clamp. lia.
  - intros Hch. apply sum_over_le. intros h Hh. unfold cs, cp.
    destruct (strokes_received_sign _ _ _ h Hnd Hrec Hh) as (r & -> & Hr & _).
    simpl. apply stableford_points_antitone. specialize (Hr Hch). lia.
  - intros Hch. apply sum_over_le. intros h Hh. unfold cs, cp.
    destruct (strokes_received_sign _ _ _ h Hnd Hrec Hh) as (r & -> & _ & Hr).
    simpl. apply stableford_points_antitone. specialize (Hr Hch). lia.
Qed.

(** ** Closing a round: failure, frame and idempotence *)

(** The outcome of [close_round_and_set_winner] when it returns. *)
Lemma close_round_inv (db : DB) (rid : Z) (db' : DB) :
  close_round_and_set_winner db rid = (Ok tt, db') ->
  exists m r wt ids res,
    py_max (omap stableford_hcp_total (get_round_players db rid)) = Ok m /\
    get_round db rid = Some r /\
    db' = commit_round db rid (set_winner r wt ids) res /\
    (wt = "single" \/ wt = "tie").
Proof.
  unfold close_round_and_set_winner. intros H.
  destruct (py_max _) as [m|e] eqn:Hm; [|discriminate].
  destruct (get_round db rid) as [r|] eqn:Hr; [|discriminate].
  exists m, r.
  destruct (filter _ _) as [|w [|w' ws]]; injection H as <-;
    eexists _, _, _; repeat split; eauto.
Qed.

Lemma get_round_id (db : DB) (rid : Z) (r : Round) :
  get_round db rid = Some r -> r_id r = rid.
Proof.
  unfold get_round. intros H.
  apply head_Some_elem_of, list_elem_of_filter in H. tauto.
Qed.

(** X11. Closing a round that does not exist never succeeds and changes
    nothing: with no round player of that id carrying a handicap-Stableford
    total the call raises [ValueError] from [max], and otherwise
    [AttributeError] when the winner is written on the missing round. *)
Theorem close_round_missing_round (db : DB) (rid : Z) :
  get_round db rid = None ->
  ((forall rp, rp ∈ get_round_players db rid ->
      stableford_hcp_total rp = None) ->
   close_round_and_set_winner db rid = (Err ValueError, db)) /\
  ((exists rp, rp ∈ get_round_players db rid /\
               is_Some (stableford_hcp_total rp)) ->
   close_round_and_set_winner db rid = (Err AttributeError, db)).
Proof.
  intros Hr. unfold close_round_and_set_winner. rewrite Hr. split.
  - intros Hnone. by rewrite (omap_all_None _ _ Hnone).
  - intros (rp & Hrp & [t Ht]).
    destruct (py_max_nonempty
                (omap stableford_hcp_total (get_round_players db rid)))
      as [m ->]; [|done].
    intros Hnil. assert (Hin : t ∈ omap stableford_hcp_total
                                 (get_round_players db rid))
      by (apply list_elem_of_omap; eauto).
    rewrite Hnil in Hin. by apply elem_of_nil in Hin.
Qed.

Lemma commit_round_frame (db : DB) (rid : Z) (r' : Round)
    (res : RoundPlayer -> string) :
  r_id r' = rid ->
  let db' := commit_round db rid r' res in
  db_players db' = db_players db /\
  db_courses db' = db_courses db /\
  db_hole_scores db' = db_hole_scores db /\
  Forall2 (fun r r2 => r_id r2 = r_id r /\ (r_id r <> rid -> r2 = r))
    (db_rounds db) (db_rounds db') /\
  Forall2 (fun x x' =>
     rp_id x' = rp_id x /\ round_id x' = round_id x /\
     player_id x' = player_id x /\ hcp_exact_day x' = hcp_exact_day x /\
     rp_course_handicap x' = rp_course_handicap x /\
     gross_total x' = gross_total x /\ net_total x' = net_total x /\
     stableford_hcp_total x' = stableford_hcp_total x /\
     stableford_scratch_total x' = stableford_scratch_total x /\
     putts_total x' = putts_total x /\
     (round_id x <> rid -> x' = x))
    (db_round_players db) (db_round_players db').
Proof.
  intros Hid. unfold commit_round. simpl. repeat split; try done.
  - apply Forall2_fmap_r, Forall_Forall2_diag, Forall_forall.
    intros x _. unfold compose.
    destruct (r_id x =? r_id r') eqn:E; simpl;
      [apply Z.eqb_eq in E|]; repeat split; try done; congruence.
  - apply Forall2_fmap_r, Forall_Forall2_diag, Forall_forall.
    intros x _. unfold compose.
    destruct (round_id x =? rid) eqn:E; simpl;
      [apply Z.eqb_eq in E|]; repeat split; try done; congruence.
Qed.

(** X12. Whether it returns or raises, [close_round_and_set_winner] leaves
    players, courses and hole scores as they were, changes no round other
    than the one it closes, and on the round players changes at most the
    result of the participants of that round: identities, handicaps and
    all totals are kept. *)
Theorem close_round_frame (db : DB) (rid : Z) :
  let db' := snd (close_round_and_set_winner db rid) in
  db_players db' = db_players db /\
  db_courses db' = db_courses db /\
  db_hole_scores db' = db_hole_scores db /\
  Forall2 (fun r r2 => r_id r2 = r_id r /\ (r_id r <> rid -> r2 = r))
    (db_rounds db) (db_rounds db') /\
  Forall2 (fun x x' =>
     rp_id x' = rp_id x /\ round_id x' = round_id x /\
     player_id x' = player_id x /\ hcp_exact_day x' = hcp_exact_day x /\
     rp_course_handicap x' = rp_course_handicap x /\
     gross_total x' = gross_total x /\ net_total x' = net_total x /\
     stableford_hcp_total x' = stableford_hcp_total x /\
     stableford_scratch_total x' = stableford_scratch_total x /\
     putts_total x' = putts_total x /\
     (round_id x <> rid -> x' = x))
    (db_round_players db) (db_round_players db').
Proof.
  cbv zeta.
  destruct (close_round_and_set_winner db rid) as [[[]|e] db'] eqn:H.
  - apply close_round_inv in H as (m & r & wt & ids & res & _ & Hr & -> & _).
    apply commit_round_frame. simpl. by apply (get_round_id db).
  - assert (db' = db) as ->.
    { unfold close_round_and_set_winner in H.
      destruct (py_max _); [|by injection H].
      destruct (get_round db rid); [|by injection H].
      by destruct (filter _ _) as [|? [|? ?]]. }
    simpl. repeat split; try done;
      apply Forall_Forall2_diag, Forall_forall; intros x _; by repeat split.
Qed.

Lemma omap_total_set_result (res : RoundPlayer -> string) (l : list RoundPlayer) :
  omap stableford_hcp_total ((fun rp => set_result rp (res rp)) <$> l) =
  omap stableford_hcp_total l.
Proof.
  induction l as [|x l IH]; [done|]. csimpl. by rewrite IH.
Qed.

Lemma filter_total_set_result (res : RoundPlayer -> string) (m : Z)
    (l : list RoundPlayer) :
  filter (fun rp => stableford_hcp_total rp = Some m)
    ((fun rp => set_result rp (res rp)) <$> l) =
  (fun rp => set_result rp (res rp)) <$>
    filter (fun rp => stableford_hcp_total rp = Some m) l.
Proof.
  induction l as [|x l IH]; [done|]. rewrite fmap_cons, !filter_cons. simpl.
  case_decide; by rewrite IH.
Qed.

Lemma rp_in_set_result (res : RoundPlayer -> string) (rp : RoundPlayer)
    (winners : list RoundPlayer) :
  rp_in rp ((fun w => set_result w (res w)) <$> winners) = rp_in rp winners.
Proof.
  unfold rp_in. induction winners as [|w ws IH]; [done|].
  csimpl. by rewrite IH.
Qed.

Lemma commit_round_twice (db : DB) (rid : Z) (r' r2 : Round)
    (res res' : RoundPlayer -> string) :
  r2 = r' ->
  (forall x, res' (set_result x (res x)) = res x) ->
  commit_round (commit_round db rid r' res) rid r2 res' =
  commit_round db rid r' res.
Proof.
  intros -> Hres. unfold commit_round. simpl. f_equal.
  - rewrite <- list_fmap_compose. apply list_fmap_ext. intros i x _. simpl.
    destruct (r_id x =? r_id r') eqn:E; simpl; [|by rewrite E].
    by rewrite Z.eqb_refl.
  - rewrite <- list_fmap_compose. apply list_fmap_ext. intros i x _. simpl.
    destruct (round_id x =? rid) eqn:E; simpl; rewrite E; [|done].
    by rewrite Hres.
Qed.

Lemma tie_ids_set_result (res : RoundPlayer -> string) (l : list RoundPlayer) :
  join "," (py_str <$> (player_id <$>
    ((fun rp => set_result rp (res rp)) <$> l))) =
  join "," (py_str <$> (player_id <$> l)).
Proof.
  do 2 f_equal. rewrite <- list_fmap_compose. by apply list_fmap_ext.
Qed.

(** X13. Closing a round that is already closed changes nothing: when the
    call returns, calling it again returns too and leaves the database
    exactly as the first call left it. *)
Theorem close_round_idempotent (db : DB) (rid : Z) (db' : DB) :
  close_round_and_set_winner db rid = (Ok tt, db') ->
  close_round_and_set_winner db' rid = (Ok tt, db').
Proof.
  intros H. pose proof H as Hinv.
  apply close_round_inv in Hinv as (m & r & _ & _ & _ & Hm & Hr & _ & _).
  pose proof (get_round_id _ _ _ Hr) as Hrid.
  unfold close_round_and_set_winner in H. rewrite Hm, Hr in H.
  set (rps := get_round_players db rid) in *.
  set (winners := filter (fun rp => stableford_hcp_total rp = Some m) rps) in *.
  assert (Hstep : forall wt ids res,
    let db1 := commit_round db rid (set_winner r wt ids) res in
    get_round db1 rid = Some (set_winner r wt ids) /\
    py_max (omap stableford_hcp_total (get_round_players db1 rid)) = Ok m /\
    filter (fun rp => stableford_hcp_total rp = Some m)
      (get_round_players db1 rid) =
    (fun rp => set_result rp (res rp)) <$> winners).
  { intros wt ids res. cbv zeta.
    split; [by apply (round_after_commit db rid r)|].
    rewrite round_players_after_commit. fold rps.
    by rewrite omap_total_set_result, filter_total_set_result. }
  assert (Hgoal : forall wt ids res,
    (Ok tt, commit_round db rid (set_winner r wt ids) res) = (Ok tt, db') ->
    (winners = [] \/ (1 < length winners)%nat ->
     wt = "tie" /\ ids = join "," (py_str <$> (player_id <$> winners)) /\
     res = fun rp => if rp_in rp winners then "tie" else "loss") ->
    (forall w, winners = [w] ->
     wt = "single" /\ ids = py_str (player_id w) /\
     res = fun rp => if rp_id rp =? rp_id w then "win" else "loss") ->
    close_round_and_set_winner db' rid = (Ok tt, db')).
  { intros wt ids res [= <-] Htie Hsingle.
    destruct (Hstep wt ids res) as (Hr' & Hm' & Hw').
    unfold close_round_and_set_winner. rewrite Hm', Hr', Hw'.
    destruct winners as [|w [|w2 ws]] eqn:Hw.
    - destruct Htie as (-> & -> & ->); [by left|].
      cbn [fmap list_fmap]. f_equal. by apply commit_round_twice.
    - destruct (Hsingle w eq_refl) as (-> & -> & ->).
      cbn [fmap list_fmap]. f_equal. by apply commit_round_twice.
    - destruct Htie as (-> & -> & ->); [right; simpl; lia|].
      pose proof (tie_ids_set_result
        (fun rp => if rp_in rp (w :: w2 :: ws) then "tie" else "loss")
        (w :: w2 :: ws)) as Hids.
      pose proof (fun x => rp_in_set_result
        (fun rp => if rp_in rp (w :: w2 :: ws) then "tie" else "loss")
        x (w :: w2 :: ws)) as Hin.
      cbn [fmap list_fmap] in *. f_equal. apply commit_round_twice.
      + by rewrite Hids.
      + intros x. by rewrite Hin. }
  destruct winners as [|w [|w2 ws]] eqn:Hw.
  - apply (Hgoal _ _ _ H); [done|]. intros w; discriminate.
  - apply (Hgoal _ _ _ H).
    + intros [|Hl]; [discriminate | simpl in Hl; lia].
    + by intros w' [= <-].
  - apply (Hgoal _ _ _ H); [done|]. intros w'; discriminate.
Qed.

(** ** The card handler: saving, then closing the round *)

Lemma close_round_returns (db : DB) (rid : Z) (r : Round) (rp : RoundPlayer) :
  get_round db rid = Some r ->
  rp ∈ get_round_players db rid -> is_Some (stableford_hcp_total rp) ->
  exists db' r',
    close_round_and_set_winner db rid = (Ok tt, db') /\
    get_round db' rid = Some r' /\
    (winner_type r' = Some "single" \/ winner_type r' = Some "tie").
Proof.
  intros Hr Hrp [t Ht].
  destruct (py_max_nonempty
              (omap stableford_hcp_total (get_round_players db rid)))
    as [m Hm].
  { intros Hnil. assert (Hin : t ∈ omap stableford_hcp_total
                                 (get_round_players db rid))
      by (apply list_elem_of_omap; eauto).
    rewrite Hnil in Hin. by apply elem_of_nil in Hin. }
  unfold close_round_and_set_winner. rewrite Hm, Hr.
  destruct (filter _ _) as [|w [|w' ws]]; eexists _, _;
    (split; [reflexivity|]);
    (split; [by apply (round_after_commit db rid r)|]); simpl; auto.
Qed.

(** X14. Steps 3 and 4 of [round_card_player_save]. When the round exists
    and the card of one of its round players is saved successfully, the
    handler does not raise: if every round player of the round then has a
    gross total the round is closed, with a winner type "single" or "tie";
    if some round player has none the round is left open and the database
    is the one the save left. *)
Theorem save_card_and_close_returns (db : DB) (rid : Z) (r : Round)
    (rp : RoundPlayer) holes gb pb fb summary (db1 : DB) :
  get_round db rid = Some r ->
  rp ∈ db_round_players db -> round_id rp = rid ->
  save_card_for_round_player db rp holes gb pb fb = (Ok summary, db1) ->
  exists db2,
    save_card_and_close db rid rp holes gb pb fb = (Ok tt, db2) /\
    ((forall x, x ∈ get_round_players db1 rid -> is_Some (gross_total x)) ->
     db2 = snd (close_round_and_set_winner db1 rid) /\
     exists r2, get_round db2 rid = Some r2 /\
       (winner_type r2 = Some "single" \/ winner_type r2 = Some "tie")) /\
    ((exists x, x ∈ get_round_players db1 rid /\ gross_total x = None) ->
     db2 = db1 /\ get_round db2 rid = Some r).
Proof.
  intros Hr Hrp Hrid Hsave.
  unfold save_card_and_close. rewrite Hsave.
  apply save_card_inv in Hsave
    as (received & acc & Hrec & Hloop & -> & -> & Hadd).
  set (db1 := commit_card (delete_card db rp) rp acc).
  assert (Hr1 : get_round db1 rid = Some r) by done.
  assert (Hin : with_totals rp acc ∈ get_round_players db1 rid).
  { unfold get_round_players, db1, commit_card, delete_card. simpl.
    apply list_elem_of_filter. split; [done|].
    apply list_elem_of_fmap. exists rp. split; [|done].
    by rewrite Z.eqb_refl. }
  destruct (close_round_returns db1 rid r (with_totals rp acc) Hr1 Hin)
    as (db2 & r2 & Hclose & Hr2 & Hwt); [by eexists|].
  destruct (forallb _ (get_round_players db1 rid)) eqn:Hall.
  - exists db2. split; [done|]. split.
    + intros _. rewrite Hclose. eauto.
    + intros (x & Hx & Hnone). exfalso.
      rewrite forallb_forall in Hall.
      specialize (Hall x ltac:(by apply list_elem_of_In)).
      apply bool_decide_eq_true in Hall. rewrite Hnone in Hall.
      by destruct Hall.
  - exists db1. split; [done|]. split; [|done].
    intros Hgross. exfalso.
    assert (Htrue : forallb (fun x => bool_decide (is_Some (gross_total x)))
                      (get_round_players db1 rid) = true); [|congruence].
    apply forallb_forall. intros x Hx. apply bool_decide_eq_true, Hgross.
    by apply list_elem_of_In.
Qed.

(** ** The loop body of the round summary *)

Lemma par_map_fold_lookup (holes : list Hole) (d : gmap Z Z) (h : Hole) :
  NoDup (number <$> holes) -> h ∈ holes ->
  fold_left (fun d h => <[number h := par h]> d) holes d !! number h
  = Some (par h).
Proof.
  revert d. induction holes as [|h0 holes IH]; intros d Hnd Hh.
  - by apply elem_of_nil in Hh.
  - rewrite fmap_cons in Hnd. apply NoDup_cons in Hnd as [Hh0 Hnd].
    apply elem_of_cons in Hh as [->|Hh]; [|by apply IH].
    cbn [fold_left].
    assert (Hkeep : forall (l : list Hole) (d' : gmap Z Z),
              number h0 ∉ number <$> l ->
              fold_left (fun d h => <[number h := par h]> d) l d' !! number h0
              = d' !! number h0).
    { clear. induction l as [|x l IH]; intros d' Hx; [done|].
      cbn [fold_left]. rewrite IH.
      - apply lookup_insert_ne. intros Heq. apply Hx. rewrite fmap_cons.
        rewrite <- Heq. left.
      - intros Hin. apply Hx. rewrite fmap_cons. by right. }
    rewrite Hkeep by done. apply lookup_insert_eq.
Qed.

Lemma par_map_lookup (holes : list Hole) (h : Hole) :
  NoDup (number <$> holes) -> h ∈ holes ->
  par_map holes !! number h = Some (par h).
Proof. apply par_map_fold_lookup. Qed.

Lemma count_py_acc {A : Type} (cond : A -> py bool) (b : A -> bool)
    (xs : list A) (n : Z) :
  (forall x, x ∈ xs -> cond x = Ok (b x)) ->
  for_each (fun n x => v ← cond x; Ok (incr_if v n)) xs n =
  Ok (n + count_where b xs).
Proof.
  revert n. induction xs as [|x xs IH]; intros n H.
  - simpl. f_equal. unfold count_where. simpl. lia.
  - rewrite for_each_cons, (H x) by left. simpl.
    rewrite IH by (intros y Hy; apply H; by right).
    f_equal. unfold count_where, incr_if. simpl. destruct (b x); lia.
Qed.

Lemma count_py_ok {A : Type} (cond : A -> py bool) (b : A -> bool)
    (xs : list A) :
  (forall x, x ∈ xs -> cond x = Ok (b x)) ->
  count_py cond xs = Ok (count_where b xs).
Proof. intros H. unfold count_py. by rewrite (count_py_acc cond b). Qed.

Lemma count_where_fmap {A B : Type} (f : A -> B) (b : B -> bool) (l : list A) :
  count_where b (f <$> l) = sum_over (fun x => if b (f x) then 1 else 0) l.
Proof. unfold count_where. by rewrite sum_over_fmap. Qed.

Lemma percentage_returns (total possible : Z) :
  exists v, percentage total possible = Ok v /\
            (v = None <-> possible <= 0).
Proof.
  unfold percentage, int_truediv. destruct (0 <? possible) eqn:E.
  - destruct (possible =? 0) eqn:E0; [lia|]. simpl.
    eexists. split; [reflexivity|]. split; [discriminate | lia].
  - eexists. split; [reflexivity|]. split; [lia | done].
Qed.

Lemma putts_average_returns (putts_holes : list Z) :
  exists v, putts_average putts_holes = Ok v /\
            (v = None <-> putts_holes = []).
Proof.
  destruct putts_holes as [|p l].
  - by exists None.
  - unfold putts_average, int_truediv.
    destruct (len (p :: l) =? 0) eqn:E; [unfold len in E; simpl in E; lia|].
    simpl. eexists. split; [reflexivity|]. split; discriminate.
Qed.

(** The counters that the summary counts again from the rows of a saved
    card are the counters of the card loop. *)
Lemma summary_counters_of_card rp received gb pb fb holes acc :
  NoDup (number <$> holes) ->
  for_each (card_hole rp received gb pb fb) holes card_acc_init = Ok acc ->
  let scores := card_row rp gb pb fb received <$> holes in
  let pm := par_map holes in
  count_where (fun s => bool_decide (fir s = Some true)) scores
    = a_fir_total acc /\
  count_where (fun s => bool_decide (fir s <> None)) scores
    = a_fir_possible acc /\
  count_where (fun s => bool_decide (gir s = Some true)) scores
    = a_gir_total acc /\
  count_where (fun s => bool_decide (gir s <> None)) scores
    = a_gir_possible acc /\
  count_where (fun s => gross_strokes s =? 1) scores = a_hio acc /\
  count_py (vs_par pm (fun d => d <=? -3)) scores = Ok (a_albatros acc) /\
  count_py (vs_par pm (fun d => d =? -2)) scores = Ok (a_eagles acc) /\
  count_py (vs_par pm (fun d => d =? -1)) scores = Ok (a_birdies acc) /\
  count_py (vs_par pm (fun d => d =? 0)) scores = Ok (a_pars acc) /\
  count_py (vs_par pm (fun d => d =? 1)) scores = Ok (a_bogeys acc) /\
  count_py (vs_par pm (fun d => d =? 2)) scores = Ok (a_dbl acc) /\
  count_py (vs_par pm (fun d => 3 <=? d)) scores = Ok (a_overdbl acc).
Proof.
  intros Hnd Hloop. cbv zeta.
  set (row := card_row rp gb pb fb received).
  pose proof (fun f c Hs => card_loop_sum f c _ _ _ _ _ _ _ _ Hs Hloop) as Hsum.
  assert (Hcat : forall (test : Z -> bool) (f : CardAcc -> Z),
    f card_acc_init = 0 ->
    (forall a h a', card_hole rp received gb pb fb a h = Ok a' ->
       f a' = f a + if negb (gross_strokes (row h) =? 1) &&
                       test (gross_strokes (row h) - par h)
                    then 1 else 0) ->
    count_py (vs_par (par_map holes) test) (row <$> holes) = Ok (f acc)).
  { intros test f H0 Hstep.
    rewrite (count_py_ok _ (fun s =>
      negb (gross_strokes s =? 1) &&
      test (gross_strokes s - default 0 (par_map holes !! hole_number s)))).
    - f_equal. rewrite count_where_fmap.
      rewrite (Hsum f (fun h => if negb (gross_strokes (row h) =? 1) &&
                                   test (gross_strokes (row h) - par h)
                                then 1 else 0)), H0.
      + simpl. apply sum_over_ext. intros h Hh.
        change (hole_number (row h)) with (number h).
        by rewrite par_map_lookup.
      + intros a h a' _. apply Hstep.
    - intros s Hs. apply list_elem_of_fmap in Hs as (h & -> & Hh).
      unfold vs_par. change (hole_number (row h)) with (number h).
      unfold subscript. rewrite par_map_lookup by done. simpl.
      by destruct (_ =? 1). }
  assert (Hcnt : forall (b : HoleScore -> bool) (f : CardAcc -> Z),
    f card_acc_init = 0 ->
    (forall a h a', card_hole rp received gb pb fb a h = Ok a' ->
       f a' = f a + if b (row h) then 1 else 0) ->
    count_where b (row <$> holes) = f acc).
  { intros b f H0 Hstep. rewrite count_where_fmap.
    rewrite (Hsum f (fun h => if b (row h) then 1 else 0)), H0; [done|].
    intros a h a' _. apply Hstep. }
  repeat apply conj.
  - apply Hcnt; [done|]. intros a h a' Hs. unfold row. card_step Hs.
    unfold incr_if, fir_value. destruct (par h =? 3); simpl; [lia|].
    destruct (py_bool _); simpl; lia.
  - apply Hcnt; [done|]. intros a h a' Hs. unfold row. card_step Hs.
    unfold incr_if, fir_value. destruct (par h =? 3); simpl; lia.
  - apply Hcnt; [done|]. intros a h a' Hs. unfold row. card_step Hs.
    unfold incr_if, gir_value. destruct (putts_value pb h); simpl; [|lia].
    destruct (_ <=? _); simpl; lia.
  - apply Hcnt; [done|]. intros a h a' Hs. unfold row. card_step Hs.
    unfold incr_if, gir_value. destruct (putts_value pb h); simpl; lia.
  - apply Hcnt; [done|]. intros a h a' Hs. unfold row. card_step Hs.
    unfold incr_if. destruct (g =? 1); lia.
  - apply (Hcat (fun d => d <=? -3) a_albatros); [done|].
    intros a h a' Hs. unfold row. card_step Hs. unfold incr_if.
    destruct (negb (g =? 1) && (g - par h <=? -3)); lia.
  - apply (Hcat (fun d => d =? -2) a_eagles); [done|].
    intros a h a' Hs. unfold row. card_step Hs. unfold incr_if.
    destruct (negb (g =? 1) && (g - par h =? -2)); lia.
  - apply (Hcat (fun d => d =? -1) a_birdies); [done|].
    intros a h a' Hs. unfold row. card_step Hs. unfold incr_if.
    destruct (negb (g =? 1) && (g - par h =? -1)); lia.
  - apply (Hcat (fun d => d =? 0) a_pars); [done|].
    intros a h a' Hs. unfold row. card_step Hs. unfold incr_if.
    destruct (negb (g =? 1) && (g - par h =? 0)); lia.
  - apply (Hcat (fun d => d =? 1) a_bogeys); [done|].
    intros a h a' Hs. unfold row. card_step Hs. unfold incr_if.
    destruct (negb (g =? 1) && (g - par h =? 1)); lia.
  - apply (Hcat (fun d => d =? 2) a_dbl); [done|].
    intros a h a' Hs. unfold row. card_step Hs. unfold incr_if.
    destruct (negb (g =? 1) && (g - par h =? 2)); lia.
  - apply (Hcat (fun d => 3 <=? d) a_overdbl); [done|].
    intros a h a' Hs. unfold row. card_step Hs. unfold incr_if.
    destruct (negb (g =? 1) && (3 <=? g - par h)); lia.
Qed.

(** X15. The loop body of [round_summary] for a round player whose card
    was saved, on a course with distinct hole numbers. The level of play
    divides by the slope of the course without a guard: with slope 0 the
    body raises [ZeroDivisionError]. With any other slope it returns, no
    lookup in the par dict failing; the totals of the row are those the
    save wrote, the level of play is computed from the saved gross total,
    and the counters recomputed from the stored hole scores (fairways and
    greens hit and possible, the eight result categories) are those that
    the save returned. A percentage is null exactly when its counter of
    possible holes is 0. *)
Theorem round_summary_counts_match_save db rp holes gb pb fb summary db'
    (x : RoundPlayer) (rating : float) (slope : Z) :
  NoDup (number <$> holes) ->
  save_card_for_round_player db rp holes gb pb fb = (Ok summary, db') ->
  x ∈ db_round_players db' -> rp_id x = rp_id rp ->
  (slope = 0 ->
   round_summary_row db' holes rating slope x = Err ZeroDivisionError) /\
  (slope <> 0 ->
   exists row,
     round_summary_row db' holes rating slope x = Ok row /\
     rs_gross_total row = Some (cs_gross_total summary) /\
     rs_net_total row = Some (cs_net_total summary) /\
     rs_points row = Some (cs_points_total summary) /\
     rs_level_hcp row =
       Some (fdiv (fmul (fsub (float_of_int (cs_gross_total summary)) rating)
                        (float_of_int 113))
                  (float_of_int slope)) /\
     rs_fir row = cs_fir_total summary /\
     rs_fir_possible row = cs_fir_possible summary /\
     (rs_fir_pct row = None <-> cs_fir_possible summary = 0) /\
     rs_gir row = cs_gir_total summary /\
     rs_gir_possible row = cs_gir_possible summary /\
     (rs_gir_pct row = None <-> cs_gir_possible summary = 0) /\
     rs_hio row = cs_hio summary /\
     rs_albatros row = cs_albatros summary /\
     rs_eagles row = cs_eagles summary /\
     rs_birdies row = cs_birdies summary /\
     rs_pars row = cs_pars summary /\
     rs_bogeys row = cs_bogeys summary /\
     rs_dbl row = cs_dbl summary /\
     rs_overdbl row = cs_overdbl summary).
Proof.
  intros Hnd H Hx Hid. apply save_card_inv in H
    as (received & acc & Hrec & Hloop & -> & -> & Hadd).
  destruct (round_player_after_commit _ _ _ _ Hx Hid) as (x0 & _ & ->).
  destruct (summary_counters_of_card _ _ _ _ _ _ _ Hnd Hloop)
    as (Hfir & Hfirp & Hgir & Hgirp & Hhio & Halb & Heag & Hbir & Hpar &
        Hbog & Hdbl & Hover).
  assert (Hposs : 0 <= a_fir_possible acc /\ 0 <= a_gir_possible acc).
  { split.
    - apply (card_loop_inv (fun a => 0 <= a_fir_possible a) _ _ _ _ _ _ _ _)
        with (2 := Hloop); [|simpl; lia].
      intros a h a' _ Hs Ha. card_step Hs. unfold incr_if.
      destruct (negb _); lia.
    - apply (card_loop_inv (fun a => 0 <= a_gir_possible a) _ _ _ _ _ _ _ _)
        with (2 := Hloop); [|simpl; lia].
      intros a h a' _ Hs Ha. card_step Hs. unfold incr_if.
      destruct (bool_decide _); lia. }
  unfold round_summary_row.
  replace (hole_scores_of (commit_card (delete_card db rp) rp acc)
             (with_totals x0 acc))
    with (a_added acc); cycle 1.
  { symmetry. unfold hole_scores_of at 1. rewrite Hid.
    apply hole_scores_after_commit. rewrite Hadd. apply card_rows_owner. }
  rewrite Hadd, Hfir, Hfirp, Hgir, Hgirp, Hhio.
  destruct (percentage_returns (a_fir_total acc) (a_fir_possible acc))
    as (fp & -> & Hfp).
  destruct (percentage_returns (a_gir_total acc) (a_gir_possible acc))
    as (gp & -> & Hgp).
  destruct (putts_average_returns
              (omap putts (card_row rp gb pb fb received <$> holes)))
    as (pa & -> & _).
  cbn [mbind py_bind]. unfold level_of_play, float_div_int.
  cbn [gross_total with_totals]. split.
  - intros ->. done.
  - intros Hs. destruct (slope =? 0) eqn:E; [lia|].
    cbn [mbind py_bind].
    rewrite Halb, Heag, Hbir, Hpar, Hbog, Hdbl, Hover. cbn [mbind py_bind].
    eexists. split; [reflexivity|]. simpl.
    destruct Hposs as [Hf Hg].
    repeat split; try done.
    + intros Hn. apply Hfp in Hn. lia.
    + intros Hz. apply Hfp. lia.
    + intros Hn. apply Hgp in Hn. lia.
    + intros Hz. apply Hgp. lia.
Qed.

(** ** Deleting a round *)

Lemma get_round_deleted (db : DB) (rid : Z) :
  get_round (delete_round db rid) rid = None.
Proof.
  unfold delete_round. destruct (get_round db rid) as [r|] eqn:Hr; [|done].
  apply get_round_id in Hr. unfold get_round. simpl.
  rewrite (list_elem_of_not_nil_inv (filter _ (filter _ _))); [done|].
  intros x Hx. apply list_elem_of_filter in Hx as [Hx1 Hx].
  apply list_elem_of_filter in Hx as [Hx2 _]. congruence.
Qed.

Lemma filter_ext_in {A : Type} (P Q : A -> Prop)
    `{forall x, Decision (P x)} `{forall x, Decision (Q x)} (l : list A) :
  (forall x, x ∈ l -> P x <-> Q x) -> filter P l = filter Q l.
Proof.
  induction l as [|x l IH]; intros HPQ; [done|].
  assert (Hx : P x <-> Q x) by (apply HPQ; left).
  assert (Hl : filter P l = filter Q l)
    by (apply IH; intros y Hy; apply HPQ; by right).
  rewrite !filter_cons, Hl. repeat case_decide; tauto.
Qed.

(** X16. Deleting a round that exists removes the round, every round
    player of the round and, by the cascade, every hole score of these
    round players; players and courses, the other rounds and, the ids of
    the round players being distinct, the round players and hole scores of
    the other rounds are kept. *)
Theorem delete_round_effect (db : DB) (rid : Z) (r : Round) :
  get_round db rid = Some r ->
  let db' := delete_round db rid in
  get_round db' rid = None /\
  get_round_players db' rid = [] /\
  (forall rp hs, rp ∈ get_round_players db rid -> hs ∈ db_hole_scores db' ->
     hs_round_player_id hs <> rp_id rp) /\
  db_players db' = db_players db /\
  db_courses db' = db_courses db /\
  db_rounds db' = filter (fun x => r_id x <> rid) (db_rounds db) /\
  (NoDup (rp_id <$> db_round_players db) ->
   db_round_players db' =
     filter (fun x => round_id x <> rid) (db_round_players db) /\
   forall rp, rp ∈ db_round_players db' ->
     hole_scores_of db' rp = hole_scores_of db rp).
Proof.
  intros Hr. cbv zeta. split; [apply get_round_deleted|].
  pose proof (get_round_id _ _ _ Hr) as Hrid.
  unfold delete_round. rewrite Hr. unfold round_players_of. rewrite Hrid.
  fold (get_round_players db rid).
  set (ids := rp_id <$> get_round_players db rid).
  assert (Hids : forall x, x ∈ db_round_players db -> round_id x = rid ->
            rp_id x ∈ ids).
  { intros x Hx Hxr. apply list_elem_of_fmap_2, list_elem_of_filter. by split. }
  simpl. split; [|split; [|split; [done|split; [done|split; [done|]]]]].
  - apply list_elem_of_not_nil_inv. intros x Hx.
    unfold get_round_players in Hx. simpl in Hx.
    apply list_elem_of_filter in Hx as [Hx1 Hx].
    apply list_elem_of_filter in Hx as [Hx2 Hx]. by apply Hx2, Hids.
  - intros rp hs Hrp Hhs Heq. apply list_elem_of_filter in Hhs as [Hhs _].
    apply Hhs. rewrite Heq. by apply list_elem_of_fmap_2.
  - intros Hnd.
    assert (Hiff : forall x, x ∈ db_round_players db ->
              rp_id x ∉ ids <-> round_id x <> rid).
    { intros x Hx. split.
      - intros Hnot Hxr. by apply Hnot, Hids.
      - intros Hxr Hin. apply list_elem_of_fmap in Hin as (y & Hid & Hy).
        apply list_elem_of_filter in Hy as [Hyr Hy].
        assert (x = y) by (by apply (NoDup_key_inj rp_id _ x y Hnd)).
        congruence. }
    split.
    + by apply filter_ext_in.
    + intros rp Hrp. apply list_elem_of_filter in Hrp as [Hnot Hrp].
      unfold hole_scores_of. simpl.
      apply filter_filter_impl. intros hs _ ->. done.
Qed.

(** X17. Deleting a round that is not there changes nothing, and deleting
    twice is the same as deleting once. *)
Theorem delete_round_idempotent (db : DB) (rid : Z) :
  (get_round db rid = None -> delete_round db rid = db) /\
  delete_round (delete_round db rid) rid = delete_round db rid.
Proof.
  split.
  - intros Hr. unfold delete_round. by rewrite Hr.
  - unfold delete_round at 1. by rewrite get_round_deleted.
Qed.

(** ** The standings: outcome, open leagues *)

(** All the steps of [compute_league_standings] when it returns. *)
Lemma standings_steps (db : DB) (league : League) (rounds : list Round)
    (st : Standings) :
  compute_league_standings db league rounds = Ok st ->
  let entries := (league_stats db rounds).*2 in
  exists net_opts ptable,
    map_py net_row entries = Ok net_opts /\
    map_py player_row entries = Ok ptable /\
    sorted_by_key main_key key_fzs_lt (main_row <$> entries) = Ok (st_main st) /\
    sorted_by_key net_key key_fzs_lt (omap id net_opts) = Ok (st_net st) /\
    sorted_by_key scratch_key key_zzs_lt (omap scratch_row entries)
      = Ok (st_scratch st) /\
    sorted_by_key player_key key_fs_lt ptable = Ok (st_players_table st) /\
    champion_ids (if league_closed league then main_champions (st_main st) else [])
      = Ok (champ_main_players st) /\
    champion_ids (if league_closed league then net_champions (st_net st) else [])
      = Ok (champ_net_players st) /\
    champion_ids
      (if league_closed league then scratch_champions (st_scratch st) else [])
      = Ok (champ_scratch_players st).
Proof.
  unfold compute_league_standings. intros H.
  apply bind_Ok in H as (net_opts & Hnet & H).
  apply bind_Ok in H as (ptable & Hptable & H).
  apply bind_Ok in H as (main_rows & Hmain & H).
  apply bind_Ok in H as (net_rows & Hnets & H).
  apply bind_Ok in H as (scratch_rows & Hscr & H).
  apply bind_Ok in H as (ptable' & Hptable' & H).
  apply bind_Ok in H as (main_ids & Hmi & H).
  apply bind_Ok in H as (net_ids & Hni & H).
  apply bind_Ok in H as (scratch_ids & Hsi & H).
  injection H as <-. simpl. exists net_opts, ptable. by repeat split.
Qed.

(** A comprehension whose function raises nothing but [e] raises [e] as
    soon as it raises on one element. *)
Lemma map_py_err {A B : Type} (f : A -> py B) (e : PyErr) (xs : list A) :
  (forall x e', x ∈ xs -> f x = Err e' -> e' = e) ->
  (exists x, x ∈ xs /\ f x = Err e) ->
  map_py f xs = Err e.
Proof.
  induction xs as [|x xs IH]; intros Honly (x0 & Hx0 & Hf0).
  - by apply elem_of_nil in Hx0.
  - simpl. destruct (f x) as [y|e'] eqn:Hfx; simpl.
    + rewrite IH; [done| |].
      * intros x' e' Hx'. apply Honly. by right.
      * apply elem_of_cons in Hx0 as [->|Hx0]; [congruence|]. eauto.
    + f_equal. apply (Honly x); [left|done].
Qed.

(** A field of the statistics that every participation updates by [step]
    is, after the loop over the rounds, the fold of [step] over the
    participations of the player. *)
Section field_folds.
Context {T : Type}.
Variable db : DB.
Variable fld : Stats -> T.
Variable step : T -> RoundPlayer -> T.
Hypothesis fld_round : forall r s rp,
  fld (stats_add_round db r s rp) = step (fld s) rp.
Hypothesis fld_f1 : forall s points, fld (stats_add_f1 s points) = fld s.

Lemma base_fold_gen (r : Round) (rps : list RoundPlayer)
    (st : list (Z * Stats)) (pid : Z) :
  fld (stats_get (fold_left (base_step db r) rps st) pid) =
  fold_left step (filter (fun rp => player_id rp = pid) rps)
    (fld (stats_get st pid)).
Proof.
  revert st. induction rps as [|rp rps IH]; intros st; [done|].
  cbn [fold_left]. rewrite IH. unfold base_step.
  destruct (decide (player_id rp = pid)) as [<-|Hne].
  - rewrite filter_cons_True by done.
    by rewrite stats_get_set_eq, fld_round.
  - rewrite filter_cons_False by done. by rewrite stats_get_set_ne.
Qed.

Lemma f1_fold_gen (points : float) (winners : list RoundPlayer)
    (st : list (Z * Stats)) (pid : Z) :
  fld (stats_get (fold_left (f1_step points) winners st) pid) =
  fld (stats_get st pid).
Proof.
  revert st. induction winners as [|rp rps IH]; intros st; [done|].
  cbn [fold_left]. rewrite IH. unfold f1_step.
  destruct (decide (player_id rp = pid)) as [<-|Hne].
  - by rewrite stats_get_set_eq, fld_f1.
  - by rewrite stats_get_set_ne.
Qed.

Lemma league_round_gen (st : list (Z * Stats)) (r : Round) (pid : Z) :
  fld (stats_get (league_round db st r) pid) =
  fold_left step
    (filter (fun rp => player_id rp = pid) (scored_players db r))
    (fld (stats_get st pid)).
Proof.
  rewrite league_round_unfold.
  destruct (scored_players db r) as [|rp0 rps0] eqn:Hs; [done|].
  cbv zeta. destruct (round_f1 db r) as [[winners points]|].
  - by rewrite f1_fold_gen, base_fold_gen.
  - by rewrite base_fold_gen.
Qed.

Lemma league_fold_gen (rounds : list Round) (st : list (Z * Stats)) (pid : Z) :
  fld (stats_get (fold_left (league_round db) rounds st) pid) =
  fold_left step (participations db rounds pid) (fld (stats_get st pid)).
Proof.
  revert st. induction rounds as [|r rounds IH]; intros st; [done|].
  cbn [fold_left]. rewrite IH, league_round_gen.
  assert (participations db (r :: rounds) pid =
          filter (fun rp => player_id rp = pid) (scored_players db r) ++
          participations db rounds pid) as -> by reflexivity.
  by rewrite fold_left_app.
Qed.

Lemma league_stats_fold (rounds : list Round) (pid : Z) :
  fld (stats_get (league_stats db rounds) pid) =
  fold_left step (participations db rounds pid) (fld stats_default).
Proof. unfold league_stats. by rewrite league_fold_gen. Qed.
End field_folds.

(** A property of the entries of [stats] that the first participation of
    a player establishes and that every later update keeps holds of every
    entry after the loop over the rounds. The rounds may be restricted to
    those with a property [R]. *)
Section entry_invariant.
Variable db : DB.
Variable R : Round -> Prop.
Variable P : Stats -> Prop.
Hypothesis P_new : forall r rp,
  rp ∈ scored_players db r -> P (stats_add_round db r stats_default rp).
Hypothesis P_round : forall r s rp,
  rp ∈ scored_players db r -> P s -> P (stats_add_round db r s rp).
Hypothesis P_f1 : forall r winners points s,
  R r -> round_f1 db r = Some (winners, points) ->
  P s -> P (stats_add_f1 s points).

Lemma stats_get_inv (st : list (Z * Stats)) (k : Z) :
  Forall (fun e => P (snd e)) st ->
  stats_lookup st k = None \/ P (stats_get st k).
Proof.
  intros Hst. unfold stats_get.
  destruct (stats_lookup st k) as [s|] eqn:Hl; [right|by left].
  apply stats_lookup_elem in Hl. rewrite Forall_forall in Hst.
  exact (Hst _ Hl).
Qed.

Lemma base_fold_inv (r : Round) (rps : list RoundPlayer)
    (st : list (Z * Stats)) :
  (forall rp, rp ∈ rps -> rp ∈ scored_players db r) ->
  Forall (fun e => P (snd e)) st ->
  Forall (fun e => P (snd e)) (fold_left (base_step db r) rps st) /\
  forall rp, rp ∈ rps ->
    player_id rp ∈ fst <$> fold_left (base_step db r) rps st.
Proof.
  revert st. induction rps as [|rp rps IH]; intros st Hsc Hst.
  - split; [done|]. intros rp Hrp. by apply elem_of_nil in Hrp.
  - cbn [fold_left].
    assert (Hstep : Forall (fun e => P (snd e)) (base_step db r st rp)).
    { unfold base_step. apply stats_set_Forall; [done|]. simpl.
      destruct (stats_get_inv st (player_id rp) Hst) as [Hnone|HP].
      - unfold stats_get. rewrite Hnone. simpl. apply P_new, Hsc. left.
      - apply P_round; [apply Hsc; left | done]. }
    destruct (IH (base_step db r st rp)) as [HI Hkeys]; [|done|].
    { intros rp' Hrp'. apply Hsc. by right. }
    split; [done|]. intros rp' [->|Hrp']%elem_of_cons; [|by apply Hkeys].
    apply (fold_left_inv (fun st => player_id rp ∈ fst <$> st)).
    + intros s x. unfold base_step. apply stats_set_key_mono.
    + unfold base_step. apply stats_set_key_in.
Qed.

Lemma f1_fold_inv (points : float) (winners : list RoundPlayer)
    (st : list (Z * Stats)) :
  (forall s, P s -> P (stats_add_f1 s points)) ->
  (forall rp, rp ∈ winners -> player_id rp ∈ fst <$> st) ->
  Forall (fun e => P (snd e)) st ->
  Forall (fun e => P (snd e)) (fold_left (f1_step points) winners st).
Proof.
  intros Hpts Hkeys Hst.
  cut (Forall (fun e => P (snd e)) (fold_left (f1_step points) winners st) /\
       forall rp, rp ∈ winners ->
         player_id rp ∈ fst <$> fold_left (f1_step points) winners st);
    [tauto|].
  apply (fold_left_inv_in
    (fun st => Forall (fun e => P (snd e)) st /\
               forall rp, rp ∈ winners -> player_id rp ∈ fst <$> st));
    [|done].
  intros s rp Hrp [Hs Hk]. split.
  - unfold f1_step. apply stats_set_Forall; [done|]. simpl.
    destruct (stats_lookup_key s (player_id rp) (Hk rp Hrp)) as (v & Hv & Hin).
    unfold stats_get. rewrite Hv. simpl. apply Hpts.
    rewrite Forall_forall in Hs. exact (Hs _ Hin).
  - intros rp' Hrp'. unfold f1_step. by apply stats_set_key_mono, Hk.
Qed.

Lemma league_round_Forall (st : list (Z * Stats)) (r : Round) :
  R r ->
  Forall (fun e => P (snd e)) st ->
  Forall (fun e => P (snd e)) (league_round db st r).
Proof.
  intros HR Hst. rewrite league_round_unfold.
  destruct (base_fold_inv r (scored_players db r) st (fun rp H => H) Hst)
    as [H1 Hkeys].
  destruct (scored_players db r) as [|rp0 rps0] eqn:Hs; [done|].
  cbv zeta. destruct (round_f1 db r) as [[winners points]|] eqn:Hf; [|done].
  apply f1_fold_inv; [| |done].
  - intros s. by apply (P_f1 r winners).
  - intros rp Hrp. apply Hkeys. rewrite <- Hs.
    by eapply round_f1_winners_scored.
Qed.

Lemma league_stats_Forall (rounds : list Round) :
  (forall r, r ∈ rounds -> R r) ->
  Forall (fun e => P (snd e)) (league_stats db rounds).
Proof.
  intros HR. unfold league_stats.
  apply (fold_left_inv_in (Forall (fun e => P (snd e)))); [|constructor].
  intros s r Hr. apply league_round_Forall. by apply HR.
Qed.
End entry_invariant.

(** Every entry of [stats] counts at least one round. *)
Lemma league_stats_rounds_pos (db : DB) (rounds : list Round) :
  Forall (fun e => 1 <= s_rounds (snd e)) (league_stats db rounds).
Proof.
  apply (league_stats_Forall db (fun _ => True) (fun s => 1 <= s_rounds s));
    [| | |done].
  - intros r rp _. simpl. lia.
  - intros r s rp _ Hs. simpl. lia.
  - intros r winners points s _ _ Hs. done.
Qed.

(** A player with a participation has an entry in [stats]. *)
Lemma league_stats_has_entry (db : DB) (rounds : list Round) (pid : Z) :
  participations db rounds pid <> [] ->
  (pid, stats_get (league_stats db rounds) pid) ∈ league_stats db rounds.
Proof.
  intros Hne.
  destruct (league_stats_totals db rounds pid) as (Hr & _).
  unfold stats_get in *.
  destruct (stats_lookup (league_stats db rounds) pid) as [s|] eqn:Hl.
  - by apply stats_lookup_elem.
  - simpl in Hr. unfold len in Hr.
    destruct (participations db rounds pid); [done|simpl in Hr; lia].
Qed.

Lemma participation_elem (db : DB) (rounds : list Round) (r : Round)
    (rp : RoundPlayer) :
  r ∈ rounds -> rp ∈ scored_players db r ->
  rp ∈ participations db rounds (player_id rp).
Proof.
  intros Hr Hrp. unfold participations. apply list_elem_of_bind.
  exists r. split; [|done]. apply list_elem_of_filter. by split.
Qed.

Lemma participation_inv (db : DB) (rounds : list Round) (pid : Z)
    (rp : RoundPlayer) :
  rp ∈ participations db rounds pid ->
  player_id rp = pid /\ exists r, r ∈ rounds /\ rp ∈ scored_players db r.
Proof.
  unfold participations. intros H.
  apply list_elem_of_bind in H as (r & Hrp & Hr).
  apply list_elem_of_filter in Hrp as [Hpid Hrp]. eauto.
Qed.

(** The player of an entry is the one loaded for its participations. *)
Lemma league_stats_player (db : DB) (rounds : list Round) (pid : Z) :
  s_player (stats_get (league_stats db rounds) pid) =
  fold_left
    (fun b rp => match b with None => player_of db rp | Some p => Some p end)
    (participations db rounds pid) None.
Proof.
  by apply (league_stats_fold db s_player
    (fun b rp => match b with None => player_of db rp | Some p => Some p end)).
Qed.

Lemma main_key_err (row : MainRow) (e : PyErr) :
  main_key row = Err e -> e = AttributeError.
Proof.
  unfold main_key. destruct (mr_player row); simpl; [discriminate|].
  by intros [= <-].
Qed.

(** X18. The outcome of [compute_league_standings]: it returns when the
    player of every round player with a card, over the rounds given, can
    be loaded; when the player of one of them cannot, the row of that
    player has no player and sorting the main table on the player name
    raises [AttributeError]. *)
Theorem standings_outcome (db : DB) (league : League) (rounds : list Round) :
  ((forall r rp, r ∈ rounds -> rp ∈ scored_players db r ->
      is_Some (player_of db rp)) ->
   exists st, compute_league_standings db league rounds = Ok st) /\
  ((exists r rp, r ∈ rounds /\ rp ∈ scored_players db r /\
                 player_of db rp = None) ->
   compute_league_standings db league rounds = Err AttributeError).
Proof.
  split; [apply compute_league_standings_ok|].
  intros (r & rp & Hr & Hrp & Hnone).
  set (pid := player_id rp).
  set (s := stats_get (league_stats db rounds) pid).
  assert (Hs : (pid, s) ∈ league_stats db rounds).
  { apply league_stats_has_entry. intros Hnil.
    pose proof (participation_elem db rounds r rp Hr Hrp) as Hin.
    fold pid in Hin. rewrite Hnil in Hin. by apply elem_of_nil in Hin. }
  assert (Hpl : s_player s = None).
  { unfold s. rewrite league_stats_player.
    assert (Hall : forall rp', rp' ∈ participations db rounds pid ->
              player_of db rp' = None).
    { intros rp' Hrp'. apply participation_inv in Hrp' as [Hpid _].
      unfold player_of in *. by rewrite Hpid. }
    induction (participations db rounds pid) as [|x l IH]; [done|].
    simpl. rewrite Hall by left. apply IH. intros y Hy. apply Hall. by right. }
  unfold compute_league_standings.
  set (entries := (league_stats db rounds).*2).
  destruct (map_py_ok net_row entries) as [net_opts ->].
  { intros s' _. apply net_row_ok. }
  simpl.
  destruct (map_py_ok player_row entries) as [ptable ->].
  { intros s' _. destruct (player_row_ok s') as (row & Hrow & _). eauto. }
  simpl. unfold sorted_by_key.
  rewrite (map_py_err main_key AttributeError); [done| |].
  - intros row e _. apply main_key_err.
  - exists (main_row s). split.
    + apply list_elem_of_fmap_2. apply list_elem_of_fmap. by exists (pid, s).
    + unfold main_key. simpl. by rewrite Hpl.
Qed.

(** X19. Champions are determined for closed leagues only: for a league
    that is not closed (the flag false or null) the three champion lists
    are empty, while the four tables are those of the closed league. *)
Theorem standings_open_league (db : DB) (league : League)
    (rounds : list Round) (st : Standings) :
  compute_league_standings db league rounds = Ok st ->
  is_closed league <> Some true ->
  champ_main_players st = [] /\
  champ_net_players st = [] /\
  champ_scratch_players st = [] /\
  forall league',
    exists st', compute_league_standings db league' rounds = Ok st' /\
      st_main st' = st_main st /\ st_net st' = st_net st /\
      st_scratch st' = st_scratch st /\
      st_players_table st' = st_players_table st.
Proof.
  intros H Hopen.
  assert (Hcl : league_closed league = false).
  { unfold league_closed. by destruct (is_closed league) as [[]|]. }
  apply standings_steps in H
    as (net_opts & ptable & Hnet & Hpt & Hmain & Hnets & Hscr & Hpt' &
        Hmi & Hni & Hsi).
  rewrite Hcl in Hmi, Hni, Hsi. simpl in Hmi, Hni, Hsi.
  injection Hmi as <-. injection Hni as <-. injection Hsi as <-.
  repeat split; try done.
  intros league'. unfold compute_league_standings.
  rewrite Hnet. simpl. rewrite Hpt. simpl. rewrite Hmain. simpl.
  rewrite Hnets. simpl. rewrite Hscr. simpl. rewrite Hpt'. simpl.
  destruct (champion_ids_ok
    (if league_closed league' then main_champions (st_main st) else []))
    as [main_ids ->].
  { intros p Hp. destruct (league_closed league');
      [|by apply elem_of_nil in Hp].
    apply main_champions_sub in Hp as (row & Hrow & <-).
    destruct (sorted_by_key_has_key _ _ _ _ _ Hmain Hrow) as [k Hk].
    unfold main_key in Hk. by destruct (mr_player row). }
  destruct (champion_ids_ok
    (if league_closed league' then net_champions (st_net st) else []))
    as [net_ids ->].
  { intros p Hp. destruct (league_closed league');
      [|by apply elem_of_nil in Hp].
    apply net_champions_sub in Hp as (row & Hrow & <-).
    destruct (sorted_by_key_has_key _ _ _ _ _ Hnets Hrow) as [k Hk].
    unfold net_key in Hk. by destruct (nr_player row). }
  destruct (champion_ids_ok
    (if league_closed league' then scratch_champions (st_scratch st) else []))
    as [scratch_ids ->].
  { intros p Hp. destruct (league_closed league');
      [|by apply elem_of_nil in Hp].
    apply scratch_champions_sub in Hp as (row & Hrow & <-).
    destruct (sorted_by_key_has_key _ _ _ _ _ Hscr Hrow) as [k Hk].
    unfold scratch_key in Hk. by destruct (sr_player row). }
  simpl. eexists. split; [reflexivity|]. by repeat split.
Qed.

(** ** The scratch table and its champions *)

Lemma key_zzs_cmp_ok : cmp_ok key_zzs_cmp.
Proof.
  unfold key_zzs_cmp. repeat apply lex_ok;
    [apply Z_compare_ok | apply Z_compare_ok | apply string_compare_ok].
Qed.

Lemma key_zzs_lt_cmp (a b : Z * Z * string) :
  key_zzs_lt a b = lt_of key_zzs_cmp a b.
Proof.
  destruct a as [[x1 z1] s1], b as [[x2 z2] s2].
  unfold key_zzs_lt, key_zzs_cmp, lt_of, lex, str_lt. simpl.
  destruct (Z.compare_spec x1 x2) as [->|H|H].
  - rewrite Z.eqb_refl. simpl.
    destruct (Z.compare_spec z1 z2) as [->|H|H].
    + by rewrite Z.eqb_refl.
    + destruct (z1 =? z2) eqn:E; [lia|]. simpl. lia.
    + destruct (z1 =? z2) eqn:E; [lia|]. simpl. lia.
  - destruct (x1 =? x2) eqn:E; [lia|]. simpl. lia.
  - destruct (x1 =? x2) eqn:E; [lia|]. simpl. lia.
Qed.

Lemma scratch_key_inv (row : ScratchRow) (k : Z * Z * string) :
  scratch_key row = Ok k ->
  exists p, sr_player row = Some p /\
            k = (- sr_total_scratch row, - sr_rounds row, p_name p).
Proof.
  unfold scratch_key. destruct (sr_player row) as [p|]; [|discriminate].
  simpl. intros [= <-]. by exists p.
Qed.

(** The scratch table is ordered by decreasing total. *)
Lemma scratch_table_sorted (db : DB) (league : League) (rounds : list Round)
    (st : Standings) :
  compute_league_standings db league rounds = Ok st ->
  StronglySorted
    (fun a b => sr_total_scratch b <= sr_total_scratch a) (st_scratch st).
Proof.
  intros H.
  apply standings_inv in H as (net_opts & _ & _ & Hscr & _).
  eapply StronglySorted_weaken;
    [|eapply (sorted_by_key_sorted scratch_key key_zzs_lt key_zzs_cmp
                (fun _ => True));
      [apply key_zzs_cmp_ok | | | exact Hscr]].
  - intros a b (ka & kb & Ha & Hb & Hlt).
    apply scratch_key_inv in Ha as (pa & _ & ->).
    apply scratch_key_inv in Hb as (pb & _ & ->).
    unfold lt_of, key_zzs_cmp, lex in Hlt. simpl in Hlt.
    destruct (Z.compare_spec (- sr_total_scratch b) (- sr_total_scratch a));
      try lia; done.
  - intros k1 k2 _ _. apply key_zzs_lt_cmp.
  - done.
Qed.

(** X20. The scratch table lists the players whose scratch points add up
    to more than 0, ordered by decreasing total, and in a closed league
    the scratch champions are exactly the players of the table whose total
    no other row exceeds. *)
Theorem scratch_champions_maximum (db : DB) (league : League)
    (rounds : list Round) (st : Standings) :
  compute_league_standings db league rounds = Ok st ->
  league_closed league = true ->
  StronglySorted
    (fun a b => sr_total_scratch b <= sr_total_scratch a) (st_scratch st) /\
  (forall pid,
     0 < sum_of stableford_scratch_total (participations db rounds pid) ->
     exists row p, row ∈ st_scratch st /\ sr_player row = Some p /\
                   p_id p = pid) /\
  (forall pid,
     pid ∈ champ_scratch_players st <->
     exists row p,
       row ∈ st_scratch st /\ sr_player row = Some p /\ p_id p = pid /\
       forall row', row' ∈ st_scratch st ->
         sr_total_scratch row' <= sr_total_scratch row).
Proof.
  intros H Hclosed.
  pose proof (scratch_table_sorted db league rounds st H) as Hsorted.
  pose proof H as Hinv.
  apply standings_inv in Hinv as (net_opts & _ & _ & Hscr & _ & Hids).
  rewrite Hclosed in Hids.
  split; [done|]. split.
  - intros pid Hpos.
    destruct (league_stats_totals db rounds pid) as (_ & _ & _ & Hsum).
    set (s := stats_get (league_stats db rounds) pid) in *.
    assert (Hs : (pid, s) ∈ league_stats db rounds).
    { apply league_stats_has_entry. intros Hnil. rewrite Hnil in Hpos.
      simpl in Hpos. lia. }
    assert (Hrow : exists row, scratch_row s = Some row)
      by (unfold scratch_row; destruct (0 <? s_scratch_sum s) eqn:E;
          [by eexists | lia]).
    destruct Hrow as [row Hrow].
    assert (Hin : row ∈ st_scratch st).
    { rewrite (sorted_by_key_perm _ _ _ _ Hscr).
      apply list_elem_of_omap. exists s. split; [|done].
      apply list_elem_of_fmap. by exists (pid, s). }
    destruct (sorted_by_key_has_key _ _ _ _ _ Hscr Hin) as [k Hk].
    apply scratch_key_inv in Hk as (p & Hp & _).
    exists row, p. split; [done|]. split; [done|].
    apply scratch_row_inv in Hrow as (_ & Hpl & _).
    destruct (league_stats_inv db rounds) as [_ Hok].
    eapply Forall_forall in Hok; [|exact Hs].
    apply Hok. simpl. congruence.
  - intros pid. rewrite (champion_ids_spec _ _ pid Hids).
    unfold scratch_champions.
    destruct (st_scratch st) as [|first rest] eqn:Heq.
    { split.
      - intros (p & Hp & _). by apply elem_of_nil in Hp.
      - intros (row & p & Hrow & _). by apply elem_of_nil in Hrow. }
    assert (Hfirst : forall row', row' ∈ first :: rest ->
              sr_total_scratch row' <= sr_total_scratch first).
    { intros row' [->|Hin]%elem_of_cons; [lia|].
      apply StronglySorted_inv in Hsorted as [_ Hall].
      by eapply Forall_forall in Hall. }
    split.
    + intros (p & Hp & Hid).
      apply list_elem_of_fmap in Hp as (row & Hpl & Hrow).
      apply list_elem_of_filter in Hrow as [Hbest Hrow].
      exists row, p. repeat split; try done.
      intros row' Hrow'. rewrite Hbest. by apply Hfirst.
    + intros (row & p & Hin & Hp & Hid & Hmax).
      exists p. split; [|done]. apply list_elem_of_fmap. exists row.
      split; [done|]. apply list_elem_of_filter. split; [|done].
      pose proof (Hfirst row Hin). pose proof (Hmax first ltac:(left)). lia.
Qed.

(** ** The players table *)

Lemma total_of_filter (P : RoundPlayer -> Prop) `{forall x, Decision (P x)}
    (rps : list RoundPlayer) :
  total_of (fun rp => if bool_decide (P rp) then 1 else 0) rps =
  len (filter P rps).
Proof.
  unfold len. induction rps as [|x l IH]; simpl; [done|].
  rewrite filter_cons, IH. case_bool_decide.
  - rewrite decide_True by done. simpl. lia.
  - rewrite decide_False by done. lia.
Qed.

Lemma total_of_ext (c c' : RoundPlayer -> Z) (rps : list RoundPlayer) :
  (forall rp, rp ∈ rps -> c rp = c' rp) -> total_of c rps = total_of c' rps.
Proof.
  induction rps as [|x l IH]; intros H; simpl; [done|].
  rewrite (H x) by left. rewrite IH; [done|]. intros y Hy. apply H. by right.
Qed.

Lemma length_filter_disjoint_le {A : Type} (P Q : A -> Prop)
    `{forall x, Decision (P x)} `{forall x, Decision (Q x)} (l : list A) :
  (forall x, P x -> Q x -> False) ->
  Z.of_nat (length (filter P l)) + Z.of_nat (length (filter Q l))
  <= Z.of_nat (length l).
Proof.
  intros Hdis. induction l as [|x l IH]; simpl; [lia|].
  rewrite !filter_cons.
  destruct (decide (P x)) as [HP|HP], (decide (Q x)) as [HQ|HQ]; simpl;
    try lia.
  destruct (Hdis x HP HQ).
Qed.

(** Every participation that counts has a gross total. *)
Lemma participation_scored (db : DB) (rounds : list Round) (pid : Z)
    (rp : RoundPlayer) :
  rp ∈ participations db rounds pid -> is_Some (gross_total rp).
Proof.
  intros H. apply participation_inv in H as (_ & r & _ & Hrp).
  apply list_elem_of_filter in Hrp. tauto.
Qed.

(** The counters of a player after the loop over the rounds. *)
Lemma league_stats_counters (db : DB) (rounds : list Round) (pid : Z) :
  let s := stats_get (league_stats db rounds) pid in
  let ps := participations db rounds pid in
  s_wins s = len (filter (fun rp => result rp = Some "win") ps) /\
  s_ties s = len (filter (fun rp => result rp = Some "tie") ps) /\
  s_gross_sum s = sum_of gross_total ps /\
  s_gross_count s = len ps /\
  s_stableford_sum s = sum_of stableford_hcp_total ps.
Proof.
  simpl. repeat split.
  - rewrite <- total_of_filter. apply league_stats_field; [|done|done].
    intros. simpl. unfold incr_if. case_bool_decide; lia.
  - rewrite <- total_of_filter. apply league_stats_field; [|done|done].
    intros. simpl. unfold incr_if. case_bool_decide; lia.
  - rewrite <- total_of_sum. by apply league_stats_field.
  - rewrite <- total_of_len.
    rewrite <- (total_of_ext
      (fun rp => if bool_decide (is_Some (gross_total rp)) then 1 else 0)).
    + apply league_stats_field; [|done|done].
      intros. simpl. unfold incr_if. case_bool_decide; lia.
    + intros rp Hrp. apply participation_scored in Hrp.
      by rewrite bool_decide_eq_true_2.
  - rewrite <- total_of_sum. by apply league_stats_field.
Qed.

(** The best gross is the least gross total seen. *)
Lemma best_gross_fold (l : list RoundPlayer) (b : option Z) :
  let step := fun (b : option Z) (rp : RoundPlayer) =>
    match gross_total rp, b with
    | Some g, None => Some g
    | Some g, Some b => if g <? b then Some g else Some b
    | None, b => b
    end in
  match fold_left step l b with
  | Some m =>
      (b = Some m \/ exists rp, rp ∈ l /\ gross_total rp = Some m) /\
      (forall b0, b = Some b0 -> m <= b0) /\
      (forall rp g, rp ∈ l -> gross_total rp = Some g -> m <= g)
  | None => b = None /\ forall rp, rp ∈ l -> gross_total rp = None
  end.
Proof.
  cbv zeta. revert b. induction l as [|x l IH]; intros b.
  - simpl. destruct b as [m|].
    + split; [by left|]. split; [intros b0 [= <-]; lia|].
      intros rp g Hrp. by apply elem_of_nil in Hrp.
    + split; [done|]. intros rp Hrp. by apply elem_of_nil in Hrp.
  - cbn [fold_left].
    set (b1 := match gross_total x, b with
               | Some g, None => Some g
               | Some g, Some b => if g <? b then Some g else Some b
               | None, b => b
               end).
    specialize (IH b1). destruct (fold_left _ l b1) as [m|].
    + destruct IH as (Hin & Hb & Hall).
      assert (Hb1 : forall g, gross_total x = Some g -> exists b', b1 = Some b' /\ b' <= g).
      { intros g Hg. unfold b1. rewrite Hg. destruct b as [b0|].
        - destruct (Z.ltb_spec g b0); eexists; split; try done; lia.
        - eexists. split; [done|lia]. }
      assert (Hb0 : forall b0, b = Some b0 -> exists b', b1 = Some b' /\ b' <= b0).
      { intros b0 ->. unfold b1. destruct (gross_total x) as [g|].
        - destruct (Z.ltb_spec g b0); eexists; split; try done; lia.
        - eexists. split; [done|lia]. }
      split; [|split].
      * destruct Hin as [Hin|(rp & Hrp & Hg)].
        -- unfold b1 in Hin. destruct (gross_total x) as [g|] eqn:Hg.
           ++ destruct b as [b0|].
              ** destruct (g <? b0); injection Hin as <-.
                 --- right. exists x. split; [left|done].
                 --- by left.
              ** injection Hin as <-. right. exists x. split; [left|done].
           ++ by left.
        -- right. exists rp. split; [by right|done].
      * intros b0 Hb0'. destruct (Hb0 b0 Hb0') as (b' & Hb' & Hle).
        specialize (Hb b' Hb'). lia.
      * intros rp g [->|Hrp]%elem_of_cons Hg; [|by eapply Hall].
        destruct (Hb1 g Hg) as (b' & Hb' & Hle). specialize (Hb b' Hb'). lia.
    + destruct IH as [Hb1 Hall]. unfold b1 in Hb1.
      destruct (gross_total x) as [g|] eqn:Hg.
      * destruct b as [b0|]; [destruct (g <? b0)|]; discriminate.
      * split; [done|]. intros rp [->|Hrp]%elem_of_cons; [done|by apply Hall].
Qed.

Lemma league_stats_best_gross (db : DB) (rounds : list Round) (pid : Z) :
  participations db rounds pid <> [] ->
  exists m,
    s_best_gross (stats_get (league_stats db rounds) pid) = Some m /\
    (exists rp, rp ∈ participations db rounds pid /\ gross_total rp = Some m) /\
    forall rp g, rp ∈ participations db rounds pid ->
      gross_total rp = Some g -> m <= g.
Proof.
  intros Hne.
  rewrite (league_stats_fold db s_best_gross
    (fun b rp => match gross_total rp, b with
                 | Some g, None => Some g
                 | Some g, Some b => if g <? b then Some g else Some b
                 | None, b => b
                 end)); [|done|done].
  pose proof (best_gross_fold (participations db rounds pid) None) as H.
  cbv zeta in H. simpl s_best_gross.
  destruct (fold_left _ _ None) as [m|].
  - destruct H as ([Hb|Hin] & _ & Hall); [discriminate|]. by exists m.
  - destruct H as [_ Hnone]. exfalso.
    destruct (participations db rounds pid) as [|rp l] eqn:Hps; [done|].
    assert (Hrp : rp ∈ participations db rounds pid) by (rewrite Hps; left).
    apply participation_scored in Hrp as [g Hg].
    rewrite (Hnone rp) in Hg by left. discriminate.
Qed.

Lemma player_row_inv (s : Stats) (row : PlayerRow) :
  player_row s = Ok row ->
  pr_player row = s_player s /\ pr_rounds row = s_rounds s /\
  pr_wins row = s_wins s /\ pr_ties row = s_ties s /\
  pr_gross_total row = s_gross_sum s /\ pr_net_total row = s_net_sum s /\
  pr_stableford_total row = s_stableford_sum s /\
  pr_scratch_total row = s_scratch_sum s /\
  pr_best_gross row = s_best_gross s /\
  (0 < s_gross_count s ->
   exists avg, int_truediv (s_gross_sum s) (s_gross_count s) = Ok avg /\
               pr_avg_gross row = Some avg).
Proof.
  unfold player_row. intros H.
  apply bind_Ok in H as (avg & Havg & H).
  apply bind_Ok in H as (lvl & Hlvl & H). injection H as <-. simpl.
  repeat split; try done.
  intros Hpos. destruct (0 <? s_gross_count s) eqn:E; [|lia].
  apply bind_Ok in Havg as (v & Hv & Havg). injection Havg as <-. eauto.
Qed.

Lemma player_key_inv (row : PlayerRow) (k : float * string) :
  player_key row = Ok k -> exists p, pr_player row = Some p.
Proof.
  unfold player_key. destruct (pr_player row) as [p|]; [|discriminate].
  by exists p.
Qed.

(** X21. The rows of the players table. Every row belongs to a player
    with at least one participation that counts, and carries, over these
    participations: their number as rounds played, the numbers of "win"
    and "tie" results (together at most the rounds played), the sums of
    the gross, net, handicap-Stableford and scratch-Stableford totals, the
    average gross as the gross sum over the rounds played (never null),
    and as best gross the least gross total. *)
Theorem players_table_rows (db : DB) (league : League) (rounds : list Round)
    (st : Standings) (row : PlayerRow) :
  compute_league_standings db league rounds = Ok st ->
  row ∈ st_players_table st ->
  exists p avg best,
    pr_player row = Some p /\
    let ps := participations db rounds (p_id p) in
    1 <= pr_rounds row /\
    pr_rounds row = len ps /\
    pr_wins row = len (filter (fun rp => result rp = Some "win") ps) /\
    pr_ties row = len (filter (fun rp => result rp = Some "tie") ps) /\
    pr_wins row + pr_ties row <= pr_rounds row /\
    pr_gross_total row = sum_of gross_total ps /\
    pr_net_total row = sum_of net_total ps /\
    pr_stableford_total row = sum_of stableford_hcp_total ps /\
    pr_scratch_total row = sum_of stableford_scratch_total ps /\
    pr_avg_gross row = Some avg /\
    int_truediv (sum_of gross_total ps) (len ps) = Ok avg /\
    pr_best_gross row = Some best /\
    (exists rp, rp ∈ ps /\ gross_total rp = Some best) /\
    (forall rp g, rp ∈ ps -> gross_total rp = Some g -> best <= g).
Proof.
  intros H Hrow.
  apply standings_steps in H
    as (net_opts & ptable & _ & Hpt & _ & _ & _ & Hpt' & _).
  destruct (sorted_by_key_has_key _ _ _ _ _ Hpt' Hrow) as [k Hk].
  apply player_key_inv in Hk as [p Hp].
  rewrite (sorted_by_key_perm _ _ _ _ Hpt') in Hrow.
  apply map_py_Forall2 in Hpt.
  apply list_elem_of_lookup in Hrow as [i Hi].
  destruct (Forall2_lookup_r _ _ _ _ _ Hpt Hi) as (s & Hs & Hprow).
  apply list_elem_of_lookup_2 in Hs.
  apply player_row_inv in Hprow
    as (Hpl & Hr & Hw & Ht & Hg & Hn & Hsf & Hsc & Hbest & Havg).
  pose proof Hs as Hentry.
  apply league_stats_entry in Hentry as (pid & Hget & Hpid).
  assert (pid = p_id p) as -> by (symmetry; apply Hpid; congruence).
  destruct (league_stats_totals db rounds (p_id p))
    as (Hrounds & Hnet & _ & Hscr).
  destruct (league_stats_counters db rounds (p_id p))
    as (Hwins & Hties & Hgross & Hgc & Hstb).
  rewrite Hget in *.
  assert (Hpos : 1 <= s_rounds s).
  { pose proof (league_stats_rounds_pos db rounds) as Hall.
    apply list_elem_of_fmap in Hs as (e & -> & He).
    rewrite Forall_forall in Hall. exact (Hall _ He). }
  assert (Hne : participations db rounds (p_id p) <> []).
  { intros Hnil. rewrite Hnil in Hrounds. simpl in Hrounds.
    unfold len in Hrounds. simpl in Hrounds. lia. }
  destruct Havg as (avg & Havg & Hrowavg); [lia|].
  destruct (league_stats_best_gross db rounds (p_id p) Hne)
    as (best & Hb & Hbin & Hball).
  rewrite Hget in Hb.
  exists p, avg, best. cbv zeta.
  split; [done|]. split; [lia|]. split; [lia|].
  split; [lia|]. split; [lia|]. split.
  { rewrite Hw, Ht, Hr, Hwins, Hties, Hrounds. unfold len.
    pose proof (length_filter_disjoint_le
      (fun rp => result rp = Some "win") (fun rp => result rp = Some "tie")
      (participations db rounds (p_id p))) as Hle.
    apply Hle. intros rp Hw' Ht'. congruence. }
  split; [lia|]. split; [lia|]. split; [lia|]. split; [lia|].
  split; [done|]. split; [by rewrite <- Hgross, <- Hgc|].
  split; [congruence|]. by split.
Qed.

(** ** The course handicap: plus handicaps and the neutral slope *)

Lemma digits2_pos_lower (p : positive) :
  2 ^ (Zpos (digits2_pos p) - 1) <= Zpos p.
Proof.
  induction p as [p IH|p IH|]; simpl digits2_pos; [| |simpl; lia].
  - rewrite Pos2Z.inj_succ.
    replace (Z.succ (Zpos (digits2_pos p)) - 1)
      with (Z.succ (Zpos (digits2_pos p) - 1)) by lia.
    rewrite Z.pow_succ_r by lia. lia.
  - rewrite Pos2Z.inj_succ.
    replace (Z.succ (Zpos (digits2_pos p)) - 1)
      with (Z.succ (Zpos (digits2_pos p) - 1)) by lia.
    rewrite Z.pow_succ_r by lia. lia.
Qed.

Lemma digits2_pos_small (p : positive) (k : Z) :
  0 <= k -> Zpos p < 2 ^ k -> Zpos (digits2_pos p) <= k.
Proof.
  intros Hk Hp. pose proof (digits2_pos_lower p) as Hlow.
  destruct (decide (Zpos (digits2_pos p) <= k)) as [|Hgt]; [done|].
  assert (2 ^ k <= 2 ^ (Zpos (digits2_pos p) - 1))
    by (apply Z.pow_le_mono_r; lia).
  lia.
Qed.

Lemma digits2_pos_iter_xO (p k : positive) :
  digits2_pos (Pos.iter xO p k) = (digits2_pos p + k)%positive.
Proof.
  induction k as [|k IH] using Pos.peano_ind.
  - simpl. lia.
  - rewrite Pos.iter_succ. simpl digits2_pos. rewrite IH. lia.
Qed.


Lemma binary_round_aux_opp (s : bool) (m e : Z) (l : location) :
  binary_round_aux prec emax (negb s) m e l =
  fneg (binary_round_aux prec emax s m e l).
Proof.
  unfold binary_round_aux.
  destruct (shr_fexp prec emax m e l) as [mrs' e'].
  destruct (shr_fexp prec emax _ e' loc_Exact) as [mrs'' e''].
  destruct (shr_m mrs''); try done.
  by destruct (e'' <=? emax - prec).
Qed.

Lemma fmul_fneg_l (x y : float) : fmul (fneg x) y = fneg (fmul x y).
Proof.
  destruct x as [sx|sx| |sx mx ex], y as [sy|sy| |sy my ey]; simpl;
    try done; try (by destruct sx, sy).
  unfold fmul, SFmul.
  replace (xorb (negb sx) sy) with (negb (xorb sx sy)) by (by destruct sx, sy).
  apply binary_round_aux_opp.
Qed.

(** Rounding to the nearest int, ties to even, is symmetric. *)
Lemma round_half_even_opp (n d : Z) :
  0 < d -> round_half_even (- n) d = - round_half_even n d.
Proof.
  intros Hd. unfold round_half_even.
  pose proof (Z.div_mod n d) as Hdm.
  pose proof (Z.mod_pos_bound n d Hd) as Hr.
  set (q := n / d) in *. set (r := n mod d) in *.
  assert (Hn : n = d * q + r) by lia. clearbody q r. subst n.
  destruct (decide (r = 0)) as [->|Hr0].
  - assert (Hq : - (d * q + 0) / d = - q)
      by (symmetry; apply Z.div_unique with (r := 0); lia).
    assert (Hm : - (d * q + 0) mod d = 0)
      by (symmetry; apply Z.mod_unique with (q := - q); lia).
    rewrite Hq, Hm.
    destruct (Z.compare_spec (2 * 0) d); lia.
  - assert (Hq : - (d * q + r) / d = - q - 1)
      by (symmetry; apply Z.div_unique with (r := d - r); lia).
    assert (Hm : - (d * q + r) mod d = d - r)
      by (symmetry; apply Z.mod_unique with (q := - q - 1); lia).
    rewrite Hq, Hm.
    destruct (Z.compare_spec (2 * r) d), (Z.compare_spec (2 * (d - r)) d);
      try lia.
    replace (- q - 1) with (- (q + 1)) by lia.
    rewrite Z.even_opp, Z.add_1_r, Z.even_succ, <- Z.negb_even.
    destruct (Z.even q); simpl; lia.
Qed.

Lemma py_round_fneg (x : float) :
  py_round (fneg x) = z ← py_round x; Ok (- z).
Proof.
  destruct x as [s|s| |s m e]; try done. simpl.
  destruct (0 <=? e) eqn:He; simpl.
  - f_equal. destruct s; simpl; lia.
  - f_equal.
    assert (Hd : 0 < 2 ^ (- e)) by (apply Z.pow_pos_nonneg; lia).
    rewrite <- (round_half_even_opp _ _ Hd). by destruct s.
Qed.

(** X22. The course handicap of a negated handicap index is the negated
    course handicap: the float product only changes sign and Python's
    [round] is symmetric around zero, so a plus handicap gets exactly the
    opposite of the course handicap of the same index above zero, and the
    same exception when there is one. *)
Theorem course_handicap_odd (hcp : float) (slope : Z) :
  course_handicap (fneg hcp) slope =
  z ← course_handicap hcp slope; Ok (- z).
Proof.
  unfold course_handicap. by rewrite fmul_fneg_l, py_round_fneg.
Qed.

(** The indexes 14.3 and -14.3 on a course of slope 120. *)
Example course_handicap_odd_example :
  course_handicap lit_14_3 120 = Ok 15 /\
  course_handicap (fneg lit_14_3) 120 = Ok (-15) /\
  course_handicap (fneg lit_0_5) 113 = Ok 0.
Proof. by vm_compute. Qed.

(** Multiplying a binary64 float by 1.0 gives the float back. *)
Lemma fmul_one (x : float) :
  valid_binary prec emax x = true ->
  fmul x (S754_finite false 4503599627370496 (-52)) = x.
Proof.
  destruct x as [s|s| |s m e]; try done; [by destruct s|by destruct s|].
  intros Hv. apply andb_prop in Hv as [Hcan Hle].
  unfold canonical_mantissa in Hcan.
  apply Z.eqb_eq in Hcan. apply Z.leb_le in Hle.
  unfold fmul, SFmul.
  replace (xorb s false) with s by (by destruct s).
  rewrite Pos.mul_comm.
  unfold binary_round_aux.
  assert (Hshr1 : shr_fexp prec emax
            (Zpos (Pos.iter xO m 52)) (e + -52) loc_Exact =
            ({| shr_m := Zpos m; shr_r := false; shr_s := false |}, e)).
  { unfold shr_fexp. cbn [Zdigits2].
    rewrite digits2_pos_iter_xO.
    replace (fexp prec emax (Zpos (digits2_pos m + 52) + (e + -52)))
      with e by (rewrite <- Hcan at 1; f_equal; lia).
    replace (e - (e + -52)) with 52 by lia.
    unfold shr. cbn. f_equal. lia. }
  change (4503599627370496 * m)%positive with (Pos.iter xO m 52).
  rewrite Hshr1. cbn [shr_m loc_of_shr_record round_nearest_even].
  assert (Hshr2 : shr_fexp prec emax (Zpos m) e loc_Exact =
            ({| shr_m := Zpos m; shr_r := false; shr_s := false |}, e)).
  { unfold shr_fexp. cbn [Zdigits2]. rewrite Hcan.
    replace (e - e) with 0 by lia. done. }
  rewrite Hshr2. cbn [shr_m].
  destruct (e <=? emax - prec) eqn:E; [done|lia].
Qed.

(** X23. On a course of slope 113 the course handicap is the handicap
    index itself, rounded: [113 / 113.0] is exactly 1.0 and the product of
    a binary64 float with 1.0 is the float. *)
Theorem course_handicap_neutral_slope (hcp : float) :
  valid_binary prec emax hcp = true ->
  course_handicap hcp 113 = py_round hcp.
Proof.
  intros Hv. unfold course_handicap.
  change (fdiv (float_of_int 113) lit_113)
    with (S754_finite false 4503599627370496 (-52)).
  by rewrite fmul_one.
Qed.

Lemma course_handicap_neutral_slope_witness :
  course_handicap lit_14_3 113 = py_round lit_14_3.
Proof.
  apply (course_handicap_neutral_slope lit_14_3). vm_compute. reflexivity.
Defined.

(** ** League points are never NaN *)

(** A mantissa of 53 bits with an exponent in range is kept as it is. *)
Lemma binary_round_aux_canonical (s : bool) (m : positive) (e : Z) :
  Zpos (digits2_pos m) = 53 -> -1074 <= e <= 971 ->
  binary_round_aux prec emax s (Zpos m) e loc_Exact = S754_finite s m e.
Proof.
  intros Hd He. unfold binary_round_aux.
  assert (Hshr : shr_fexp prec emax (Zpos m) e loc_Exact =
                 ({| shr_m := Zpos m; shr_r := false; shr_s := false |}, e)).
  { unfold shr_fexp, shr, fexp, SpecFloat.emin, prec, emax. simpl Zdigits2.
    rewrite Hd.
    replace (Z.max (53 + e - 53) (3 - 1024 - 53) - e) with 0 by lia. done. }
  rewrite Hshr. simpl. rewrite Hshr. simpl.
  unfold emax, prec. destruct (e <=? 1024 - 53) eqn:E; [done|lia].
Qed.

(** An int between 1 and [2^53] converts to a finite positive float. *)
Lemma float_of_int_small (z : Z) :
  0 < z < 2 ^ 53 -> exists m e, float_of_int z = S754_finite false m e.
Proof.
  intros Hz. destruct z as [|p|p]; try lia.
  unfold float_of_int, binary_normalize, binary_round.
  pose proof (digits2_pos_small p 53 ltac:(lia) ltac:(lia)) as Hd.
  assert (Hd1 : 1 <= Zpos (digits2_pos p)) by lia.
  unfold fexp, SpecFloat.emin, prec, emax.
  replace (Z.max (Zpos (digits2_pos p) + 0 - 53) (3 - 1024 - 53))
    with (Zpos (digits2_pos p) - 53) by lia.
  unfold shl_align.
  destruct (Zpos (digits2_pos p) - 53 - 0) as [|k|k] eqn:Hk; try lia.
  - pose proof (binary_round_aux_canonical false p 0 ltac:(lia) ltac:(lia))
      as E.
    unfold prec, emax in E. rewrite E. by eexists _, _.
  - assert (Hdk : Zpos (digits2_pos (Pos.iter xO p k)) = 53)
      by (rewrite digits2_pos_iter_xO; lia).
    pose proof (binary_round_aux_canonical false (Pos.iter xO p k)
                  (Zpos (digits2_pos p) - 53) Hdk ltac:(lia)) as E.
    unfold prec, emax in E. rewrite E. by eexists _, _.
Qed.

Lemma float_of_int_not_nan (z : Z) : is_nan (float_of_int z) = false.
Proof.
  unfold float_of_int, binary_normalize.
  destruct z as [|p|p]; [done| |]; unfold binary_round;
    destruct (shl_align _ _ _) as [mz ez];
    by apply binary_round_aux_not_nan.
Qed.

Lemma float_of_int_nonneg (z : Z) : 0 <= z -> fnonneg (float_of_int z).
Proof.
  intros Hz. split; [apply float_of_int_not_nan|].
  by apply float_of_int_not_negative.
Qed.

Lemma binary_round_aux_nonneg (mx ex : Z) (lx : location) :
  0 <= mx -> fnonneg (binary_round_aux prec emax false mx ex lx).
Proof.
  intros Hm. split; [by apply binary_round_aux_not_nan|].
  apply binary_round_aux_not_negative.
Qed.

Lemma fnonneg_inv (x : float) :
  fnonneg x ->
  (exists s, x = S754_zero s) \/ (exists m e, x = S754_finite false m e) \/
  x = S754_infinity false.
Proof.
  intros [Hnan Hlt]. destruct x as [s|[]| |[] m e]; try done; eauto.
Qed.

(** Sums of such floats are such floats. *)
Lemma fadd_nonneg (x y : float) : fnonneg x -> fnonneg y -> fnonneg (fadd x y).
Proof.
  intros Hx Hy.
  destruct (fnonneg_inv x Hx) as [[sx ->]|[(mx & ex & ->)| ->]];
    destruct (fnonneg_inv y Hy) as [[sy ->]|[(my & ey & ->)| ->]];
    try done.
  - by destruct sx, sy.
  - unfold fadd, SFadd. cbn [cond_Zopp].
    destruct (shl_align mx ex _) as [mx' ex'],
             (shl_align my ey _) as [my' ey']. cbn [fst].
    change (Zpos mx' + Zpos my') with (Zpos (mx' + my')).
    unfold binary_normalize, binary_round.
    destruct (shl_align (mx' + my') _ _) as [mz ez].
    by apply binary_round_aux_nonneg.
Qed.

(** A quotient of such a float by a finite positive float is such a
    float. *)
Lemma fdiv_nonneg (x : float) (m : positive) (e : Z) :
  fnonneg x -> fnonneg (fdiv x (S754_finite false m e)).
Proof.
  intros Hx.
  destruct (fnonneg_inv x Hx) as [[sx ->]|[(mx & ex & ->)| ->]]; try done.
  unfold fdiv, SFdiv.
  pose proof (SFdiv_core_nonneg mx m ex e) as Hq.
  destruct (SFdiv_core_binary prec emax (Zpos mx) ex (Zpos m) e)
    as [[mz ez] lz]. simpl in Hq.
  by apply binary_round_aux_nonneg.
Qed.

Lemma valid_players_len (db : DB) (r : Round) :
  len (valid_players db r) <= len (round_players_of db r).
Proof.
  unfold len, valid_players, scored_players.
  pose proof (length_filter (fun rp => is_Some (stableford_hcp_total rp))
    (sorted (fun a b => f1_key_lt (f1_key a) (f1_key b))
       (filter (fun rp => is_Some (gross_total rp)) (round_players_of db r)))).
  rewrite sorted_perm in H at 2.
  pose proof (length_filter (fun rp => is_Some (gross_total rp))
    (round_players_of db r)).
  lia.
Qed.

(** The points that a round gives to each winner. *)
Lemma round_f1_points_nonneg (db : DB) (r : Round)
    (winners : list RoundPlayer) (points : float) :
  len (round_players_of db r) < 2 ^ 53 ->
  round_f1 db r = Some (winners, points) -> fnonneg points.
Proof.
  intros Hsize. pose proof (valid_players_len db r) as Hvl.
  unfold round_f1.
  destruct (valid_players db r) as [|first rest] eqn:Hv; [discriminate|].
  set (ws := filter _ (first :: rest)).
  intros [= <- <-].
  assert (Hn : 0 <= len (first :: rest) - 1) by (unfold len; simpl; lia).
  rewrite float_of_int_not_negative by done.
  destruct ws as [|w ws'] eqn:Hws; [done|].
  assert (Hlen : 0 < len (w :: ws') < 2 ^ 53).
  { rewrite <- Hws. unfold ws, len.
    pose proof (length_filter
      (fun rp => stableford_hcp_total rp = stableford_hcp_total first)
      (first :: rest)) as Hle.
    assert (0 < length ws)%nat by (rewrite Hws; simpl; lia).
    unfold ws in *. unfold len in Hvl, Hsize. lia. }
  destruct (float_of_int_small _ Hlen) as (m & e & ->).
  apply fdiv_nonneg. by apply float_of_int_nonneg.
Qed.

(** The league points of every entry of [stats]. *)
Lemma league_stats_points_nonneg (db : DB) (rounds : list Round) :
  (forall r, r ∈ rounds -> len (round_players_of db r) < 2 ^ 53) ->
  Forall (fun e => fnonneg (s_f1_points (snd e))) (league_stats db rounds).
Proof.
  intros Hsize.
  apply (league_stats_Forall db
           (fun r => len (round_players_of db r) < 2 ^ 53)
           (fun s => fnonneg (s_f1_points s))); [| | |done].
  - intros r rp _. done.
  - intros r s rp _ Hs. done.
  - intros r winners points s HR Hf Hs. simpl.
    apply fadd_nonneg; [done|]. by eapply round_f1_points_nonneg.
Qed.

(** ** The main table and its champions *)

Lemma main_key_inv (row : MainRow) (k : float * Z * string) :
  main_key row = Ok k ->
  exists p, mr_player row = Some p /\
            k = (fneg (mr_points row), - mr_rounds row, p_name p).
Proof.
  unfold main_key. destruct (mr_player row) as [p|]; [|discriminate].
  simpl. intros [= <-]. by exists p.
Qed.

Lemma is_nan_fneg (x : float) : is_nan (fneg x) = is_nan x.
Proof. by destruct x. Qed.

Lemma float_cmp_fneg (x y : float) :
  is_nan x = false -> is_nan y = false ->
  float_cmp (fneg x) (fneg y) = float_cmp y x.
Proof.
  unfold float_cmp, lex.
  destruct x as [[]|[]| |[] m1 e1], y as [[]|[]| |[] m2 e2];
    try discriminate; intros _ _; try reflexivity; simpl.
  - rewrite Z.compare_opp. destruct (e1 ?= e2); try done.
    apply Pos.compare_antisym.
  - rewrite Z.compare_opp. destruct (e2 ?= e1); try done.
    symmetry. apply Pos.compare_antisym.
Qed.

(** The rows of the main table: one per entry of [stats]. *)
Lemma main_table_rows (db : DB) (league : League) (rounds : list Round)
    (st : Standings) (row : MainRow) :
  compute_league_standings db league rounds = Ok st ->
  row ∈ st_main st ->
  exists pid s p,
    (pid, s) ∈ league_stats db rounds /\ row = main_row s /\
    s_player s = Some p /\ p_id p = pid.
Proof.
  intros H Hrow.
  apply standings_steps in H as (net_opts & ptable & _ & _ & Hmain & _).
  destruct (sorted_by_key_has_key _ _ _ _ _ Hmain Hrow) as [k Hk].
  apply main_key_inv in Hk as (p & Hp & _).
  rewrite (sorted_by_key_perm _ _ _ _ Hmain) in Hrow.
  apply list_elem_of_fmap in Hrow as (s & -> & Hs).
  apply list_elem_of_fmap in Hs as ([pid s'] & -> & He).
  exists pid, s', p. repeat split; try done.
  destruct (league_stats_inv db rounds) as [_ Hok].
  eapply Forall_forall in Hok; [|exact He]. by apply Hok.
Qed.

(** X24. The main table has exactly one row per player with at least one
    participation that counts: every row belongs to a loaded player and
    carries the number of these participations as rounds played, no player
    has two rows, and every player with such a participation has a row. *)
Theorem main_table_players (db : DB) (league : League) (rounds : list Round)
    (st : Standings) :
  compute_league_standings db league rounds = Ok st ->
  (forall row, row ∈ st_main st ->
     exists p, mr_player row = Some p /\
       mr_rounds row = len (participations db rounds (p_id p)) /\
       1 <= mr_rounds row) /\
  NoDup ((fun row => p_id <$> mr_player row) <$> st_main st) /\
  (forall pid, participations db rounds pid <> [] ->
     exists row p, row ∈ st_main st /\ mr_player row = Some p /\ p_id p = pid).
Proof.
  intros H.
  pose proof (fun row => main_table_rows db league rounds st row H) as Hrows.
  apply standings_steps in H as (net_opts & ptable & _ & _ & Hmain & _).
  pose proof (sorted_by_key_perm _ _ _ _ Hmain) as Hperm.
  destruct (league_stats_inv db rounds) as [Hnd Hok].
  split; [|split].
  - intros row Hrow.
    destruct (Hrows row Hrow) as (pid & s & p & Hs & -> & Hp & Hid).
    exists p. split; [done|]. simpl.
    destruct (league_stats_totals db rounds pid) as (Hr & _).
    unfold stats_get in Hr. rewrite (stats_elem_lookup _ pid s Hnd Hs) in Hr.
    simpl in Hr. subst pid. split; [done|].
    pose proof (league_stats_rounds_pos db rounds) as Hall.
    rewrite Forall_forall in Hall. exact (Hall _ Hs).
  - rewrite Hperm, <- !list_fmap_compose.
    assert (Heq : (fun row => p_id <$> mr_player row) ∘ main_row ∘ snd <$>
                    league_stats db rounds =
                  Some <$> (fst <$> league_stats db rounds)).
    { rewrite <- list_fmap_compose. apply list_fmap_ext.
      intros i [pid s] Hi. simpl. apply list_elem_of_lookup_2 in Hi.
      assert (Hrow : main_row s ∈ st_main st).
      { rewrite Hperm. apply list_elem_of_fmap_2, list_elem_of_fmap.
        by exists (pid, s). }
      destruct (sorted_by_key_has_key _ _ _ _ _ Hmain Hrow) as [k Hk].
      apply main_key_inv in Hk as (p & Hp & _). simpl in Hp. rewrite Hp.
      simpl. f_equal. eapply Forall_forall in Hok; [|exact Hi].
      by apply Hok. }
    rewrite Heq. apply (NoDup_fmap_2 Some). exact Hnd.
  - intros pid Hne.
    pose proof (league_stats_has_entry db rounds pid Hne) as Hs.
    set (s := stats_get (league_stats db rounds) pid) in *.
    assert (Hrow : main_row s ∈ st_main st).
    { rewrite Hperm. apply list_elem_of_fmap_2, list_elem_of_fmap.
      by exists (pid, s). }
    destruct (sorted_by_key_has_key _ _ _ _ _ Hmain Hrow) as [k Hk].
    apply main_key_inv in Hk as (p & Hp & _).
    exists (main_row s), p. split; [done|]. split; [done|].
    eapply Forall_forall in Hok; [|exact Hs]. by apply Hok.
Qed.

(** The league points in the main table are never NaN nor negative. *)
Lemma main_table_points (db : DB) (league : League) (rounds : list Round)
    (st : Standings) (row : MainRow) :
  (forall r, r ∈ rounds -> len (round_players_of db r) < 2 ^ 53) ->
  compute_league_standings db league rounds = Ok st ->
  row ∈ st_main st -> fnonneg (mr_points row).
Proof.
  intros Hsize H Hrow.
  destruct (main_table_rows db league rounds st row H Hrow)
    as (pid & s & p & Hs & -> & _).
  pose proof (league_stats_points_nonneg db rounds Hsize) as Hall.
  rewrite Forall_forall in Hall. exact (Hall _ Hs).
Qed.

(** The main table is ordered by decreasing league points. *)
Lemma main_table_sorted (db : DB) (league : League) (rounds : list Round)
    (st : Standings) :
  (forall r, r ∈ rounds -> len (round_players_of db r) < 2 ^ 53) ->
  compute_league_standings db league rounds = Ok st ->
  StronglySorted
    (fun a b => lt_of float_cmp (mr_points a) (mr_points b) = false)
    (st_main st).
Proof.
  intros Hsize H.
  pose proof (fun row Hrow =>
    proj1 (main_table_points db league rounds st row Hsize H Hrow)) as Hnan.
  apply standings_steps in H as (net_opts & ptable & _ & _ & Hmain & _).
  pose proof (sorted_by_key_perm _ _ _ _ Hmain) as Hperm.
  assert (Hs : StronglySorted
    (fun a b => exists ka kb,
       main_key a = Ok ka /\ main_key b = Ok kb /\
       lt_of key_fzs_cmp kb ka = false) (st_main st)).
  { eapply (sorted_by_key_sorted main_key key_fzs_lt key_fzs_cmp
              (fun k => is_nan (fst (fst k)) = false));
      [apply key_fzs_cmp_ok | | | exact Hmain].
    - intros k1 k2. apply key_fzs_lt_cmp.
    - intros row k Hrow Hk. apply main_key_inv in Hk as (p & _ & ->). simpl.
      rewrite is_nan_fneg. apply Hnan. by rewrite Hperm. }
  assert (Hall : Forall (fun row => is_nan (mr_points row) = false) (st_main st))
    by (apply Forall_forall; intros row Hrow; by apply Hnan).
  clear Hnan Hperm Hmain.
  induction Hs as [|a l Hl IH Ha]; [constructor|].
  apply Forall_cons in Hall as [Hna Hall].
  constructor; [by apply IH|].
  apply Forall_forall. intros b Hb.
  rewrite Forall_forall in Ha. destruct (Ha b Hb) as (ka & kb & Hka & Hkb & Hlt).
  rewrite Forall_forall in Hall. specialize (Hall b Hb).
  apply main_key_inv in Hka as (pa & _ & ->).
  apply main_key_inv in Hkb as (pb & _ & ->).
  unfold lt_of, key_fzs_cmp, lex in *. simpl in Hlt.
  rewrite float_cmp_fneg in Hlt by done.
  by destruct (float_cmp (mr_points a) (mr_points b)).
Qed.

(** X25. The league points of the main table and its champions. When no
    round has [2^53] round players or more, the points of every row are a
    float that is neither NaN nor negative, the main table is ordered by
    decreasing points, and in a closed league the main champions are
    exactly the players of the table whose points no other row exceeds. *)
Theorem main_champions_maximum (db : DB) (league : League)
    (rounds : list Round) (st : Standings) :
  (forall r, r ∈ rounds -> len (round_players_of db r) < 2 ^ 53) ->
  compute_league_standings db league rounds = Ok st ->
  league_closed league = true ->
  (forall row, row ∈ st_main st ->
     is_nan (mr_points row) = false /\ fltb (mr_points row) lit_0 = false) /\
  StronglySorted (fun a b => fltb (mr_points a) (mr_points b) = false)
    (st_main st) /\
  (forall pid,
     pid ∈ champ_main_players st <->
     exists row p,
       row ∈ st_main st /\ mr_player row = Some p /\ p_id p = pid /\
       forall row', row' ∈ st_main st ->
         fltb (mr_points row) (mr_points row') = false).
Proof.
  intros Hsize H Hclosed.
  pose proof (fun row Hrow =>
    main_table_points db league rounds st row Hsize H Hrow) as Hpts.
  assert (Hnan : forall row, row ∈ st_main st -> is_nan (mr_points row) = false)
    by (intros row Hrow; by apply Hpts).
  pose proof (main_table_sorted db league rounds st Hsize H) as Hsorted.
  apply standings_steps in H
    as (net_opts & ptable & _ & _ & _ & _ & _ & _ & Hids & _).
  rewrite Hclosed in Hids.
  split; [exact Hpts|]. split.
  { assert (Hall : Forall (fun row => is_nan (mr_points row) = false)
                     (st_main st))
      by (by apply Forall_forall).
    clear Hids Hpts Hnan.
    induction Hsorted as [|a l Hl IH Ha]; [constructor|].
    apply Forall_cons in Hall as [Hna Hall].
    constructor; [by apply IH|].
    apply Forall_forall. intros b Hb. rewrite Forall_forall in Ha, Hall.
    rewrite fltb_float_cmp; [by apply Ha | done | by apply Hall]. }
  intros pid. rewrite (champion_ids_spec _ _ pid Hids).
  unfold main_champions.
  destruct (st_main st) as [|first rest] eqn:Heq.
  { split.
    - intros (p & Hp & _). by apply elem_of_nil in Hp.
    - intros (row & p & Hrow & _). by apply elem_of_nil in Hrow. }
  assert (Hfirst : forall row', row' ∈ first :: rest ->
            lt_of float_cmp (mr_points first) (mr_points row') = false).
  { intros row' [->|Hin]%elem_of_cons.
    - unfold lt_of. by rewrite float_cmp_refl.
    - apply StronglySorted_inv in Hsorted as [_ Hall].
      by eapply Forall_forall in Hall. }
  assert (Hf1 : first ∈ first :: rest) by left.
  assert (Hchar : forall row, row ∈ first :: rest ->
    feqb (mr_points row) (mr_points first) = true <->
    forall row', row' ∈ first :: rest ->
      fltb (mr_points row) (mr_points row') = false).
  { intros row Hrow.
    assert (Hn : is_nan (mr_points row) = false) by (by apply Hnan).
    assert (Hnf : is_nan (mr_points first) = false) by (by apply Hnan).
    rewrite feqb_float_cmp by done. split.
    - intros He row' Hrow'.
      assert (Hn' : is_nan (mr_points row') = false) by (by apply Hnan).
      rewrite fltb_float_cmp by done.
      destruct (float_cmp (mr_points row) (mr_points first)) eqn:E; try done.
      pose proof (Hfirst row' Hrow') as Hlt. unfold lt_of in *.
      by rewrite (cmp_eq_l float_cmp float_cmp_ok _ _ (mr_points row') E).
    - intros Hmax. specialize (Hmax first Hf1).
      rewrite fltb_float_cmp in Hmax by done.
      pose proof (Hfirst row Hrow) as Hlt. unfold lt_of in *.
      rewrite (cmp_antisym float_cmp float_cmp_ok (mr_points row)) in Hlt.
      by destruct (float_cmp (mr_points row) (mr_points first)). }
  split.
  - intros (p & Hp & Hid).
    apply list_elem_of_fmap in Hp as (row & Hpl & Hrow).
    apply list_elem_of_filter in Hrow as [Heqb Hrow].
    exists row, p. repeat split; try done. by apply Hchar.
  - intros (row & p & Hin & Hp & Hid & Hmax).
    exists p. split; [|done]. apply list_elem_of_fmap. exists row.
    split; [done|]. apply list_elem_of_filter. split; [|done].
    by apply Hchar.
Qed.

(** ** The further properties on the sample data *)

Lemma save_card_totals_match_rows_witness :
  let rows := hole_scores_of played_db sample_rp1 in
  hole_number <$> rows = number <$> sample_holes /\
  cs_gross_total sample_summary = sum_over gross_strokes rows /\
  cs_net_total sample_summary =
    sum_over (fun hs => default 0 (net_strokes hs)) rows /\
  cs_points_total sample_summary =
    sum_over (fun hs => default 0 (hs_stableford_points hs)) rows /\
  (forall x, x ∈ db_round_players played_db -> rp_id x = rp_id sample_rp1 ->
     gross_total x = Some (cs_gross_total sample_summary) /\
     net_total x = Some (cs_net_total sample_summary) /\
     stableford_hcp_total x = Some (cs_points_total sample_summary) /\
     putts_total x = Some (sum_over (fun hs => default 0 (putts hs)) rows)).
Proof.
  apply (save_card_totals_match_rows sample_db sample_rp1 sample_holes
           sample_gross sample_putts sample_fir sample_summary played_db).
  vm_compute. reflexivity.
Defined.

(** The sample card: 90 strokes with a course handicap of 15. *)
Example save_card_totals_example :
  cs_gross_total sample_summary = 90 /\
  cs_net_total sample_summary = 75 /\
  (fun x => (rp_id x, gross_total x, net_total x, putts_total x)) <$>
    db_round_players played_db =
  [(1, Some 90, Some 75, Some 2); (2, None, None, None)].
Proof. by vm_compute. Qed.

Lemma save_card_net_total_witness :
  let ch := rp_course_handicap sample_rp1 in
  cs_net_total sample_summary =
    cs_gross_total sample_summary - (ch / 18 * len sample_holes + ch mod 18) /\
  (len sample_holes = 18 ->
   cs_net_total sample_summary = cs_gross_total sample_summary - ch).
Proof.
  apply (save_card_net_total sample_db sample_rp1 sample_holes
           sample_gross sample_putts sample_fir sample_summary played_db).
  - apply (bool_decide_unpack _). vm_compute. reflexivity.
  - vm_compute. reflexivity.
Defined.

Lemma save_card_counters_witness :
  cs_hio sample_summary + cs_albatros sample_summary +
    cs_eagles sample_summary + cs_birdies sample_summary +
    cs_pars sample_summary + cs_bogeys sample_summary +
    cs_dbl sample_summary + cs_overdbl sample_summary = len sample_holes /\
  cs_fir_possible sample_summary =
    len (filter (fun h => par h <> 3) sample_holes) /\
  0 <= cs_fir_total sample_summary <= cs_fir_possible sample_summary /\
  cs_gir_possible sample_summary =
    len (filter (fun h => is_Some (putts_value sample_putts h)) sample_holes) /\
  0 <= cs_gir_total sample_summary <= cs_gir_possible sample_summary /\
  0 <= cs_points_total sample_summary <= 6 * len sample_holes.
Proof.
  apply (save_card_counters sample_db sample_rp1 sample_holes
           sample_gross sample_putts sample_fir sample_summary played_db).
  vm_compute. reflexivity.
Defined.

(** The outcomes of a save over the card saved before: with nine holes
    for a handicap of 15 it raises [IndexError]; without the gross score of
    hole 18 it raises [KeyError], and then the hole scores of the earlier
    card are gone while its gross total of 90 is still on the round
    player. *)
Example save_card_outcome_example :
  let res9 := save_card_for_round_player played_db sample_rp1
                (take 9 sample_holes) sample_gross sample_putts sample_fir in
  let res17 := save_card_for_round_player played_db sample_rp1 sample_holes
                 (base.delete 18 sample_gross) sample_putts sample_fir in
  fst res9 = Err IndexError /\
  fst res17 = Err KeyError /\
  len (db_hole_scores played_db) = 18 /\
  db_hole_scores (snd res17) = [] /\
  (gross_total <$> get_round_player (snd res17) 1) = Some (Some 90) /\
  fst sample_save = Ok sample_summary.
Proof. by vm_compute. Qed.

(** Eighteen holes of [2^62] strokes: every row fits its column and the
    gross total does not. The card loop runs through, the final commit
    raises [OverflowError] and the earlier card is gone. With 100 strokes
    on every hole the same save returns. *)
Example save_card_overflow_example :
  let every := fun g : Z => list_to_map ((fun n => (n, g)) <$> seqZ 1 18) in
  save_card_for_round_player played_db sample_rp1 sample_holes
    (every (2 ^ 62)) sample_putts sample_fir
  = (Err OverflowError, delete_card played_db sample_rp1) /\
  fits_integer (2 ^ 62) = true /\
  fits_integer (18 * 2 ^ 62) = false /\
  cs_gross_total <$> to_option (fst (save_card_for_round_player played_db
    sample_rp1 sample_holes (every 100) sample_putts sample_fir)) = Some 1800.
Proof. by vm_compute. Qed.

Lemma save_card_idempotent_witness :
  save_card_for_round_player played_db played_rp1 sample_holes
    sample_gross sample_putts sample_fir = (Ok sample_summary, played_db).
Proof.
  apply (save_card_idempotent sample_db sample_rp1 played_rp1 sample_holes
           sample_gross sample_putts sample_fir sample_summary played_db).
  - vm_compute. reflexivity.
  - reflexivity.
  - reflexivity.
Defined.

Lemma save_card_stableford_totals_witness :
  exists s p,
    stableford_scratch_total played_rp1 = Some s /\
    stableford_hcp_total played_rp1 = Some p /\
    p = cs_points_total sample_summary /\
    0 <= s <= 6 * len sample_holes /\ 0 <= p <= 6 * len sample_holes /\
    (0 <= rp_course_handicap sample_rp1 -> s <= p) /\
    (rp_course_handicap sample_rp1 <= 0 -> p <= s).
Proof.
  apply (save_card_stableford_totals sample_db sample_rp1 sample_holes
           sample_gross sample_putts sample_fir sample_summary played_db
           played_rp1).
  - apply (bool_decide_unpack _). vm_compute. reflexivity.
  - vm_compute. reflexivity.
  - apply list_elem_of_In. vm_compute. left. reflexivity.
  - reflexivity.
Defined.

Lemma close_round_missing_round_witness :
  ((forall rp, rp ∈ get_round_players orphan_db 1 ->
      stableford_hcp_total rp = None) ->
   close_round_and_set_winner orphan_db 1 = (Err ValueError, orphan_db)) /\
  ((exists rp, rp ∈ get_round_players orphan_db 1 /\
               is_Some (stableford_hcp_total rp)) ->
   close_round_and_set_winner orphan_db 1 = (Err AttributeError, orphan_db)).
Proof.
  apply (close_round_missing_round orphan_db 1). reflexivity.
Defined.

Example close_round_missing_round_example :
  close_round_and_set_winner orphan_db 1 = (Err AttributeError, orphan_db) /\
  close_round_and_set_winner orphan_db 2 = (Err ValueError, orphan_db).
Proof. by vm_compute. Qed.

Lemma close_round_idempotent_witness :
  close_round_and_set_winner closed_tie_db 1 = (Ok tt, closed_tie_db).
Proof.
  apply (close_round_idempotent tie_db 1 closed_tie_db).
  vm_compute. reflexivity.
Defined.

Lemma save_card_and_close_returns_witness :
  exists db2,
    save_card_and_close sample_db 1 sample_rp1 sample_holes
      sample_gross sample_putts sample_fir = (Ok tt, db2) /\
    ((forall x, x ∈ get_round_players played_db 1 -> is_Some (gross_total x)) ->
     db2 = snd (close_round_and_set_winner played_db 1) /\
     exists r2, get_round db2 1 = Some r2 /\
       (winner_type r2 = Some "single" \/ winner_type r2 = Some "tie")) /\
    ((exists x, x ∈ get_round_players played_db 1 /\ gross_total x = None) ->
     db2 = played_db /\ get_round db2 1 = Some sample_round).
Proof.
  apply (save_card_and_close_returns sample_db 1 sample_round sample_rp1
           sample_holes sample_gross sample_putts sample_fir sample_summary
           played_db).
  - reflexivity.
  - apply list_elem_of_In. vm_compute. left. reflexivity.
  - reflexivity.
  - vm_compute. reflexivity.
Defined.

(** After the first card of the sample round the round stays open; after
    the second it is closed, the second player winning with more strokes
    received. *)
Example save_card_and_close_example :
  let db1 := snd (save_card_and_close sample_db 1 sample_rp1 sample_holes
                    sample_gross sample_putts sample_fir) in
  let db2 := snd (save_card_and_close db1 1 sample_rp2 sample_holes
                    sample_gross sample_putts sample_fir) in
  (winner_type <$> get_round db1 1) = Some None /\
  (winner_type <$> get_round db2 1) = Some (Some "single") /\
  (winner_player_ids <$> get_round db2 1) = Some (Some "11") /\
  (fun rp => (player_id rp, stableford_hcp_total rp, result rp)) <$>
    get_round_players db2 1 =
  [(10, Some 33, Some "loss"); (11, Some 38, Some "win")].
Proof. by vm_compute. Qed.

Lemma round_summary_counts_match_save_witness :
  round_summary_row played_db sample_holes lit_72 0 played_rp1
    = Err ZeroDivisionError /\
  exists row,
    round_summary_row played_db sample_holes lit_72 113 played_rp1 = Ok row /\
    rs_gross_total row = Some (cs_gross_total sample_summary) /\
    rs_net_total row = Some (cs_net_total sample_summary) /\
    rs_points row = Some (cs_points_total sample_summary) /\
    rs_level_hcp row =
      Some (fdiv (fmul (fsub (float_of_int (cs_gross_total sample_summary))
                             lit_72)
                       (float_of_int 113))
                 (float_of_int 113)) /\
    rs_fir row = cs_fir_total sample_summary /\
    rs_fir_possible row = cs_fir_possible sample_summary /\
    (rs_fir_pct row = None <-> cs_fir_possible sample_summary = 0) /\
    rs_gir row = cs_gir_total sample_summary /\
    rs_gir_possible row = cs_gir_possible sample_summary /\
    (rs_gir_pct row = None <-> cs_gir_possible sample_summary = 0) /\
    rs_hio row = cs_hio sample_summary /\
    rs_albatros row = cs_albatros sample_summary /\
    rs_eagles row = cs_eagles sample_summary /\
    rs_birdies row = cs_birdies sample_summary /\
    rs_pars row = cs_pars sample_summary /\
    rs_bogeys row = cs_bogeys sample_summary /\
    rs_dbl row = cs_dbl sample_summary /\
    rs_overdbl row = cs_overdbl sample_summary.
Proof.
  split.
  - apply (round_summary_counts_match_save sample_db sample_rp1 sample_holes
             sample_gross sample_putts sample_fir sample_summary played_db
             played_rp1 lit_72 0).
    + apply (bool_decide_unpack _). vm_compute. reflexivity.
    + vm_compute. reflexivity.
    + apply list_elem_of_In. vm_compute. left. reflexivity.
    + reflexivity.
    + reflexivity.
  - apply (round_summary_counts_match_save sample_db sample_rp1 sample_holes
             sample_gross sample_putts sample_fir sample_summary played_db
             played_rp1 lit_72 113).
    + apply (bool_decide_unpack _). vm_compute. reflexivity.
    + vm_compute. reflexivity.
    + apply list_elem_of_In. vm_compute. left. reflexivity.
    + reflexivity.
    + lia.
Defined.

(** The row of the sample card on a course of rating 72.0 and slope 113:
    one fairway hit out of 14 and no green out of 1, two putts on the one
    hole with putts, a level of play of 18.0, and the eighteen fives spread
    over the categories by par. *)
Example round_summary_row_example :
  let row := round_summary_row played_db sample_holes lit_72 113 played_rp1 in
  rs_fir <$> to_option row = Some 1 /\
  rs_fir_possible <$> to_option row = Some 14 /\
  rs_gir <$> to_option row = Some 0 /\
  rs_gir_possible <$> to_option row = Some 1 /\
  rs_putts_per_hole <$> to_option row = Some (Some (float_of_int 2)) /\
  rs_level_hcp <$> to_option row = Some (Some (float_of_int 18)) /\
  (rs_pars <$> to_option row, rs_bogeys <$> to_option row,
   rs_dbl <$> to_option row) = (Some 4, Some 10, Some 4).
Proof. by vm_compute. Qed.

Lemma delete_round_effect_witness :
  let db' := delete_round played_db 1 in
  get_round db' 1 = None /\
  get_round_players db' 1 = [] /\
  (forall rp hs, rp ∈ get_round_players played_db 1 ->
     hs ∈ db_hole_scores db' -> hs_round_player_id hs <> rp_id rp) /\
  db_players db' = db_players played_db /\
  db_courses db' = db_courses played_db /\
  db_rounds db' = filter (fun x => r_id x <> 1) (db_rounds played_db) /\
  (NoDup (rp_id <$> db_round_players played_db) ->
   db_round_players db' =
     filter (fun x => round_id x <> 1) (db_round_players played_db) /\
   forall rp, rp ∈ db_round_players db' ->
     hole_scores_of db' rp = hole_scores_of played_db rp).
Proof.
  apply (delete_round_effect played_db 1 sample_round). reflexivity.
Defined.

Example delete_round_example :
  delete_round played_db 1 = mkDB [] [] [] [] [] /\
  delete_round played_db 2 = played_db.
Proof. by vm_compute. Qed.

Example standings_outcome_example :
  compute_league_standings tie_db sample_league (db_rounds tie_db)
  = Err AttributeError.
Proof. by vm_compute. Qed.

Lemma standings_open_league_witness :
  champ_main_players open_standings = [] /\
  champ_net_players open_standings = [] /\
  champ_scratch_players open_standings = [] /\
  forall league',
    exists st',
      compute_league_standings league_db league' (db_rounds league_db)
        = Ok st' /\
      st_main st' = st_main open_standings /\
      st_net st' = st_net open_standings /\
      st_scratch st' = st_scratch open_standings /\
      st_players_table st' = st_players_table open_standings.
Proof.
  apply (standings_open_league league_db open_league (db_rounds league_db)
           open_standings).
  - vm_compute. reflexivity.
  - discriminate.
Defined.

Lemma scratch_champions_maximum_witness :
  StronglySorted
    (fun a b => sr_total_scratch b <= sr_total_scratch a)
    (st_scratch sample_standings) /\
  (forall pid,
     0 < sum_of stableford_scratch_total
           (participations league_db (db_rounds league_db) pid) ->
     exists row p, row ∈ st_scratch sample_standings /\
                   sr_player row = Some p /\ p_id p = pid) /\
  (forall pid,
     pid ∈ champ_scratch_players sample_standings <->
     exists row p,
       row ∈ st_scratch sample_standings /\ sr_player row = Some p /\
       p_id p = pid /\
       forall row', row' ∈ st_scratch sample_standings ->
         sr_total_scratch row' <= sr_total_scratch row).
Proof.
  apply (scratch_champions_maximum league_db sample_league
           (db_rounds league_db) sample_standings).
  - vm_compute. reflexivity.
  - reflexivity.
Defined.

(** Bea (50 scratch points over five rounds) is the scratch champion,
    ahead of Carl (48 over four); Ana has none and is not listed. *)
Example scratch_champions_example :
  (fun row => (p_id <$> sr_player row, sr_total_scratch row)) <$>
    st_scratch sample_standings = [(Some 12, 50); (Some 13, 48)] /\
  champ_scratch_players sample_standings = [12] /\
  champ_scratch_players open_standings = [].
Proof. by vm_compute. Qed.

Lemma players_table_rows_witness :
  exists p avg best,
    pr_player sample_player_row = Some p /\
    let ps := participations league_db (db_rounds league_db) (p_id p) in
    1 <= pr_rounds sample_player_row /\
    pr_rounds sample_player_row = len ps /\
    pr_wins sample_player_row =
      len (filter (fun rp => result rp = Some "win") ps) /\
    pr_ties sample_player_row =
      len (filter (fun rp => result rp = Some "tie") ps) /\
    pr_wins sample_player_row + pr_ties sample_player_row
      <= pr_rounds sample_player_row /\
    pr_gross_total sample_player_row = sum_of gross_total ps /\
    pr_net_total sample_player_row = sum_of net_total ps /\
    pr_stableford_total sample_player_row = sum_of stableford_hcp_total ps /\
    pr_scratch_total sample_player_row = sum_of stableford_scratch_total ps /\
    pr_avg_gross sample_player_row = Some avg /\
    int_truediv (sum_of gross_total ps) (len ps) = Ok avg /\
    pr_best_gross sample_player_row = Some best /\
    (exists rp, rp ∈ ps /\ gross_total rp = Some best) /\
    (forall rp g, rp ∈ ps -> gross_total rp = Some g -> best <= g).
Proof.
  apply (players_table_rows league_db sample_league (db_rounds league_db)
           sample_standings sample_player_row).
  - vm_compute. reflexivity.
  - apply list_elem_of_In. vm_compute. left. reflexivity.
Defined.

Lemma main_table_players_witness :
  (forall row, row ∈ st_main sample_standings ->
     exists p, mr_player row = Some p /\
       mr_rounds row =
         len (participations league_db (db_rounds league_db) (p_id p)) /\
       1 <= mr_rounds row) /\
  NoDup ((fun row => p_id <$> mr_player row) <$> st_main sample_standings) /\
  (forall pid, participations league_db (db_rounds league_db) pid <> [] ->
     exists row p, row ∈ st_main sample_standings /\
                   mr_player row = Some p /\ p_id p = pid).
Proof.
  apply (main_table_players league_db sample_league (db_rounds league_db)
           sample_standings).
  vm_compute. reflexivity.
Defined.

Lemma main_champions_maximum_witness :
  (forall row, row ∈ st_main sample_standings ->
     is_nan (mr_points row) = false /\ fltb (mr_points row) lit_0 = false) /\
  StronglySorted (fun a b => fltb (mr_points a) (mr_points b) = false)
    (st_main sample_standings) /\
  (forall pid,
     pid ∈ champ_main_players sample_standings <->
     exists row p,
       row ∈ st_main sample_standings /\ mr_player row = Some p /\
       p_id p = pid /\
       forall row', row' ∈ st_main sample_standings ->
         fltb (mr_points row) (mr_points row') = false).
Proof.
  apply (main_champions_maximum league_db sample_league (db_rounds league_db)
           sample_standings).
  - intros r Hr. apply list_elem_of_In in Hr. vm_compute in Hr.
    destruct Hr as [<-|[<-|[<-|[<-|[<-|[]]]]]]; vm_compute; reflexivity.
  - vm_compute. reflexivity.
  - reflexivity.
Defined.

(** Carl wins the first four rounds of three players alone (2 points each
    time); Ana and Bea tie the fifth round of two players (half a point
    each). Carl is the main champion; Ana comes before Bea by name. *)
Example main_champions_example :
  (fun row => (p_id <$> mr_player row, mr_points row, mr_rounds row)) <$>
    st_main sample_standings =
  [(Some 13, float_of_int 8, 4); (Some 11, lit_0_5, 5); (Some 12, lit_0_5, 5)] /\
  champ_main_players sample_standings = [13].
Proof. by vm_compute. Qed.
